(** * The Conexpo exhibitor-directory scraper: a shallow embedding of
    [scraper.py] and the properties of its resumable crawl.

    Conventions of the embedding.
    - A Python [str] is a [string] whose characters are the code points
      below U+0100; [str.lower], [str.strip] and the regular-expression
      class [\d] are those of Python on these code points.  Text with
      other code points is outside the model.
    - Python integers are [Z]; element counts returned by the browser are
      [nat].
    - The browser page is an abstract value of a type [W] with the calls of
      the Playwright API that the program uses ([Browser]).  Every call
      that waits for a page or for an element may raise
      [PlaywrightTimeoutError]: [page.goto], [page.wait_for_selector],
      [page.go_back], and on a locator [get_attribute], [text_content],
      [inner_text], [scroll_into_view_if_needed] and [click].  The calls
      that do not wait ([count], [page.evaluate], [page.wait_for_timeout],
      [page.url], [close]) return normally.  No other exception is
      modelled.
    - The two files are a record [FS]: the CSV file as its bytes, the
      checkpoint file as the JSON object it holds.
    - Every call on the page, every file operation, every [print] and every
      value returned by [_extract_exhibitor_details] is appended to a trace,
      so that what the program did, and in which order, can be stated. *)

From Stdlib Require Import ZArith Ascii String List Lia.
From stdpp Require Import base tactics option list gmap strings pretty.

Set Warnings "-register-all,-clear-no-such-hyp".

Local Open Scope Z_scope.

(** ** Python strings *)

Module Py.

Definition code (c : ascii) : N := N_of_ascii c.

(** [str.isspace] on one character below U+0100: TAB, LF, VT, FF, CR, the
    four separators FS, GS, RS, US, the space, NEL (U+0085) and the
    no-break space (U+00A0). *)
Definition is_space (c : ascii) : bool :=
  ((9 <=? code c)%N && (code c <=? 13)%N) || ((28 <=? code c)%N && (code c <=? 32)%N)
  || (code c =? 133)%N || (code c =? 160)%N.

Definition is_digit (c : ascii) : bool :=
  (48 <=? code c)%N && (code c <=? 57)%N.

(** [str.lower] on one character below U+0100: the letters A-Z and the
    capital letters of Latin-1 (U+00C0 to U+00DE, without the sign U+00D7)
    are moved up by 32. *)
Definition lower_char (c : ascii) : ascii :=
  if ((65 <=? code c)%N && (code c <=? 90)%N)
     || ((192 <=? code c)%N && (code c <=? 222)%N && negb (code c =? 215)%N)
  then ascii_of_N (code c + 32) else c.

(** [s.lower()] *)
Fixpoint lower (s : string) : string :=
  match s with
  | EmptyString => EmptyString
  | String c r => String (lower_char c) (lower r)
  end.

(** [s.lstrip()], [s.rstrip()], [s.strip()] *)
Fixpoint lstrip (s : string) : string :=
  match s with
  | EmptyString => EmptyString
  | String c r => if is_space c then lstrip r else s
  end.

Fixpoint rstrip (s : string) : string :=
  match s with
  | EmptyString => EmptyString
  | String c r =>
      match rstrip r with
      | EmptyString => if is_space c then EmptyString else String c EmptyString
      | r' => String c r'
      end
  end.

Definition strip (s : string) : string := rstrip (lstrip s).

(** Truth value of a string: [bool(s)]. *)
Definition truthy (s : string) : bool :=
  match s with EmptyString => false | _ => true end.

(** [sep.join(parts)] *)
Fixpoint join (sep : string) (parts : list string) : string :=
  match parts with
  | [] => ""
  | [p] => p
  | p :: rest => p +:+ sep +:+ join sep rest
  end.

(** [x or ""] for an optional string, and [(x or "").strip()]. *)
Definition or_empty (x : option string) : string := default "" x.

(** [s[:n]] *)
Fixpoint take (n : nat) (s : string) : string :=
  match n, s with
  | S k, String c r => String c (take k r)
  | _, _ => ""
  end.

(** [all(p(c) for c in s)] *)
Fixpoint all_chars (p : ascii -> bool) (s : string) : bool :=
  match s with
  | EmptyString => true
  | String c r => p c && all_chars p r
  end.

(** [any(p(c) for c in s)] *)
Fixpoint any_char (p : ascii -> bool) (s : string) : bool :=
  match s with
  | EmptyString => false
  | String c r => p c || any_char p r
  end.

End Py.

(** ** Regular expressions: the fragment of [re] the program uses

    A backtracking matcher in continuation-passing style, with the
    priorities of Python's engine: an optional item and a repetition are
    greedy, and [search] tries the start positions from left to right.
    The continuation returns the number of characters matched after the
    current point, so that the matcher returns the length of the match. *)

Module Re.

Inductive regex : Type :=
| Class (p : ascii -> bool)               (* one character of a class *)
| Cat (r1 r2 : regex)                     (* r1 r2 *)
| Opt (r : regex)                         (* r? *)
| AtLeast (n : nat) (p : ascii -> bool).  (* [class]{n,} *)

Definition cont := string -> option nat.

(** [class]{n,} followed by [k]: take a character of the class when there
    is one and try the rest; give the position back when that fails and
    [n] characters have been taken. *)
Fixpoint rep (p : ascii -> bool) (n : nat) (s : string) (k : cont) : option nat :=
  let stop := if Nat.eqb n 0 then k s else None in
  match s with
  | String c r =>
      if p c then
        match rep p (Nat.pred n) r k with
        | Some m => Some (S m)
        | None => stop
        end
      else stop
  | EmptyString => stop
  end.

Fixpoint m (r : regex) (s : string) (k : cont) : option nat :=
  match r with
  | Class p =>
      match s with
      | String c s' => if p c then S <$> k s' else None
      | EmptyString => None
      end
  | Cat r1 r2 => m r1 s (fun s' => m r2 s' k)
  | Opt r1 =>
      match m r1 s k with
      | Some n => Some n
      | None => k s
      end
  | AtLeast n p => rep p n s k
  end.

(** [re.match(r, s)]: the length of the match at the start of [s]. *)
Definition match_here (r : regex) (s : string) : option nat :=
  m r s (fun _ => Some 0%nat).

(** [re.search(r, s)]: the start position and the text of the first match. *)
Fixpoint search_from (r : regex) (pos : nat) (s : string) : option (nat * string) :=
  match match_here r s with
  | Some n => Some (pos, Py.take n s)
  | None =>
      match s with
      | String _ s' => search_from r (S pos) s'
      | EmptyString => None
      end
  end.

Definition search (r : regex) (s : string) : option (nat * string) :=
  search_from r 0 s.

End Re.

(** ** The phone pattern of [_extract_exhibitor_details] *)

Definition is_plus (c : ascii) : bool := Ascii.eqb c "+"%char.

(** The class [[\d\-(). ]]. *)
Definition is_phone_char (c : ascii) : bool :=
  Py.is_digit c || Ascii.eqb c "-"%char || Ascii.eqb c "("%char
  || Ascii.eqb c ")"%char || Ascii.eqb c "."%char || Ascii.eqb c " "%char.

(** [r"(\+?\d[\d\-(). ]{6,}\d)"]; the one group spans the whole pattern, so
    [group(1)] is the text of the match. *)
Definition PHONE_DIGITS : Re.regex :=
  Re.Cat (Re.Class Py.is_digit)
    (Re.Cat (Re.AtLeast 6 is_phone_char) (Re.Class Py.is_digit)).

Definition PHONE_RE : Re.regex := Re.Cat (Re.Opt (Re.Class is_plus)) PHONE_DIGITS.

(** What follows the repetition in the pattern: one digit, then the end
    of the match. *)
Definition last_digit : Re.cont :=
  fun s => Re.m (Re.Class Py.is_digit) s (fun _ => Some 0%nat).

(** Lines 108-109: [phone_match = re.search(...)],
    [phone = phone_match.group(1).strip() if phone_match else ""]. *)
Definition phone_of (contact_text : string) : string :=
  match Re.search PHONE_RE contact_text with
  | Some (_, g1) => Py.strip g1
  | None => ""
  end.

(** ** Module constants *)

Definition BASE_URL : string := "https://directory.conexpoconagg.com".
Definition START_URL : string :=
  "https://directory.conexpoconagg.com/8_0/explore/exhibitor-categories-parent.cfm#/".
Definition CATEGORY_LINK_SELECTOR : string :=
  "tbody a[href*='cat-exhibitorcategoriesparents|']".
Definition SUBCATEGORY_LINK_SELECTOR : string :=
  "tbody a[href*='cat-exhibitorcategoriesparents|']".
Definition EXHIBITOR_LINK_SELECTOR : string := "li.js-Card".
Definition EXHIBITOR_LINK_IN_CARD : string :=
  "a[href*='/exhibitor/exhibitor-details.cfm?exhid=']".
Definition VIEW_ALL_LABEL : string := "View All Exhibitors".
Definition RESUME_AFTER_COMPANY_NAME : string := "Stedman Machine Company".
Definition CSV_HEADERS : list string :=
  ["category"; "subcategory"; "company_name"; "address"; "website"; "phone";
   "description"; "booth"].

(** ** Data *)

(** [@dataclass(frozen=True) class Category] *)
Record Category : Type := mkCategory { name : string; url : string }.

(** The dictionary returned by [_extract_exhibitor_details]. *)
Record Details : Type := mkDetails {
  d_company_name : string;
  d_address : string;
  d_website : string;
  d_phone : string;
  d_description : string;
  d_booth : string
}.

(** The dictionary passed to [_append_row]:
    [{"category": ..., "subcategory": ..., **details}]. *)
Record Row : Type := mkRow {
  row_category : string;
  row_subcategory : string;
  row_details : Details
}.

(** The object held by the checkpoint file, read with [dict.get]: a key may
    be absent (or null).  The empty dictionary has no key. *)
Record Checkpoint : Type := mkCheckpoint {
  ck_category : option string;
  ck_subcategory : option string;
  ck_exhibitor_index : option Z
}.

Definition empty_checkpoint : Checkpoint := mkCheckpoint None None None.

(** ** The two files *)

Record FS : Type := mkFS {
  csv_file : option string;             (* OUTPUT_CSV: absent, or its bytes *)
  checkpoint_file : option Checkpoint   (* CHECKPOINT_FILE: absent, or its object *)
}.

(** *** The [csv] writer (dialect excel, minimal quoting) *)

Definition DQUOTE : ascii := "034"%char.
Definition CR : ascii := "013"%char.
Definition LF : ascii := "010"%char.
Definition CRLF : string := String CR (String LF "").

Definition csv_special (c : ascii) : bool :=
  Ascii.eqb c ","%char || Ascii.eqb c DQUOTE || Ascii.eqb c CR || Ascii.eqb c LF.

Fixpoint csv_double_quotes (s : string) : string :=
  match s with
  | EmptyString => EmptyString
  | String c r =>
      if Ascii.eqb c DQUOTE then String DQUOTE (String DQUOTE (csv_double_quotes r))
      else String c (csv_double_quotes r)
  end.

Definition csv_field (s : string) : string :=
  if Py.any_char csv_special s
  then String DQUOTE (csv_double_quotes s +:+ String DQUOTE "")
  else s.

(** [writer.writerow(fields)] for a row of several fields. *)
Definition csv_line (fields : list string) : string :=
  Py.join "," (map csv_field fields) +:+ CRLF.

(** The values of a row in the order of [CSV_HEADERS]. *)
Definition row_values (r : Row) : list string :=
  let d := row_details r in
  [row_category r; row_subcategory r; d_company_name d; d_address d; d_website d;
   d_phone d; d_description d; d_booth d].

(** *** File operations *)

(** [_load_checkpoint()] *)
Definition _load_checkpoint (f : FS) : option Checkpoint := checkpoint_file f.

(** [_save_checkpoint(category, subcategory, exhibitor_index)]: the file is
    opened with "w" and overwritten whole. *)
Definition _save_checkpoint (category subcategory : string) (exhibitor_index : Z)
    (f : FS) : FS :=
  mkFS (csv_file f)
       (Some (mkCheckpoint (Some category) (Some subcategory) (Some exhibitor_index))).

(** [_init_csv()] *)
Definition _init_csv (f : FS) : FS :=
  match csv_file f with
  | Some _ => f
  | None => mkFS (Some (csv_line CSV_HEADERS)) (checkpoint_file f)
  end.

(** [_append_row(row)]: the file is opened with "a", which creates it when
    it is absent. *)
Definition _append_row (row : Row) (f : FS) : FS :=
  mkFS (Some (default "" (csv_file f) +:+ csv_line (row_values row)))
       (checkpoint_file f).

(** ** The browser *)

(** A Playwright locator, as the program builds them. *)
Inductive Locator : Type :=
| Loc (selector : string)                      (* page.locator(selector) *)
| Sub (parent : Locator) (selector : string)   (* parent.locator(selector) *)
| Nth (l : Locator) (i : Z)                    (* l.nth(i) *)
| First (l : Locator).                         (* l.first *)

(** The calls made on the page and on locators.  A call returns its result
    and the page after it.  A call that may raise [PlaywrightTimeoutError]
    returns [false], or [None] in the place of its value, when it raises:
    [get_attribute] and [text_content] return [Some None] for Python's
    [None] (no such attribute, no text) and [None] when they time out. *)
Class Browser (W : Type) : Type := {
  page_goto : string -> W -> bool * W;
  page_wait_for_timeout : Z -> W -> W;
  page_wait_for_selector : string -> W -> bool * W;
  loc_count : Locator -> W -> nat * W;
  loc_get_attribute : Locator -> string -> W -> option (option string) * W;
  loc_text_content : Locator -> W -> option (option string) * W;
  loc_inner_text : Locator -> W -> option string * W;
  page_evaluate : W -> W;
  loc_scroll_into_view_if_needed : Locator -> W -> bool * W;
  loc_click : Locator -> W -> bool * W;
  page_go_back : W -> bool * W;
  page_url : W -> string;
  page_close : W -> W
}.

(** ** Traces *)

(** The calls that may time out, other than [page.goto] and
    [page.wait_for_selector], whose events tell how they ended. *)
Inductive Call : Type :=
| CGetAttribute (l : Locator) (attr : string)
| CTextContent (l : Locator)
| CInnerText (l : Locator)
| CScroll (l : Locator)
| CClick (l : Locator)
| CGoBack.

Inductive Event : Type :=
| EGoto (u : string) (ok : bool)
| EWaitForTimeout (ms : Z)
| EWaitForSelector (selector : string) (ok : bool)
| ECount (l : Locator) (n : nat)
| EGetAttribute (l : Locator) (attr : string) (v : option string)
| ETextContent (l : Locator) (v : option string)
| EInnerText (l : Locator) (v : string)
| EEvaluate
| EScroll (l : Locator)
| EClick (l : Locator)
| EGoBack
| EClose
| EPrint (line : string)
| EInitCsv
| ELoadCheckpoint
| ESaveCheckpoint (category subcategory : string) (exhibitor_index : Z)
| EAppendRow (row : Row)
| EExtracted (category subcategory : string) (exhibitor_index : Z)
    (details : option Details)
| ERaised (call : Call).

(** ** The state and error monad of the program *)

Record State (W : Type) : Type := mkState {
  page : W;
  fs : FS;
  trace : list Event
}.
Arguments mkState {W} _ _ _.
Arguments page {W} _.
Arguments fs {W} _.
Arguments trace {W} _.

(** How a computation ends: normally, with [PlaywrightTimeoutError] raised,
    or (in the model only) with the fuel of a [while] loop used up. *)
Inductive result (A : Type) : Type :=
| Ok (a : A)
| TimeoutError
| OutOfFuel.
Arguments Ok {A} _.
Arguments TimeoutError {A}.
Arguments OutOfFuel {A}.

Definition M (W A : Type) : Type := State W -> result A * State W.

Definition ret {W A} (a : A) : M W A := fun st => (Ok a, st).

Definition bind {W A B} (c : M W A) (k : A -> M W B) : M W B :=
  fun st =>
    match c st with
    | (Ok a, st') => k a st'
    | (TimeoutError, st') => (TimeoutError, st')
    | (OutOfFuel, st') => (OutOfFuel, st')
    end.

(** [raise PlaywrightTimeoutError] *)
Definition raise {W A} : M W A := fun st => (TimeoutError, st).

Definition out_of_fuel {W A} : M W A := fun st => (OutOfFuel, st).

(** [try: c  except PlaywrightTimeoutError: h] *)
Definition try_except {W A} (c : M W A) (h : M W A) : M W A :=
  fun st =>
    match c st with
    | (TimeoutError, st') => h st'
    | other => other
    end.

(** [try: x = c  except PlaywrightTimeoutError: x = None] *)
Definition attempt {W A} (c : M W A) : M W (option A) :=
  try_except (bind c (fun a => ret (Some a))) (ret None).

Declare Scope prog_scope.
Delimit Scope prog_scope with prog.
Notation "x <- c ;; k" := (bind c (fun x => k))
  (at level 100, c at next level, right associativity) : prog_scope.
Notation "c ;; k" := (bind c (fun _ => k))
  (at level 100, right associativity) : prog_scope.

(** [for x in xs: acc = body(x, acc)] *)
Fixpoint for_each {W A S} (xs : list A) (body : A -> S -> M W S) (acc : S) : M W S :=
  match xs with
  | [] => ret acc
  | x :: rest => bind (body x acc) (for_each rest body)
  end.

(** [range(n)] *)
Definition range (n : nat) : list Z := map Z.of_nat (seq 0 n).

Section Program.

Context {W : Type} `{Browser W}.

(** [urllib.parse.urljoin] *)
Variable urljoin : string -> string -> string.

Local Open Scope prog_scope.

(** *** Primitive steps: each appends its event to the trace *)

Definition emit (e : Event) : M W unit :=
  fun st => (Ok tt, mkState (page st) (fs st) (trace st ++ [e])).

Definition query {A} (op : W -> A * W) (ev : A -> Event) : M W A :=
  fun st =>
    let '(a, w) := op (page st) in
    (Ok a, mkState w (fs st) (trace st ++ [ev a])).

Definition action (op : W -> W) (ev : Event) : M W unit :=
  fun st => (Ok tt, mkState (op (page st)) (fs st) (trace st ++ [ev])).

(** A call that may raise [PlaywrightTimeoutError]. *)
Definition fallible (op : W -> bool * W) (ev : bool -> Event) : M W unit :=
  fun st =>
    let '(ok, w) := op (page st) in
    (if ok then Ok tt else TimeoutError,
     mkState w (fs st) (trace st ++ [ev ok])).

(** A call that returns a value or raises [PlaywrightTimeoutError]; the
    trace tells which call raised. *)
Definition read {A} (op : W -> option A * W) (ev : A -> Event) (call : Call)
    : M W A :=
  fun st =>
    let '(a, w) := op (page st) in
    match a with
    | Some a => (Ok a, mkState w (fs st) (trace st ++ [ev a]))
    | None => (TimeoutError, mkState w (fs st) (trace st ++ [ERaised call]))
    end.

(** A call without value that may raise [PlaywrightTimeoutError]. *)
Definition act (op : W -> bool * W) (ev : Event) (call : Call) : M W unit :=
  fun st =>
    let '(ok, w) := op (page st) in
    if ok then (Ok tt, mkState w (fs st) (trace st ++ [ev]))
    else (TimeoutError, mkState w (fs st) (trace st ++ [ERaised call])).

Definition file_op (op : FS -> FS) (ev : Event) : M W unit :=
  fun st => (Ok tt, mkState (page st) (op (fs st)) (trace st ++ [ev])).

Definition goto (u : string) : M W unit := fallible (page_goto u) (EGoto u).
Definition wait_for_timeout (ms : Z) : M W unit :=
  action (page_wait_for_timeout ms) (EWaitForTimeout ms).
Definition wait_for_selector (selector : string) : M W unit :=
  fallible (page_wait_for_selector selector) (EWaitForSelector selector).
Definition count (l : Locator) : M W nat := query (loc_count l) (ECount l).
Definition get_attribute (l : Locator) (attr : string) : M W (option string) :=
  read (loc_get_attribute l attr) (EGetAttribute l attr) (CGetAttribute l attr).
Definition text_content (l : Locator) : M W (option string) :=
  read (loc_text_content l) (ETextContent l) (CTextContent l).
Definition inner_text (l : Locator) : M W string :=
  read (loc_inner_text l) (EInnerText l) (CInnerText l).
Definition evaluate : M W unit := action page_evaluate EEvaluate.
Definition scroll_into_view_if_needed (l : Locator) : M W unit :=
  act (loc_scroll_into_view_if_needed l) (EScroll l) (CScroll l).
Definition click (l : Locator) : M W unit :=
  act (loc_click l) (EClick l) (CClick l).
Definition go_back : M W unit := act page_go_back EGoBack CGoBack.
Definition close : M W unit := action page_close EClose.
Definition current_url : M W string := fun st => (Ok (page_url (page st)), st).
Definition print (line : string) : M W unit := emit (EPrint line).

Definition init_csv : M W unit := file_op _init_csv EInitCsv.
Definition load_checkpoint : M W (option Checkpoint) :=
  fun st =>
    (Ok (_load_checkpoint (fs st)),
     mkState (page st) (fs st) (trace st ++ [ELoadCheckpoint])).
Definition save_checkpoint (category subcategory : string) (exhibitor_index : Z)
    : M W unit :=
  file_op (_save_checkpoint category subcategory exhibitor_index)
          (ESaveCheckpoint category subcategory exhibitor_index).
Definition append_row (row : Row) : M W unit :=
  file_op (_append_row row) (EAppendRow row).

(** *** [_safe_goto(page, url, retries=2)] *)

Fixpoint _safe_goto_from (fuel : nat) (u : string) (retries attempt : Z) : M W unit :=
  match fuel with
  | O => out_of_fuel
  | S fuel' =>
      try_except (goto u)
        (let attempt := attempt + 1 in
         if attempt >? retries then raise
         else _safe_goto_from fuel' u retries attempt)
  end.

Definition _safe_goto (fuel : nat) (u : string) (retries : Z) : M W unit :=
  _safe_goto_from fuel u retries 0.

(** *** [_extract_link_text_pairs(page, selector)] *)

Definition _extract_link_text_pairs (selector : string) : M W (list Category) :=
  let elements := Loc selector in
  n <- count elements ;;
  for_each (range n)
    (fun index categories =>
       let element := Nth elements index in
       href <- get_attribute element "href" ;;
       text <- text_content element ;;
       let name := Py.strip (Py.or_empty text) in
       if Py.truthy (Py.or_empty href)
       then ret (categories ++ [mkCategory name (urljoin BASE_URL (Py.or_empty href))])
       else ret categories)
    [].

(** *** [_count_exhibitor_cards(page)] *)

Definition _count_exhibitor_cards : M W nat :=
  wait_for_selector EXHIBITOR_LINK_SELECTOR ;;
  count (Loc EXHIBITOR_LINK_SELECTOR).

(** *** [_extract_exhibitor_details(page)] *)

(** [[(l.nth(i).text_content() or "").strip() for i in range(n)]] *)
Definition stripped_texts (l : Locator) (n : nat) : M W (list string) :=
  for_each (range n)
    (fun i acc =>
       t <- text_content (Nth l i) ;;
       ret (acc ++ [Py.strip (Py.or_empty t)]))
    [].

Definition nonempty (values : list string) : list string :=
  List.filter Py.truthy values.

(** Lines 123-133: [None] unless all six fields are non-empty. *)
Definition details_if_complete
    (company_name address website phone description booth : string)
    : option Details :=
  if negb (forallb Py.truthy
             [company_name; address; website; phone; description; booth])
  then None
  else Some (mkDetails company_name address website phone description booth).

Definition _extract_exhibitor_details : M W (option Details) :=
  wait_for_selector ".exhibitor-name" ;;
  t <- text_content (First (Loc ".exhibitor-name")) ;;
  let company_name := Py.strip (Py.or_empty t) in
  let contact := Loc "article#js-vue-contactinfo" in
  n <- count (Sub contact "address p") ;;
  address_lines <- stripped_texts (Sub contact "address p") n ;;
  let address := Py.join ", " (nonempty address_lines) in
  let website_link := Sub contact "a[href^='http']" in
  c <- count website_link ;;
  website <- (if (0 <? c)%nat
              then h <- get_attribute (First website_link) "href" ;;
                   ret (Py.strip (Py.or_empty h))
              else ret "") ;;
  contact_text <- inner_text contact ;;
  let phone := phone_of contact_text in
  let description_locator := Loc "#section-description" in
  c <- count description_locator ;;
  description <- (if (0 <? c)%nat
                  then t <- text_content (First description_locator) ;;
                       ret (Py.strip (Py.or_empty t))
                  else ret "") ;;
  let booth_links := Loc "#myssidebar a#newfloorplanlink" in
  n <- count booth_links ;;
  booth_values <- stripped_texts booth_links n ;;
  let booth := Py.join "; " (nonempty booth_values) in
  ret (details_if_complete company_name address website phone description booth).

(** *** [run]: the values fixed before the crawl starts (lines 182-188) *)

(** [category.name == resume_category], where [resume_category] may be
    [None]. *)
Definition name_is (s : string) (o : option string) : bool :=
  match o with
  | Some t => String.eqb s t
  | None => false
  end.

Record Resume : Type := mkResume {
  resume_category : option string;
  resume_subcategory : option string;
  resume_exhibitor_index : Z;
  resume_mode : bool;
  resume_after_name : string
}.

Definition resume_of (target : string) (fresh : bool) (checkpoint : Checkpoint)
    : Resume :=
  {| resume_category := ck_category checkpoint;
     resume_subcategory := ck_subcategory checkpoint;
     resume_exhibitor_index := default 0 (ck_exhibitor_index checkpoint);
     resume_mode := Py.truthy (Py.or_empty (ck_category checkpoint))
                    && Py.truthy (Py.or_empty (ck_subcategory checkpoint));
     resume_after_name := if fresh then "" else Py.lower (Py.strip target) |}.

(** *** The exhibitor loop (lines 267-355) *)

(** The variables that the [while] loop updates. *)
Record LoopVars : Type := mkVars {
  exhibitor_index : Z;
  seen_exhibitors : gset string;
  resume_name_found : bool
}.

Definition cards : Locator := Loc EXHIBITOR_LINK_SELECTOR.
Definition card_link (i : Z) : Locator := Sub (Nth cards i) EXHIBITOR_LINK_IN_CARD.

(** The call of line 309 with the value it returns put on the trace. *)
Definition extract_details (category subcategory : string) (i : Z)
    : M W (option Details) :=
  details <- _extract_exhibitor_details ;;
  emit (EExtracted category subcategory i details) ;;
  ret details.

(** Lines 350-353: the end of an iteration that went into a detail page. *)
Definition finish_exhibitor (category subcategory : Category) (i : Z)
    (seen : gset string) (found : bool) : M W (option LoopVars) :=
  go_back ;;
  wait_for_timeout 1000 ;;
  let i := i + 1 in
  save_checkpoint (name category) (name subcategory) i ;;
  ret (Some (mkVars i seen found)).

(** Lines 315-353: what is done with the outcome of the extraction;
    [None] is the timeout caught at line 310. *)
Definition handle_details (rs : Resume) (category subcategory : Category) (i : Z)
    (seen : gset string) (found : bool) (outcome : option (option Details))
    : M W (option LoopVars) :=
  match outcome with
  | None =>
      u <- current_url ;;
      print ("Skipping exhibitor " +:+ u +:+ " due to timeout") ;;
      finish_exhibitor category subcategory i seen found
  | Some None =>
      u <- current_url ;;
      print ("Skipping exhibitor " +:+ u +:+ " due to missing fields") ;;
      finish_exhibitor category subcategory i seen found
  | Some (Some details) =>
      let company_name := Py.strip (d_company_name details) in
      if negb found then
        found <- (if String.eqb (Py.lower company_name) (resume_after_name rs)
                  then print ("Found resume company " +:+ company_name
                              +:+ ", continuing") ;;
                       ret true
                  else ret found) ;;
        go_back ;;
        wait_for_timeout 1000 ;;
        let i := i + 1 in
        save_checkpoint (name category) (name subcategory) i ;;
        ret (Some (mkVars i seen found))
      else
        append_row (mkRow (name category) (name subcategory) details) ;;
        print (Py.join " " ["Exhibitor"; d_company_name details; "|";
                            d_booth details; "|"; d_phone details]) ;;
        finish_exhibitor category subcategory i seen found
  end.

(** One iteration of the [while] loop (lines 272-353); [None] is [break]. *)
Definition exhibitor_body (rs : Resume) (category subcategory : Category)
    (v : LoopVars) : M W (option LoopVars) :=
  let i := exhibitor_index v in
  n <- count cards ;;
  if i >=? Z.of_nat n then ret None
  else
    evaluate ;;
    let link := card_link i in
    c <- count link ;;
    if (c =? 0)%nat then
      ret (Some (mkVars (i + 1) (seen_exhibitors v) (resume_name_found v)))
    else
      h <- get_attribute (First link) "href" ;;
      let exhibitor_href := Py.or_empty h in
      if bool_decide (exhibitor_href ∈ seen_exhibitors v) then
        ret (Some (mkVars (i + 1) (seen_exhibitors v) (resume_name_found v)))
      else
        let seen := {[exhibitor_href]} ∪ seen_exhibitors v in
        scroll_into_view_if_needed (First link) ;;
        click (First link) ;;
        wait_for_timeout 500 ;;
        outcome <- attempt (extract_details (name category) (name subcategory) i) ;;
        handle_details rs category subcategory i seen (resume_name_found v) outcome.

(** [while exhibitor_index < exhibitor_count: ...] *)
Fixpoint exhibitor_loop (fuel : nat) (rs : Resume) (category subcategory : Category)
    (exhibitor_count : nat) (v : LoopVars) : M W LoopVars :=
  if exhibitor_index v <? Z.of_nat exhibitor_count then
    match fuel with
    | O => out_of_fuel
    | S fuel' =>
        r <- exhibitor_body rs category subcategory v ;;
        match r with
        | None => ret v
        | Some v' => exhibitor_loop fuel' rs category subcategory exhibitor_count v'
        end
    end
  else ret v.

(** Lines 267-269: the index at which the loop of a subcategory starts. *)
Definition start_index (rs : Resume) (category subcategory : Category) : Z :=
  if resume_mode rs && name_is (name category) (resume_category rs)
     && name_is (name subcategory) (resume_subcategory rs)
  then resume_exhibitor_index rs
  else 0.

(** Lines 252-355: the visit of one subcategory; the result is
    [resume_name_found] after it. *)
Definition visit_subcategory (fuel : nat) (rs : Resume) (category subcategory : Category)
    (found : bool) : M W bool :=
  _safe_goto fuel (url subcategory) 2 ;;
  wait_for_timeout 1000 ;;
  counted <- attempt _count_exhibitor_cards ;;
  match counted with
  | None =>
      print ("Subcategory " +:+ name subcategory +:+ " has 0 exhibitors (no cards)") ;;
      save_checkpoint (name category) (name subcategory) 0 ;;
      ret found
  | Some exhibitor_count =>
      print ("Subcategory " +:+ name subcategory +:+ " has "
             +:+ pretty exhibitor_count +:+ " exhibitors") ;;
      let v := mkVars (start_index rs category subcategory) ∅ found in
      v <- exhibitor_loop fuel rs category subcategory exhibitor_count v ;;
      save_checkpoint (name category) (name subcategory) (exhibitor_index v) ;;
      ret (resume_name_found v)
  end.

(** [for subcategory in subcategories: ...] (lines 246-355) *)
Fixpoint subcategory_loop (fuel : nat) (rs : Resume) (category : Category)
    (subcategory_started found : bool) (subcategories : list Category) : M W bool :=
  match subcategories with
  | [] => ret found
  | subcategory :: rest =>
      if resume_mode rs && name_is (name category) (resume_category rs)
         && negb subcategory_started
      then
        let subcategory_started :=
          if name_is (name subcategory) (resume_subcategory rs) then true
          else subcategory_started in
        subcategory_loop fuel rs category subcategory_started found rest
      else
        found <- visit_subcategory fuel rs category subcategory found ;;
        subcategory_loop fuel rs category subcategory_started found rest
  end.

Definition not_view_all (c : Category) : bool :=
  negb (String.eqb (name c) VIEW_ALL_LABEL).

(** Lines 231-355: the visit of one category. *)
Definition visit_category (fuel : nat) (rs : Resume) (category : Category)
    (found : bool) : M W bool :=
  _safe_goto fuel (url category) 2 ;;
  wait_for_timeout 1000 ;;
  present <- attempt (wait_for_selector SUBCATEGORY_LINK_SELECTOR) ;;
  match present with
  | None =>
      print ("Category " +:+ name category +:+ " has 0 subcategories (no table rows)") ;;
      ret found
  | Some _ =>
      subcategories <- _extract_link_text_pairs SUBCATEGORY_LINK_SELECTOR ;;
      let subcategories := List.filter not_view_all subcategories in
      print ("Category " +:+ name category +:+ " has "
             +:+ pretty (length subcategories) +:+ " subcategories") ;;
      let subcategory_started :=
        negb (resume_mode rs) || negb (name_is (name category) (resume_category rs)) in
      subcategory_loop fuel rs category subcategory_started found subcategories
  end.

(** [for category in categories: ...] (lines 224-355) *)
Fixpoint category_loop (fuel : nat) (rs : Resume) (category_started found : bool)
    (categories : list Category) : M W bool :=
  match categories with
  | [] => ret found
  | category :: rest =>
      if negb category_started then
        if name_is (name category) (resume_category rs) then
          found <- visit_category fuel rs category found ;;
          category_loop fuel rs true found rest
        else category_loop fuel rs category_started found rest
      else
        found <- visit_category fuel rs category found ;;
        category_loop fuel rs category_started found rest
  end.

(** Lines 204-218: the body of the loop of the list-subcategories mode. *)
Definition list_subcategories_of (fuel : nat) (category : Category) : M W unit :=
  _safe_goto fuel (url category) 2 ;;
  wait_for_timeout 1000 ;;
  present <- attempt (wait_for_selector SUBCATEGORY_LINK_SELECTOR) ;;
  match present with
  | None => print (name category +:+ ": 0 subcategories")
  | Some _ =>
      subcategories <- _extract_link_text_pairs SUBCATEGORY_LINK_SELECTOR ;;
      let subcategories := List.filter not_view_all subcategories in
      print (name category +:+ ": " +:+ pretty (length subcategories)
             +:+ " subcategories") ;;
      for_each subcategories (fun subcategory _ => print ("- " +:+ name subcategory)) tt
  end.

(** *** [run(list_categories, list_subcategories, fresh)]

    [target] is the module constant [RESUME_AFTER_COMPANY_NAME];
    [page_close] stands for [context.close(); browser.close()]. *)
Definition run (target : string) (fuel : nat)
    (list_categories list_subcategories fresh : bool) : M W unit :=
  init_csv ;;
  checkpoint <- (if fresh then ret empty_checkpoint
                 else loaded <- load_checkpoint ;;
                      ret (default empty_checkpoint loaded)) ;;
  let rs := resume_of target fresh checkpoint in
  let resume_name_found := negb (Py.truthy (resume_after_name rs)) in
  _safe_goto fuel START_URL 2 ;;
  wait_for_timeout 1500 ;;
  wait_for_selector CATEGORY_LINK_SELECTOR ;;
  categories <- _extract_link_text_pairs CATEGORY_LINK_SELECTOR ;;
  let categories := List.filter not_view_all categories in
  print ("Found " +:+ pretty (length categories) +:+ " categories") ;;
  if list_categories then
    for_each categories (fun category _ => print (name category)) tt ;;
    close
  else if list_subcategories then
    for_each categories (fun category _ => list_subcategories_of fuel category) tt ;;
    close
  else
    let category_started := negb (resume_mode rs) in
    category_loop fuel rs category_started resume_name_found categories ;;
    close.

(** The program as it is configured. *)
Definition main (fuel : nat) (list_categories list_subcategories fresh : bool)
    : M W unit :=
  run RESUME_AFTER_COMPANY_NAME fuel list_categories list_subcategories fresh.

End Program.

(** ** The traversal without subcategory skipping

    What "no subcategory is skipped" means for the visit of a category:
    every subcategory of the list is visited, in order. *)

Section Unfiltered.

Context {W : Type} `{Browser W}.

Fixpoint visit_every (fuel : nat) (rs : Resume) (category : Category)
    (found : bool) (subcategories : list Category) : M W bool :=
  match subcategories with
  | [] => ret found
  | subcategory :: rest =>
      bind (visit_subcategory fuel rs category subcategory found)
        (fun found => visit_every fuel rs category found rest)
  end.

End Unfiltered.

(** ** A small browser over a static site

    An instance of [Browser] used to run the program on concrete sites: a
    page is a forest of nodes, each listing the selectors it matches; a
    locator is resolved against the page on display. *)

Module Sim.

Inductive Node : Type :=
| node (selectors : list string) (href text : option string) (inner : string)
    (children : list Node).

Definition node_href (n : Node) : option string :=
  match n with node _ h _ _ _ => h end.
Definition node_text (n : Node) : option string :=
  match n with node _ _ t _ _ => t end.
Definition node_inner (n : Node) : string :=
  match n with node _ _ _ i _ => i end.
Definition node_matches (selector : string) (n : Node) : bool :=
  match n with node ss _ _ _ _ => existsb (String.eqb selector) ss end.

Fixpoint descendants (n : Node) : list Node :=
  match n with
  | node _ _ _ _ children => flat_map (fun k => k :: descendants k) children
  end.

Definition all_nodes (roots : list Node) : list Node :=
  flat_map (fun k => k :: descendants k) roots.

(** [l.nth(i)]; a negative index counts from the end. *)
Definition nth_node (i : Z) (l : list Node) : list Node :=
  let j := if i <? 0 then Z.of_nat (length l) + i else i in
  if j <? 0 then [] else option_list (nth_error l (Z.to_nat j)).

Fixpoint resolve (roots : list Node) (l : Locator) : list Node :=
  match l with
  | Loc selector => List.filter (node_matches selector) (all_nodes roots)
  | Sub parent selector =>
      flat_map (fun e => List.filter (node_matches selector) (descendants e))
        (resolve roots parent)
  | Nth l' i => nth_node i (resolve roots l')
  | First l' => firstn 1 (resolve roots l')
  end.

Record World : Type := mkWorld {
  site : string -> list Node;   (* the page served at each URL *)
  here : string;                (* the URL on display *)
  history : list string;
  slow : nat                    (* how many more navigations time out *)
}.

Definition dom (w : World) : list Node := site w (here w).

Definition navigate (u : string) (w : World) : World :=
  mkWorld (site w) u (here w :: history w) (slow w).

Definition sim_goto (u : string) (w : World) : bool * World :=
  match slow w with
  | O => (true, navigate u w)
  | S k => (false, mkWorld (site w) (here w) (history w) k)
  end.

Definition sim_wait_for_selector (selector : string) (w : World) : bool * World :=
  (match resolve (dom w) (Loc selector) with [] => false | _ => true end, w).

(** A call on a locator waits for an element, and times out when the page
    on display has none. *)
Definition sim_read {A} (f : Node -> A) (l : Locator) (w : World)
    : option A * World :=
  (f <$> head (resolve (dom w) l), w).

Definition sim_click (l : Locator) (w : World) : bool * World :=
  match resolve (dom w) l with
  | e :: _ =>
      (true, match node_href e with Some u => navigate u w | None => w end)
  | [] => (false, w)
  end.

Definition sim_go_back (w : World) : bool * World :=
  (true,
   match history w with
   | u :: rest => mkWorld (site w) u rest (slow w)
   | [] => w
   end).

#[global] Instance browser : Browser World := {|
  page_goto := sim_goto;
  page_wait_for_timeout := fun _ w => w;
  page_wait_for_selector := sim_wait_for_selector;
  loc_count := fun l w => (length (resolve (dom w) l), w);
  loc_get_attribute := fun l _ => sim_read node_href l;
  loc_text_content := sim_read node_text;
  loc_inner_text := sim_read node_inner;
  page_evaluate := fun w => w;
  loc_scroll_into_view_if_needed :=
    fun l w => (match resolve (dom w) l with [] => false | _ => true end, w);
  loc_click := sim_click;
  page_go_back := sim_go_back;
  page_url := here;
  page_close := fun w => w
|}.

(** Links are absolute on the simulated sites. *)
Definition urljoin (base href : string) : string := href.

(** *** Building pages *)

Definition link (selector href text : string) : Node :=
  node [selector] (Some href) (Some text) text [].

(** A listing page: category or subcategory links. *)
Definition listing (entries : list (string * string)) : list Node :=
  map (fun e => link CATEGORY_LINK_SELECTOR (fst e) (snd e)) entries.

(** A card with a link to [href], or without a link. *)
Definition card (href : option string) : Node :=
  node [EXHIBITOR_LINK_SELECTOR] None None ""
    match href with
    | Some h => [node [EXHIBITOR_LINK_IN_CARD] (Some h) None "" []]
    | None => []
    end.

Definition text_node (selector text : string) : Node :=
  node [selector] None (Some text) text [].

(** A detail page. *)
Definition detail (company : string) (address_lines : list string)
    (websites : list string) (contact_text description : string)
    (booths : list string) : list Node :=
  [text_node ".exhibitor-name" company;
   node ["article#js-vue-contactinfo"] None None contact_text
     [node ["address"] None None ""
        (map (text_node "address p") address_lines);
      node [] None None ""
        (map (fun u => link "a[href^='http']" u u) websites)];
   node ["#myssidebar"] None None ""
     (map (text_node "#myssidebar a#newfloorplanlink") booths)]
  ++ (if Py.truthy description then [text_node "#section-description" description]
      else []).

Definition start (s : string -> list Node) (slow : nat) (f : FS) : State World :=
  mkState (mkWorld s START_URL [] slow) f [].

End Sim.

Module Demo.
Import Sim.

Definition acme : list Node :=
  detail "Acme " ["1 Main St"; " "; "Springfield"] ["http://acme.example"]
    "1 Main St Springfield Tel +1 (555) 010-9999" "Crushers" ["N100"; "S2"].
Definition stedman : list Node :=
  detail "STEDMAN Machine Company" ["2 Road"] ["http://s.example"]
    "call 812-926-0038" "Mills" ["C3"].
Definition bolt : list Node :=
  detail "Bolt" ["3 Lane"] ["http://b.example"] "ph 12345678" "" ["C4"].
Definition zed : list Node :=
  detail "Zed" ["9 Way, Unit 4"] ["http://z.example"] "ph 1234 5678" "Zed things" ["Z1"].

Definition site1 (u : string) : list Node :=
  if String.eqb u START_URL then
    listing [("/a", "A"); ("/all", "View All Exhibitors"); ("/b", " B ")]
  else if String.eqb u "/a" then listing [("/a/s1", "S1"); ("/a/s2", "S2")]
  else if String.eqb u "/b" then listing [("/b/t1", "T1")]
  else if String.eqb u "/a/s1" then [card (Some "/x/acme"); card None; card (Some "/x/stedman")]
  else if String.eqb u "/a/s2" then [card (Some "/x/bolt"); card (Some "/x/zed"); card (Some "/x/zed")]
  else if String.eqb u "/b/t1" then [card (Some "/x/zed"); card (Some "/x/acme")]
  else if String.eqb u "/x/acme" then acme
  else if String.eqb u "/x/stedman" then stedman
  else if String.eqb u "/x/bolt" then bolt
  else if String.eqb u "/x/zed" then zed
  else [].


(** A subcategory page with one card, whose detail page shows a name
    but no contact block. *)
Definition ghost (u : string) : list Node :=
  if String.eqb u "/g" then [card (Some "/x/ghost")]
  else if String.eqb u "/x/ghost" then [text_node ".exhibitor-name" "Ghost"]
  else [].

Definition at_C_S : FS :=
  mkFS None (Some (mkCheckpoint (Some "C") (Some "S") (Some 0))).

Definition no_files : FS := mkFS None None.

End Demo.

(** ** The phone pattern in the words of the specification

    A digit run: a string that starts and ends with a digit, holds only
    digits and the separators [- . ( )] and space in between, and is at
    least 8 characters long; it may be preceded by one [+]. *)

Definition digit_run (s : string) : Prop :=
  exists d1 mid d2,
    s = String d1 (mid +:+ String d2 "")
    /\ Py.is_digit d1 = true /\ Py.is_digit d2 = true
    /\ Py.all_chars is_phone_char mid = true
    /\ (6 <= String.length mid)%nat.

Definition phone_like (s : string) : Prop :=
  digit_run s \/ exists b, s = String "+"%char b /\ digit_run b.

(** [m] is the part of [text] that starts at position [pos]. *)
Definition occurs_at (text : string) (pos : nat) (m : string) : Prop :=
  exists pre post, text = pre +:+ m +:+ post /\ String.length pre = pos.

(** ** Reasoning about the program

    [wp c st Q]: running [c] from [st] ends in a result and a state that
    satisfy [Q]. *)

Definition wp {W A} (c : M W A) (st : State W) (Q : result A -> State W -> Prop)
    : Prop :=
  Q (fst (c st)) (snd (c st)).

(** The selector at the root of a locator. *)
Fixpoint root (l : Locator) : string :=
  match l with
  | Loc selector => selector
  | Sub parent _ => root parent
  | Nth l' _ => root l'
  | First l' => root l'
  end.

(** Events that only look at the page or move to a URL, and do not concern
    the exhibitor cards: what the helpers of [run] emit. *)
Definition quiet (e : Event) : Prop :=
  match e with
  | EGoto _ _ | EWaitForTimeout _ | EWaitForSelector _ _ => True
  | ECount l _ | EGetAttribute l _ _ | ETextContent l _ | EInnerText l _
  | ERaised (CGetAttribute l _) | ERaised (CTextContent l)
  | ERaised (CInnerText l) =>
      root l <> EXHIBITOR_LINK_SELECTOR
  | _ => False
  end.

(** The state [st'] comes after [st]: same files, and a trace longer by
    events that all satisfy [P]. *)
Definition extends_to {W} (P : Event -> Prop) (st : State W) (f : FS)
    (t : list Event) : Prop :=
  f = fs st /\ exists d, t = trace st ++ d /\ Forall P d.

Definition extends {W} (P : Event -> Prop) (st st' : State W) : Prop :=
  extends_to P st (fs st') (trace st').

(** ** The exhibitor loop as a step relation

    [iteration v f d o f']: from the loop variables [v] and the files [f],
    one iteration of the [while] loop appends the events [d] to the trace,
    leaves the files as [f'], and either breaks ([o = None]) or goes on
    with the variables [o = Some v'].  There is one rule for each path
    through the loop body. *)

Section Steps.

Variable rs : Resume.
Variables category subcategory : Category.

(** Line 323, with [company_name] the stripped name of line 321. *)
Definition name_matches (d : Details) : bool :=
  String.eqb (Py.lower (Py.strip (d_company_name d))) (resume_after_name rs).

(** The calls of lines 272-305, up to the detail page. *)
Definition enter_card (i : Z) (n c : nat) (h : option string) : list Event :=
  [ECount cards n; EEvaluate; ECount (card_link i) c;
   EGetAttribute (First (card_link i)) "href" h;
   EScroll (First (card_link i)); EClick (First (card_link i));
   EWaitForTimeout 500].

(** The calls of lines 350-353 (and 328-331). *)
Definition leave_card (i : Z) : list Event :=
  [EGoBack; EWaitForTimeout 1000;
   ESaveCheckpoint (name category) (name subcategory) (i + 1)].

Definition saved (i : Z) (f : FS) : FS :=
  _save_checkpoint (name category) (name subcategory) (i + 1) f.

Definition row_of (d : Details) : Row :=
  mkRow (name category) (name subcategory) d.

Definition next (v : LoopVars) (seen : gset string) (found : bool) : LoopVars :=
  mkVars (exhibitor_index v + 1) seen found.

Inductive iteration (v : LoopVars) (f : FS)
    : list Event -> option LoopVars -> FS -> Prop :=
| it_break n :
    Z.of_nat n <= exhibitor_index v ->
    iteration v f [ECount cards n] None f
| it_no_link n :
    exhibitor_index v < Z.of_nat n ->
    iteration v f
      [ECount cards n; EEvaluate; ECount (card_link (exhibitor_index v)) 0]
      (Some (next v (seen_exhibitors v) (resume_name_found v))) f
| it_duplicate n c h :
    exhibitor_index v < Z.of_nat n -> c <> 0%nat ->
    Py.or_empty h ∈ seen_exhibitors v ->
    iteration v f
      [ECount cards n; EEvaluate; ECount (card_link (exhibitor_index v)) c;
       EGetAttribute (First (card_link (exhibitor_index v))) "href" h]
      (Some (next v (seen_exhibitors v) (resume_name_found v))) f
| it_timeout n c h q u :
    exhibitor_index v < Z.of_nat n -> c <> 0%nat ->
    Py.or_empty h ∉ seen_exhibitors v -> Forall quiet q ->
    iteration v f
      (enter_card (exhibitor_index v) n c h ++ q
       ++ [EPrint ("Skipping exhibitor " +:+ u +:+ " due to timeout")]
       ++ leave_card (exhibitor_index v))
      (Some (next v ({[Py.or_empty h]} ∪ seen_exhibitors v) (resume_name_found v)))
      (saved (exhibitor_index v) f)
| it_incomplete n c h q u :
    exhibitor_index v < Z.of_nat n -> c <> 0%nat ->
    Py.or_empty h ∉ seen_exhibitors v -> Forall quiet q ->
    iteration v f
      (enter_card (exhibitor_index v) n c h ++ q
       ++ [EExtracted (name category) (name subcategory) (exhibitor_index v) None;
           EPrint ("Skipping exhibitor " +:+ u +:+ " due to missing fields")]
       ++ leave_card (exhibitor_index v))
      (Some (next v ({[Py.or_empty h]} ∪ seen_exhibitors v) (resume_name_found v)))
      (saved (exhibitor_index v) f)
| it_discard n c h q d :
    exhibitor_index v < Z.of_nat n -> c <> 0%nat ->
    Py.or_empty h ∉ seen_exhibitors v -> Forall quiet q ->
    resume_name_found v = false ->
    iteration v f
      (enter_card (exhibitor_index v) n c h ++ q
       ++ [EExtracted (name category) (name subcategory) (exhibitor_index v) (Some d)]
       ++ (if name_matches d
           then [EPrint ("Found resume company " +:+ Py.strip (d_company_name d)
                         +:+ ", continuing")]
           else [])
       ++ leave_card (exhibitor_index v))
      (Some (next v ({[Py.or_empty h]} ∪ seen_exhibitors v) (name_matches d)))
      (saved (exhibitor_index v) f)
| it_write n c h q d :
    exhibitor_index v < Z.of_nat n -> c <> 0%nat ->
    Py.or_empty h ∉ seen_exhibitors v -> Forall quiet q ->
    resume_name_found v = true ->
    iteration v f
      (enter_card (exhibitor_index v) n c h ++ q
       ++ [EExtracted (name category) (name subcategory) (exhibitor_index v) (Some d);
           EAppendRow (row_of d);
           EPrint (Py.join " " ["Exhibitor"; d_company_name d; "|"; d_booth d; "|";
                                d_phone d])]
       ++ leave_card (exhibitor_index v))
      (Some (next v ({[Py.or_empty h]} ∪ seen_exhibitors v) true))
      (saved (exhibitor_index v) (_append_row (row_of d) f)).

(** [aborted v f d f']: an iteration that ends with the time-out of a call
    outside the [try] of lines 308-313: the read of the link target (line
    297), the scroll or the click (lines 303-304), or the way back (lines
    328 and 350), after each of the outcomes of the extraction. *)
Inductive aborted (v : LoopVars) (f : FS) : list Event -> FS -> Prop :=
| ab_target n c :
    exhibitor_index v < Z.of_nat n -> c <> 0%nat ->
    aborted v f
      [ECount cards n; EEvaluate; ECount (card_link (exhibitor_index v)) c;
       ERaised (CGetAttribute (First (card_link (exhibitor_index v))) "href")]
      f
| ab_scroll n c h :
    exhibitor_index v < Z.of_nat n -> c <> 0%nat ->
    Py.or_empty h ∉ seen_exhibitors v ->
    aborted v f
      [ECount cards n; EEvaluate; ECount (card_link (exhibitor_index v)) c;
       EGetAttribute (First (card_link (exhibitor_index v))) "href" h;
       ERaised (CScroll (First (card_link (exhibitor_index v))))]
      f
| ab_click n c h :
    exhibitor_index v < Z.of_nat n -> c <> 0%nat ->
    Py.or_empty h ∉ seen_exhibitors v ->
    aborted v f
      [ECount cards n; EEvaluate; ECount (card_link (exhibitor_index v)) c;
       EGetAttribute (First (card_link (exhibitor_index v))) "href" h;
       EScroll (First (card_link (exhibitor_index v)));
       ERaised (CClick (First (card_link (exhibitor_index v))))]
      f
| ab_timeout n c h q u :
    exhibitor_index v < Z.of_nat n -> c <> 0%nat ->
    Py.or_empty h ∉ seen_exhibitors v -> Forall quiet q ->
    aborted v f
      (enter_card (exhibitor_index v) n c h ++ q
       ++ [EPrint ("Skipping exhibitor " +:+ u +:+ " due to timeout")]
       ++ [ERaised CGoBack])
      f
| ab_incomplete n c h q u :
    exhibitor_index v < Z.of_nat n -> c <> 0%nat ->
    Py.or_empty h ∉ seen_exhibitors v -> Forall quiet q ->
    aborted v f
      (enter_card (exhibitor_index v) n c h ++ q
       ++ [EExtracted (name category) (name subcategory) (exhibitor_index v) None;
           EPrint ("Skipping exhibitor " +:+ u +:+ " due to missing fields")]
       ++ [ERaised CGoBack])
      f
| ab_discard n c h q d :
    exhibitor_index v < Z.of_nat n -> c <> 0%nat ->
    Py.or_empty h ∉ seen_exhibitors v -> Forall quiet q ->
    resume_name_found v = false ->
    aborted v f
      (enter_card (exhibitor_index v) n c h ++ q
       ++ [EExtracted (name category) (name subcategory) (exhibitor_index v) (Some d)]
       ++ (if name_matches d
           then [EPrint ("Found resume company " +:+ Py.strip (d_company_name d)
                         +:+ ", continuing")]
           else [])
       ++ [ERaised CGoBack])
      f
| ab_write n c h q d :
    exhibitor_index v < Z.of_nat n -> c <> 0%nat ->
    Py.or_empty h ∉ seen_exhibitors v -> Forall quiet q ->
    resume_name_found v = true ->
    aborted v f
      (enter_card (exhibitor_index v) n c h ++ q
       ++ [EExtracted (name category) (name subcategory) (exhibitor_index v) (Some d);
           EAppendRow (row_of d);
           EPrint (Py.join " " ["Exhibitor"; d_company_name d; "|"; d_booth d; "|";
                                d_phone d])]
       ++ [ERaised CGoBack])
      (_append_row (row_of d) f).

(** The calls of the loop body at the card at index [i] that are outside
    every [try]. *)
Definition loop_call (i : Z) (call : Call) : Prop :=
  call = CGetAttribute (First (card_link i)) "href"
  \/ call = CScroll (First (card_link i))
  \/ call = CClick (First (card_link i))
  \/ call = CGoBack.

(** One run of the loop body: an iteration when it returns, an aborted
    iteration when it raises. *)
Definition body_run (v : LoopVars) (f : FS) (d : list Event)
    (r : result (option LoopVars)) (f' : FS) : Prop :=
  match r with
  | Ok o => iteration v f d o f'
  | TimeoutError => aborted v f d f'
  | OutOfFuel => False
  end.

(** [iterations n v f d r f']: the whole loop, with the bound [n] read
    before it; [r] is [TimeoutError] when an iteration is aborted, and
    [OutOfFuel] when the model stops early. *)
Inductive iterations (exhibitor_count : nat) (v : LoopVars) (f : FS)
    : list Event -> result LoopVars -> FS -> Prop :=
| its_exit :
    Z.of_nat exhibitor_count <= exhibitor_index v ->
    iterations exhibitor_count v f [] (Ok v) f
| its_fuel :
    exhibitor_index v < Z.of_nat exhibitor_count ->
    iterations exhibitor_count v f [] OutOfFuel f
| its_break d f' :
    exhibitor_index v < Z.of_nat exhibitor_count ->
    iteration v f d None f' ->
    iterations exhibitor_count v f d (Ok v) f'
| its_next d v' f' d' r f'' :
    exhibitor_index v < Z.of_nat exhibitor_count ->
    iteration v f d (Some v') f' ->
    iterations exhibitor_count v' f' d' r f'' ->
    iterations exhibitor_count v f (d ++ d') r f''
| its_abort d f' :
    exhibitor_index v < Z.of_nat exhibitor_count ->
    aborted v f d f' ->
    iterations exhibitor_count v f d TimeoutError f'.

(** [visit found f d r f']: the visit of the subcategory (lines 252-355),
    entered with [resume_name_found = found]: the navigation [q], then
    either no card shows up, or the loop runs from [start_index] with an
    empty set of seen link targets, and the checkpoint is saved unless an
    iteration was aborted. *)
Definition loop_start (found : bool) : LoopVars :=
  mkVars (start_index rs category subcategory) ∅ found.

Inductive visit (found : bool) (f : FS)
    : list Event -> result bool -> FS -> Prop :=
| visit_unreached q (r : result bool) :
    Forall quiet q -> (forall b, r <> Ok b) ->
    visit found f q r f
| visit_no_cards q :
    Forall quiet q ->
    visit found f
      (q ++ [EWaitForSelector EXHIBITOR_LINK_SELECTOR false;
             EPrint ("Subcategory " +:+ name subcategory
                     +:+ " has 0 exhibitors (no cards)");
             ESaveCheckpoint (name category) (name subcategory) 0])
      (Ok found)
      (_save_checkpoint (name category) (name subcategory) 0 f)
| visit_out_of_fuel q n d f' :
    Forall quiet q ->
    iterations n (loop_start found) f d OutOfFuel f' ->
    visit found f
      (q ++ [EWaitForSelector EXHIBITOR_LINK_SELECTOR true; ECount cards n;
             EPrint ("Subcategory " +:+ name subcategory +:+ " has "
                     +:+ pretty n +:+ " exhibitors")]
         ++ d)
      OutOfFuel f'
| visit_cards q n d v f' :
    Forall quiet q ->
    iterations n (loop_start found) f d (Ok v) f' ->
    visit found f
      (q ++ [EWaitForSelector EXHIBITOR_LINK_SELECTOR true; ECount cards n;
             EPrint ("Subcategory " +:+ name subcategory +:+ " has "
                     +:+ pretty n +:+ " exhibitors")]
         ++ d
         ++ [ESaveCheckpoint (name category) (name subcategory) (exhibitor_index v)])
      (Ok (resume_name_found v))
      (_save_checkpoint (name category) (name subcategory) (exhibitor_index v) f')
| visit_aborted q n d f' :
    Forall quiet q ->
    iterations n (loop_start found) f d TimeoutError f' ->
    visit found f
      (q ++ [EWaitForSelector EXHIBITOR_LINK_SELECTOR true; ECount cards n;
             EPrint ("Subcategory " +:+ name subcategory +:+ " has "
                     +:+ pretty n +:+ " exhibitors")]
         ++ d)
      TimeoutError f'.

End Steps.

(** ** What a trace tells *)

Definition is_card_link (s s' : string) : bool :=
  String.eqb s EXHIBITOR_LINK_SELECTOR && String.eqb s' EXHIBITOR_LINK_IN_CARD.

(** The loop body was entered: [cards.count()] of line 273. *)
Definition entry (e : Event) : bool :=
  match e with
  | ECount (Loc s) _ => String.eqb s EXHIBITOR_LINK_SELECTOR
  | _ => false
  end.

Definition entries (d : list Event) : nat := length (List.filter entry d).

(** The card at index [i] was looked at: [link.count()] of line 293. *)
Definition lookup_of (e : Event) : option Z :=
  match e with
  | ECount (Sub (Nth (Loc s) i) s') _ => if is_card_link s s' then Some i else None
  | _ => None
  end.

Definition lookups (d : list Event) : list Z := omap lookup_of d.

(** The link target of the card at index [i] was read (line 297). *)
Definition target_of (e : Event) : option (Z * string) :=
  match e with
  | EGetAttribute (First (Sub (Nth (Loc s) i) s')) attr h =>
      if is_card_link s s' && String.eqb attr "href" then Some (i, Py.or_empty h)
      else None
  | _ => None
  end.

Definition targets (d : list Event) : list (Z * string) := omap target_of d.

(** The card at index [i] was gone into: [link.first.click()] of line 304. *)
Definition click_of (e : Event) : option Z :=
  match e with
  | EClick (First (Sub (Nth (Loc s) i) s')) => if is_card_link s s' then Some i else None
  | _ => None
  end.

Definition clicked (d : list Event) : list Z := omap click_of d.

(** The trace ends with the time-out of the scroll or of the click at the
    card at index [i] (lines 303-304): the card was not gone into. *)
Definition stopped_before_click (i : Z) (d : list Event) : Prop :=
  exists t,
    d = t ++ [ERaised (CScroll (First (Sub (Nth (Loc EXHIBITOR_LINK_SELECTOR) i)
                                          EXHIBITOR_LINK_IN_CARD)))]
    \/ d = t ++ [ERaised (CClick (First (Sub (Nth (Loc EXHIBITOR_LINK_SELECTOR) i)
                                            EXHIBITOR_LINK_IN_CARD)))].

(** A record was extracted (line 309 returned a dictionary); it is given
    as the row it would make. *)
Definition extraction_of (e : Event) : option Row :=
  match e with
  | EExtracted c s _ (Some det) => Some (mkRow c s det)
  | _ => None
  end.

Definition extracted (d : list Event) : list Row := omap extraction_of d.

(** A row was written to the sink. *)
Definition append_of (e : Event) : option Row :=
  match e with
  | EAppendRow r => Some r
  | _ => None
  end.

Definition appended (d : list Event) : list Row := omap append_of d.

(** The bytes of the output file after the rows [rows] are appended. *)
Definition csv_after (bytes : option string) (rows : list Row) : option string :=
  fold_left (fun b r => Some (default "" b +:+ csv_line (row_values r))) rows bytes.

(** [start, start + 1, ..., start + k - 1] *)
Definition zseq (start : Z) (k : nat) : list Z :=
  map (fun j => start + Z.of_nat j) (seq 0 k).

(** The URLs that the page was taken to with [page.goto]. *)
Definition goto_of (e : Event) : option string :=
  match e with
  | EGoto u true => Some u
  | _ => None
  end.

Definition gotos (d : list Event) : list string := omap goto_of d.

(** The lines printed. *)
Definition print_of (e : Event) : option string :=
  match e with
  | EPrint line => Some line
  | _ => None
  end.

Definition printed (d : list Event) : list string := omap print_of d.

(** *** The statements of the specification, as functions on lists *)

(** Dedupe by link target: of the cards read, in order, those whose target
    was not met before in the visit. *)
Fixpoint first_occurrences (seen : gset string) (l : list (Z * string))
    : list (Z * string) :=
  match l with
  | [] => []
  | (i, h) :: rest =>
      if bool_decide (h ∈ seen) then first_occurrences seen rest
      else (i, h) :: first_occurrences ({[h]} ∪ seen) rest
  end.

(** The set of seen link targets after an iteration. *)
Definition seen_after (v : LoopVars) (o : option LoopVars) : gset string :=
  match o with
  | Some v' => seen_exhibitors v'
  | None => seen_exhibitors v
  end.

(** The name-skip gate.  [target] is the target name as the program
    compares it (trimmed, lower case), and a record matches when its name,
    trimmed and in lower case, is equal to it. *)
Definition row_matches (target : string) (r : Row) : bool :=
  String.eqb (Py.lower (Py.strip (d_company_name (row_details r)))) target.

(** The rows written, of the records extracted in order: none while the
    gate is active ([found = false]); the gate opens at the first record
    that matches, and every record after that one is written. *)
Fixpoint written (target : string) (found : bool) (records : list Row) : list Row :=
  match records with
  | [] => []
  | r :: rest =>
      if found then r :: written target true rest
      else written target (row_matches target r) rest
  end.

(** *** The gate along a trace

    [gate_step target found d found' f f']: over the events [d], starting
    with the gate in state [found] and the files [f], the rows appended are
    those that the gate lets through, the gate ends in state [found'], and
    the output file of [f'] is that of [f] with these rows appended. *)
Definition gate_step (target : string) (found : bool) (d : list Event)
    (found' : bool) (f f' : FS) : Prop :=
  (forall rest,
      written target found (extracted d ++ rest)
      = appended d ++ written target found' rest)
  /\ csv_file f' = csv_after (csv_file f) (appended d).

Definition gate_to {W} (target : string) (st0 : State W) (found0 : bool)
    (f : FS) (t : list Event) (found : bool) : Prop :=
  exists d, t = trace st0 ++ d /\ gate_step target found0 d found (fs st0) f.

Definition gate_ok {W} (target : string) (st0 : State W) (found0 : bool)
    (st : State W) (found : bool) : Prop :=
  gate_to target st0 found0 (fs st) (trace st) found.

(** An event that neither extracts a record nor appends a row. *)
Definition gate_silent (e : Event) : Prop :=
  extraction_of e = None /\ append_of e = None.

(** What holds after a part of the crawl that was entered in the state
    [st0] with the gate in state [found0], and that returns the state of
    the gate when it returns normally. *)
Definition gate_post {W} (target : string) (st0 : State W) (found0 : bool)
    (r : result bool) (st : State W) : Prop :=
  exists found', gate_ok target st0 found0 st found' /\ forall b, r = Ok b -> b = found'.

(** The state of the gate after an iteration. *)
Definition found_after (v : LoopVars) (o : option LoopVars) : bool :=
  match o with
  | Some v' => resume_name_found v'
  | None => resume_name_found v
  end.

(** ** The functions of the module that [run] does not call *)

(** [_dedupe(values)]: the loop carries the set [seen] and the list
    [ordered]. *)
Definition _dedupe_step (state : gset string * list string) (value : string)
    : gset string * list string :=
  let '(seen, ordered) := state in
  if Py.truthy value && negb (bool_decide (value ∈ seen))
  then ({[value]} ∪ seen, ordered ++ [value])
  else (seen, ordered).

Definition _dedupe (values : list string) : list string :=
  snd (fold_left _dedupe_step values (∅, [])).

Section Links.

Context {W : Type} `{Browser W}.

(** [urllib.parse.urljoin] *)
Variable urljoin : string -> string -> string.

Local Open Scope prog_scope.

(** [_extract_links(page, selector)] *)
Definition _extract_links (selector : string) : M W (list string) :=
  let elements := Loc selector in
  n <- count elements ;;
  hrefs <- for_each (range n)
             (fun i acc =>
                h <- get_attribute (Nth elements i) "href" ;;
                ret (acc ++ [urljoin BASE_URL (Py.or_empty h)]))
             [] ;;
  ret (_dedupe hrefs).

End Links.

(** ** What a helper reads from the page *)

(** The reads of the [href] attribute of the elements 0, 1, ... of a
    locator, with the values that the page returned. *)
Definition href_reads (l : Locator) (hrefs : list (option string)) : list Event :=
  imap (fun i h => EGetAttribute (Nth l (Z.of_nat i)) "href" h) hrefs.

(** The reads of [href] and of the text of the elements 0, 1, ... *)
Definition link_reads (l : Locator) (answers : list (option string * option string))
    : list Event :=
  concat (imap (fun i a => [EGetAttribute (Nth l (Z.of_nat i)) "href" a.1;
                            ETextContent (Nth l (Z.of_nat i)) a.2])
               answers).

(** The pair made of one element's [href] and text: none without [href]
    or with an empty one. *)
Definition pair_of (urljoin : string -> string -> string)
    (a : option string * option string) : option Category :=
  match a.1 with
  | Some (String c h) =>
      Some (mkCategory (Py.strip (Py.or_empty a.2)) (urljoin BASE_URL (String c h)))
  | _ => None
  end.

(** The events of the list-categories mode from the read of the category
    links on: the reads with the answers of the page, the count line, one
    line for each category made of these answers, and the end. *)
Definition listing_of (urljoin : string -> string -> string)
    (answers : list (option string * option string)) : list Event :=
  let categories := List.filter not_view_all (omap (pair_of urljoin) answers) in
  ECount (Loc CATEGORY_LINK_SELECTOR) (length answers)
  :: link_reads (Loc CATEGORY_LINK_SELECTOR) answers
  ++ EPrint ("Found " +:+ pretty (length categories) +:+ " categories")
  :: map (fun c => EPrint (name c)) categories
  ++ [EClose].

(** What [_extract_link_text_pairs] has on the trace when the read of the
    element at index [i] raises: the time-out of the [href], or the [href]
    and the time-out of the text. *)
Definition link_raise (l : Locator) (i : nat) (d : list Event) : Prop :=
  d = [ERaised (CGetAttribute (Nth l (Z.of_nat i)) "href")]
  \/ exists h, d = [EGetAttribute (Nth l (Z.of_nat i)) "href" h;
                    ERaised (CTextContent (Nth l (Z.of_nat i)))].

(** The reads of the text of the elements 0, 1, ... of a locator. *)
Definition text_reads (l : Locator) (texts : list (option string)) : list Event :=
  imap (fun i t => ETextContent (Nth l (Z.of_nat i)) t) texts.

(** [(x or "").strip()] *)
Definition trimmed (x : option string) : string := Py.strip (Py.or_empty x).

(** What a detail page answers to the calls of
    [_extract_exhibitor_details] when none of them times out: the text of
    the name, the texts of the address lines, the number of website links
    and the [href] of the first one (read when there is one), the inner
    text of the contact block, the number of description blocks and the
    text of the first one (read when there is one), the texts of the booth
    links. *)
Record DetailAnswers : Type := mkAnswers {
  an_name : option string;
  an_address : list (option string);
  an_websites : nat;
  an_website : option string;
  an_contact : string;
  an_descriptions : nat;
  an_description : option string;
  an_booths : list (option string)
}.

(** The calls of [_extract_exhibitor_details] with these answers, in the
    order of lines 92-120. *)
Definition detail_reads (a : DetailAnswers) : list Event :=
  let contact := Loc "article#js-vue-contactinfo" in
  [EWaitForSelector ".exhibitor-name" true;
   ETextContent (First (Loc ".exhibitor-name")) (an_name a);
   ECount (Sub contact "address p") (length (an_address a))]
  ++ text_reads (Sub contact "address p") (an_address a)
  ++ [ECount (Sub contact "a[href^='http']") (an_websites a)]
  ++ (if (0 <? an_websites a)%nat
      then [EGetAttribute (First (Sub contact "a[href^='http']")) "href"
              (an_website a)]
      else [])
  ++ [EInnerText contact (an_contact a);
      ECount (Loc "#section-description") (an_descriptions a)]
  ++ (if (0 <? an_descriptions a)%nat
      then [ETextContent (First (Loc "#section-description")) (an_description a)]
      else [])
  ++ [ECount (Loc "#myssidebar a#newfloorplanlink") (length (an_booths a))]
  ++ text_reads (Loc "#myssidebar a#newfloorplanlink") (an_booths a).

(** The six fields that lines 93-121 make of these answers. *)
Definition field_company_name (a : DetailAnswers) : string := trimmed (an_name a).
Definition field_address (a : DetailAnswers) : string :=
  Py.join ", " (List.filter Py.truthy (map trimmed (an_address a))).
Definition field_website (a : DetailAnswers) : string :=
  if (0 <? an_websites a)%nat then trimmed (an_website a) else "".
Definition field_phone (a : DetailAnswers) : string := phone_of (an_contact a).
Definition field_description (a : DetailAnswers) : string :=
  if (0 <? an_descriptions a)%nat then trimmed (an_description a) else "".
Definition field_booth (a : DetailAnswers) : string :=
  Py.join "; " (List.filter Py.truthy (map trimmed (an_booths a))).



(** ** The traversal when a run resumes *)

(** The part of a list that starts at the first item with [p]. *)
Fixpoint from_first {A} (p : A -> bool) (l : list A) : list A :=
  match l with
  | [] => []
  | x :: rest => if p x then x :: rest else from_first p rest
  end.

(** The part of a list that comes after the first item with [p]. *)
Fixpoint after_first {A} (p : A -> bool) (l : list A) : list A :=
  match l with
  | [] => []
  | x :: rest => if p x then rest else after_first p rest
  end.

Section EveryCategory.

Context {W : Type} `{Browser W}.
Variable urljoin : string -> string -> string.

(** Every category of the list is visited, in order. *)
Fixpoint visit_every_category (fuel : nat) (rs : Resume) (found : bool)
    (categories : list Category) : M W bool :=
  match categories with
  | [] => ret found
  | category :: rest =>
      bind (visit_category urljoin fuel rs category found)
        (fun found => visit_every_category fuel rs found rest)
  end.

End EveryCategory.

(** ** What a crawl puts on the trace *)

(** A record as [_extract_exhibitor_details] returns it. *)
Definition valid_details (d : Details) : Prop :=
  d_company_name d <> "" /\ d_address d <> "" /\ d_website d <> ""
  /\ phone_like (d_phone d) /\ d_description d <> "" /\ d_booth d <> "".

(** The events between the start of [run] and its end: the browser is not
    closed, the files are not opened anew, and every record extracted or
    written is valid. *)
Definition crawl_event (e : Event) : Prop :=
  match e with
  | EClose | EInitCsv | ELoadCheckpoint => False
  | EExtracted _ _ _ (Some d) => valid_details d
  | EAppendRow r => valid_details (row_details r)
  | _ => True
  end.

(** The events of the list-subcategories mode: moving to a page, looking
    at it (but not at exhibitor cards), printing. *)
Definition listing_event (e : Event) : Prop :=
  match e with
  | EPrint _ => True
  | _ => quiet e
  end.

(** The trace is longer by events that all satisfy [P]. *)
Definition emitted_to {W} (P : Event -> Prop) (st : State W) (t : list Event)
    : Prop :=
  exists d, t = trace st ++ d /\ Forall P d.

Definition emitted {W} (P : Event -> Prop) (st st' : State W) : Prop :=
  emitted_to P st (trace st').

(** [_safe_goto] with [retries = 2] has given up: the trace ends with the
    three failed attempts on one URL. *)
Definition gave_up {W} (st : State W) : Prop :=
  exists t u, trace st = t ++ repeat (EGoto u false) 3.

(** The table of categories did not show on the start page (line 192). *)
Definition no_categories {W} (st : State W) : Prop :=
  exists t, trace st = t ++ [EWaitForTimeout 1500;
                             EWaitForSelector CATEGORY_LINK_SELECTOR false].

(** The calls of [run] outside every [try] that may time out: the reads
    of the category and subcategory links (lines 194, 216 and 239), the
    read of the link target of a card (line 297), the scroll, the click
    and the way back (lines 303-304, 328 and 350).  The calls of
    [_extract_exhibitor_details] are not among them (lines 308-313). *)
Definition uncaught (c : Call) : Prop :=
  match c with
  | CGetAttribute l _ =>
      root l = CATEGORY_LINK_SELECTOR \/ root l = SUBCATEGORY_LINK_SELECTOR
      \/ root l = EXHIBITOR_LINK_SELECTOR
  | CTextContent l =>
      root l = CATEGORY_LINK_SELECTOR \/ root l = SUBCATEGORY_LINK_SELECTOR
  | CScroll _ | CClick _ | CGoBack => True
  | CInnerText _ => False
  end.

(** The last thing on the trace is the time-out of such a call. *)
Definition call_timed_out {W} (st : State W) : Prop :=
  exists t c, trace st = t ++ [ERaised c] /\ uncaught c.

(** The state in which [run] starts to crawl: the output file is there and
    the checkpoint was read, unless the fresh flag is set. *)
Definition opened {W} (fresh : bool) (st : State W) : State W :=
  mkState (page st) (_init_csv (fs st))
    (if fresh then trace st ++ [EInitCsv]
     else (trace st ++ [EInitCsv]) ++ [ELoadCheckpoint]).

(** [run] returned normally. *)
Definition returned {A} (r : result A) : bool :=
  match r with
  | Ok _ => true
  | _ => false
  end.

(** ** Runs that differ in the checkpoint file only *)

(** Two states with the same page, the same trace and the same output
    file. *)
Definition same_but_checkpoint {W} (st1 st2 : State W) : Prop :=
  page st1 = page st2 /\ trace st1 = trace st2
  /\ csv_file (fs st1) = csv_file (fs st2).

(** A computation that does not look at the checkpoint file. *)
Definition oblivious {W A} (c : M W A) : Prop :=
  forall st1 st2, same_but_checkpoint st1 st2 ->
    fst (c st1) = fst (c st2) /\ same_but_checkpoint (snd (c st1)) (snd (c st2)).

(** ** Termination *)

(** A computation without [while] loop: it needs no fuel. *)
Definition steady {W A} (c : M W A) : Prop :=
  forall st, fst (c st) <> OutOfFuel.

(** A computation with [while] loops ends: from every state some amount
    of fuel is enough, and more fuel changes nothing. *)
Definition total {W A} (c : nat -> M W A) : Prop :=
  forall st, exists fuel0,
    fst (c fuel0 st) <> OutOfFuel
    /\ forall fuel, (fuel0 <= fuel)%nat -> c fuel st = c fuel0 st.

(* ================================================================== *)
(** * Properties *)
(* ================================================================== *)

(** ** Strings *)

Lemma append_nil_l (s : string) : "" +:+ s = s.
Proof. reflexivity. Qed.

Lemma append_cons (c : ascii) (a b : string) :
  String c a +:+ b = String c (a +:+ b).
Proof. reflexivity. Qed.

Lemma append_nil_r (s : string) : s +:+ "" = s.
Proof.
  induction s as [|c s IH]; [reflexivity|]. now rewrite append_cons, IH.
Qed.

Lemma append_assoc (a b c : string) : (a +:+ b) +:+ c = a +:+ (b +:+ c).
Proof.
  induction a as [|x a IH]; [reflexivity|]. now rewrite !append_cons, IH.
Qed.

Lemma length_append (a b : string) :
  String.length (a +:+ b) = (String.length a + String.length b)%nat.
Proof.
  induction a as [|x a IH]; [reflexivity|].
  rewrite append_cons. simpl. now rewrite IH.
Qed.

Lemma all_chars_append p a b :
  Py.all_chars p (a +:+ b) = Py.all_chars p a && Py.all_chars p b.
Proof.
  induction a as [|x a IH]; [reflexivity|].
  rewrite append_cons. simpl. rewrite IH. now rewrite andb_assoc.
Qed.

Lemma take_append (a b : string) : Py.take (String.length a) (a +:+ b) = a.
Proof.
  induction a as [|x a IH]; [now destruct b|].
  rewrite append_cons. simpl. now rewrite IH.
Qed.

Lemma digit_not_space c : Py.is_digit c = true -> Py.is_space c = false.
Proof.
  unfold Py.is_digit, Py.is_space. intros Hd.
  apply andb_true_iff in Hd as [H1 H2].
  apply N.leb_le in H1. apply N.leb_le in H2.
  destruct (Py.code c <=? 13)%N eqn:E1; [apply N.leb_le in E1; lia|].
  destruct (Py.code c <=? 32)%N eqn:E2; [apply N.leb_le in E2; lia|].
  destruct (Py.code c =? 133)%N eqn:E3; [apply N.eqb_eq in E3; lia|].
  destruct (Py.code c =? 160)%N eqn:E4; [apply N.eqb_eq in E4; lia|].
  now rewrite !andb_false_r.
Qed.

Lemma digit_is_phone_char c : Py.is_digit c = true -> is_phone_char c = true.
Proof. unfold is_phone_char. now intros ->. Qed.

Lemma plus_not_digit c : is_plus c = true -> Py.is_digit c = false.
Proof. unfold is_plus. intros Hc. apply Ascii.eqb_eq in Hc. now subst c. Qed.

Lemma rstrip_snoc (a : string) (d : ascii) :
  Py.is_space d = false ->
  Py.rstrip (a +:+ String d "") = a +:+ String d "".
Proof.
  intros Hd. induction a as [|c a IH].
  - simpl. now rewrite Hd.
  - rewrite append_cons. simpl. rewrite IH. now destruct a.
Qed.

Lemma strip_phone_like (s : string) : phone_like s -> Py.strip s = s.
Proof.
  assert (Hrun : forall b, digit_run b -> Py.lstrip b = b /\ Py.rstrip b = b).
  { intros b (d1 & mid & d2 & -> & H1 & H2 & _ & _). split.
    - simpl. now rewrite (digit_not_space _ H1).
    - rewrite <- append_cons. apply rstrip_snoc. now apply digit_not_space. }
  unfold Py.strip. intros [Hb | (b & -> & Hb)].
  - destruct (Hrun _ Hb) as [-> ->]. reflexivity.
  - destruct (Hrun _ Hb) as [_ Hr].
    change (Py.lstrip (String "+" b)) with (String "+"%char b).
    destruct Hb as (d1 & mid & d2 & -> & H1 & H2 & _ & _).
    rewrite <- !append_cons.
    apply rstrip_snoc. now apply digit_not_space.
Qed.

(** ** The phone pattern *)

Section PhonePattern.

Lemma last_digit_eq s :
  last_digit s =
  match s with
  | String c _ => if Py.is_digit c then Some 1%nat else None
  | EmptyString => None
  end.
Proof. destruct s as [|c s]; [reflexivity|]. unfold last_digit. simpl. now destruct (Py.is_digit c). Qed.

Lemma rep_sound n s r :
  Re.rep is_phone_char n s last_digit = Some r ->
  exists mid d rest,
    s = mid +:+ String d rest /\ Py.all_chars is_phone_char mid = true
    /\ (n <= String.length mid)%nat /\ Py.is_digit d = true
    /\ r = S (String.length mid).
Proof.
  revert n r. induction s as [|c s IH]; intros n r.
  - simpl. rewrite last_digit_eq. destruct (n =? 0)%nat; discriminate.
  - simpl. rewrite last_digit_eq.
    assert (Hstop : (if (n =? 0)%nat
                     then (if Py.is_digit c then Some 1%nat else None)
                     else None) = Some r ->
                    exists mid d rest,
                      String c s = mid +:+ String d rest
                      /\ Py.all_chars is_phone_char mid = true
                      /\ (n <= String.length mid)%nat /\ Py.is_digit d = true
                      /\ r = S (String.length mid)).
    { destruct (n =? 0)%nat eqn:En; [|discriminate].
      destruct (Py.is_digit c) eqn:Ed; [|discriminate].
      intros [= <-]. apply Nat.eqb_eq in En. subst n.
      exists "", c, s. repeat split; auto. }
    destruct (is_phone_char c) eqn:Ec; [|exact Hstop].
    destruct (Re.rep is_phone_char (Nat.pred n) s last_digit) as [k|] eqn:Er;
      [|exact Hstop].
    intros [= <-].
    destruct (IH _ _ Er) as (mid & d & rest & -> & Hall & Hn & Hd & ->).
    exists (String c mid), d, rest. rewrite append_cons. simpl.
    rewrite Ec, Hall. repeat split; auto. lia.
Qed.

Lemma rep_none n s :
  Re.rep is_phone_char n s last_digit = None ->
  forall mid d rest,
    s = mid +:+ String d rest -> Py.all_chars is_phone_char mid = true ->
    (n <= String.length mid)%nat -> Py.is_digit d = true -> False.
Proof.
  revert n. induction s as [|c s IH]; intros n Hr mid d rest Hs Hall Hn Hd.
  - destruct mid; discriminate.
  - simpl in Hr. rewrite last_digit_eq in Hr.
    destruct mid as [|x mid].
    + rewrite append_nil_l in Hs. injection Hs as -> ->.
      simpl in Hn. assert (n = 0%nat) as -> by lia. simpl in Hr.
      rewrite Hd, (digit_is_phone_char _ Hd) in Hr.
      destruct (Re.rep is_phone_char 0 rest last_digit); discriminate.
    + rewrite append_cons in Hs. injection Hs as -> ->.
      simpl in Hall. apply andb_true_iff in Hall as [Hx Hall].
      rewrite Hx in Hr.
      destruct (Re.rep is_phone_char (Nat.pred n) (mid +:+ String d rest) last_digit)
        eqn:Er; [discriminate|].
      eapply (IH _ Er mid d rest); auto. simpl in Hn. lia.
Qed.

Lemma rep_max n s r :
  Re.rep is_phone_char n s last_digit = Some r ->
  forall mid d rest,
    s = mid +:+ String d rest -> Py.all_chars is_phone_char mid = true ->
    Py.is_digit d = true -> (S (String.length mid) <= r)%nat.
Proof.
  revert n r. induction s as [|c s IH]; intros n r Hr mid d rest Hs Hall Hd.
  - destruct mid; discriminate.
  - simpl in Hr. rewrite last_digit_eq in Hr.
    destruct mid as [|x mid].
    + simpl.
      destruct (is_phone_char c);
        [destruct (Re.rep is_phone_char (Nat.pred n) s last_digit)|];
        try (injection Hr as <-; lia);
        destruct (n =? 0)%nat; try discriminate;
        destruct (Py.is_digit c); try discriminate;
        injection Hr as <-; lia.
    + rewrite append_cons in Hs. injection Hs as -> ->.
      simpl in Hall. apply andb_true_iff in Hall as [Hx Hall].
      rewrite Hx in Hr.
      destruct (Re.rep is_phone_char (Nat.pred n) (mid +:+ String d rest) last_digit)
        as [k|] eqn:Er.
      * injection Hr as <-. simpl.
        pose proof (IH _ _ Er mid d rest eq_refl Hall Hd). lia.
      * destruct (n =? 0)%nat eqn:En; [|discriminate].
        apply Nat.eqb_eq in En. subst n.
        exfalso. eapply (rep_none _ _ Er mid d rest); auto. simpl. lia.
Qed.

Lemma digits_eq s :
  Re.match_here PHONE_DIGITS s =
  match s with
  | String c t =>
      if Py.is_digit c then S <$> Re.rep is_phone_char 6 t last_digit else None
  | EmptyString => None
  end.
Proof. destruct s; reflexivity. Qed.

Lemma digits_sound s n :
  Re.match_here PHONE_DIGITS s = Some n ->
  exists b post, s = b +:+ post /\ digit_run b /\ String.length b = n.
Proof.
  rewrite digits_eq. destruct s as [|c t]; [discriminate|].
  destruct (Py.is_digit c) eqn:Ec; [|discriminate].
  destruct (Re.rep is_phone_char 6 t last_digit) as [k|] eqn:Er; [|discriminate].
  intros [= <-].
  destruct (rep_sound _ _ _ Er) as (mid & d & rest & -> & Hall & Hn & Hd & ->).
  exists (String c (mid +:+ String d "")), rest. repeat split.
  - rewrite append_cons, append_assoc. reflexivity.
  - exists c, mid, d. repeat split; auto.
  - simpl. rewrite length_append. simpl. lia.
Qed.

Lemma digits_max s n :
  Re.match_here PHONE_DIGITS s = Some n ->
  forall b post, s = b +:+ post -> digit_run b -> (String.length b <= n)%nat.
Proof.
  rewrite digits_eq. intros Hm b post Hs (d1 & mid & d2 & -> & H1 & H2 & Hall & Hlen).
  rewrite append_cons, append_assoc in Hs. subst s.
  rewrite H1 in Hm.
  destruct (Re.rep is_phone_char 6 (mid +:+ String d2 "" +:+ post) last_digit)
    as [k|] eqn:Er; [|discriminate].
  injection Hm as <-.
  pose proof (rep_max _ _ _ Er mid d2 post eq_refl Hall H2).
  simpl. rewrite length_append. simpl. lia.
Qed.

Lemma digits_none s :
  Re.match_here PHONE_DIGITS s = None ->
  forall b post, s = b +:+ post -> ~ digit_run b.
Proof.
  rewrite digits_eq. intros Hm b post Hs (d1 & mid & d2 & -> & H1 & H2 & Hall & Hlen).
  rewrite append_cons, append_assoc in Hs. subst s.
  rewrite H1 in Hm.
  destruct (Re.rep is_phone_char 6 (mid +:+ String d2 "" +:+ post) last_digit)
    as [k|] eqn:Er; [discriminate|].
  eapply (rep_none _ _ Er mid d2 post); auto.
Qed.

Lemma phone_re_eq s :
  Re.match_here PHONE_RE s =
  match s with
  | String c t =>
      if is_plus c then
        match S <$> Re.match_here PHONE_DIGITS t with
        | Some n => Some n
        | None => Re.match_here PHONE_DIGITS s
        end
      else Re.match_here PHONE_DIGITS s
  | EmptyString => None
  end.
Proof.
  destruct s as [|c t]; [reflexivity|].
  unfold Re.match_here, PHONE_RE. simpl Re.m at 1.
  cbn [Re.m]. fold (Re.match_here PHONE_DIGITS t). fold (Re.match_here PHONE_DIGITS (String c t)).
  destruct (is_plus c); reflexivity.
Qed.

Lemma phone_re_sound s n :
  Re.match_here PHONE_RE s = Some n ->
  exists g post, s = g +:+ post /\ phone_like g /\ String.length g = n.
Proof.
  rewrite phone_re_eq. destruct s as [|c t]; [discriminate|].
  destruct (is_plus c) eqn:Ec.
  - destruct (Re.match_here PHONE_DIGITS t) as [k|] eqn:Et; simpl.
    + intros [= <-]. destruct (digits_sound _ _ Et) as (b & post & -> & Hb & <-).
      apply Ascii.eqb_eq in Ec. subst c.
      exists (String "+"%char b), post. repeat split.
      right. exists b. auto.
    + rewrite digits_eq, (plus_not_digit _ Ec). discriminate.
  - intros Hm. destruct (digits_sound _ _ Hm) as (b & post & Hs & Hb & <-).
    exists b, post. repeat split; auto. now left.
Qed.

Lemma phone_re_max s n :
  Re.match_here PHONE_RE s = Some n ->
  forall g post, s = g +:+ post -> phone_like g -> (String.length g <= n)%nat.
Proof.
  rewrite phone_re_eq. intros Hm g post Hs Hg.
  destruct s as [|c t]; [discriminate|].
  destruct (is_plus c) eqn:Ec.
  - destruct Hg as [(d1 & mid & d2 & -> & H1 & _) | (b & -> & Hb)].
    + rewrite append_cons in Hs. injection Hs as -> _.
      rewrite (plus_not_digit _ Ec) in H1. discriminate.
    + rewrite append_cons in Hs. injection Hs as _ ->.
      destruct (Re.match_here PHONE_DIGITS (b +:+ post)) as [k|] eqn:Et; simpl in Hm.
      * injection Hm as <-. pose proof (digits_max _ _ Et b post eq_refl Hb).
        simpl. lia.
      * exfalso. exact (digits_none _ Et b post eq_refl Hb).
  - destruct Hg as [Hb | (b & -> & Hb)].
    + exact (digits_max _ _ Hm g post Hs Hb).
    + rewrite append_cons in Hs. injection Hs as -> _. discriminate.
Qed.

Lemma phone_re_none s :
  Re.match_here PHONE_RE s = None ->
  forall g post, s = g +:+ post -> ~ phone_like g.
Proof.
  rewrite phone_re_eq. intros Hm g post Hs Hg.
  destruct s as [|c t].
  - destruct Hg as [(d1 & mid & d2 & -> & _) | (b & -> & _)]; discriminate.
  - destruct (is_plus c) eqn:Ec.
    + destruct Hg as [(d1 & mid & d2 & -> & H1 & _) | (b & -> & Hb)].
      * rewrite append_cons in Hs. injection Hs as -> _.
        rewrite (plus_not_digit _ Ec) in H1. discriminate.
      * rewrite append_cons in Hs. injection Hs as _ ->.
        destruct (Re.match_here PHONE_DIGITS (b +:+ post)) as [k|] eqn:Et; simpl in Hm;
          [discriminate|].
        exact (digits_none _ Et b post eq_refl Hb).
    + destruct Hg as [Hb | (b & -> & Hb)].
      * exact (digits_none _ Hm g post Hs Hb).
      * rewrite append_cons in Hs. injection Hs as -> _. discriminate.
Qed.

(** [re.search] returns the leftmost match, and at that position the
    longest one. *)
Lemma search_some s pos p g :
  Re.search_from PHONE_RE pos s = Some (p, g) ->
  exists pre post,
    s = pre +:+ g +:+ post /\ p = (pos + String.length pre)%nat /\ phone_like g
    /\ (forall g' post', g +:+ post = g' +:+ post' -> phone_like g' ->
         (String.length g' <= String.length g)%nat)
    /\ (forall pre' g' post', s = pre' +:+ g' +:+ post' -> phone_like g' ->
         (String.length pre <= String.length pre')%nat).
Proof.
  revert pos. induction s as [|c s IH]; intros pos; cbn [Re.search_from].
  - rewrite phone_re_eq. discriminate.
  - destruct (Re.match_here PHONE_RE (String c s)) as [n|] eqn:Em.
    + intros [= <- <-].
      destruct (phone_re_sound _ _ Em) as (g & post & Hs & Hg & <-).
      rewrite Hs, take_append.
      exists "", post. split_and!; [auto | simpl String.length; lia | auto | |].
      * intros g' post' Hs' Hg'. rewrite <- Hs in Hs'.
        exact (phone_re_max _ _ Em g' post' Hs' Hg').
      * intros. simpl. lia.
    + intros Hsrch.
      destruct (IH _ Hsrch) as (pre & post & -> & -> & Hg & Hmax & Hleft).
      exists (String c pre), post.
      split_and!; [auto | simpl String.length; lia | auto | auto |].
      intros pre' g' post' Hs' Hg'. destruct pre' as [|x pre'].
      * exfalso. exact (phone_re_none _ Em g' post' Hs' Hg').
      * rewrite !append_cons in Hs'. injection Hs' as _ Hs'.
        pose proof (Hleft pre' g' post' Hs' Hg'). simpl. lia.
Qed.

Lemma search_none s pos :
  Re.search_from PHONE_RE pos s = None ->
  forall pre g post, s = pre +:+ g +:+ post -> ~ phone_like g.
Proof.
  revert pos. induction s as [|c s IH]; intros pos; cbn [Re.search_from].
  - intros _ pre g post Hs Hg. destruct pre; [|discriminate].
    destruct Hg as [(d1 & mid & d2 & -> & _) | (b & -> & _)]; discriminate.
  - destruct (Re.match_here PHONE_RE (String c s)) as [n|] eqn:Em; [discriminate|].
    intros Hsrch pre g post Hs Hg. destruct pre as [|x pre].
    + exact (phone_re_none _ Em g post Hs Hg).
    + rewrite append_cons in Hs. injection Hs as _ Hs.
      exact (IH _ Hsrch pre g post Hs Hg).
Qed.

End PhonePattern.

(** C6. For every contact-block text, the phone field is the first match
    of the pattern in the text: it is a digit run of at least 8 characters
    (digits and the separators [-], [.], [(], [)] and space, between a first
    and a last digit) with an optional leading [+]; no such run starts
    earlier in the text and none that starts at the same place is longer.
    When the text holds no such run the phone field is the empty string. *)
Theorem phone_field_first_match (contact_text : string) :
  (phone_of contact_text = ""
   /\ forall pos m, occurs_at contact_text pos m -> ~ phone_like m)
  \/
  (exists pos,
      occurs_at contact_text pos (phone_of contact_text)
      /\ phone_like (phone_of contact_text)
      /\ (8 <= String.length (phone_of contact_text))%nat
      /\ (forall pos' m', occurs_at contact_text pos' m' -> phone_like m' ->
           (pos <= pos')%nat)
      /\ (forall m', occurs_at contact_text pos m' -> phone_like m' ->
           (String.length m' <= String.length (phone_of contact_text))%nat)).
Proof.
  unfold phone_of, Re.search.
  destruct (Re.search_from PHONE_RE 0 contact_text) as [[p g]|] eqn:Es.
  - right.
    destruct (search_some _ _ _ _ Es) as (pre & post & Hs & Hp & Hg & Hmax & Hleft).
    rewrite (strip_phone_like _ Hg). exists (String.length pre). repeat split.
    + exists pre, post. auto.
    + exact Hg.
    + destruct Hg as [(d1 & mid & d2 & -> & _ & _ & _ & Hlen)
                     | (b & -> & (d1 & mid & d2 & -> & _ & _ & _ & Hlen))];
        simpl; rewrite length_append; simpl; lia.
    + intros pos' m' (pre' & post' & Hs' & <-) Hm'. exact (Hleft _ _ _ Hs' Hm').
    + intros m' (pre' & post' & Hs' & Hlen) Hm'.
      apply (Hmax m' post'); [|exact Hm'].
      rewrite Hs in Hs'. clear - Hs' Hlen.
      revert pre' Hs' Hlen. induction pre as [|c pre IH]; intros pre' Hs' Hlen.
      * destruct pre'; [exact Hs' | discriminate].
      * destruct pre' as [|c' pre']; [discriminate|].
        rewrite !append_cons in Hs'. injection Hs' as _ Hs'.
        apply (IH pre'); auto.
  - left. split; [reflexivity|].
    intros pos m (pre & post & Hs & _). exact (search_none _ _ Es pre m post Hs).
Qed.

(** ** The output store *)

(** C8. Initialising the sink is idempotent: when the output file is absent
    it is created holding exactly the header row; when it exists it is left
    as it is, byte for byte; the checkpoint file is never touched; and
    initialising twice is the same as initialising once. *)
Theorem init_csv_idempotent (f : FS) :
  match csv_file f with
  | None =>
      csv_file (_init_csv f)
      = Some ("category,subcategory,company_name,address,website,phone,description,booth"
              +:+ CRLF)
  | Some bytes => csv_file (_init_csv f) = Some bytes
  end
  /\ checkpoint_file (_init_csv f) = checkpoint_file f
  /\ _init_csv (_init_csv f) = _init_csv f.
Proof.
  unfold _init_csv. destruct f as [[bytes|] ck]; simpl; auto.
Qed.

(** ** Rules of the program logic *)

Section Logic.

Context {W : Type} `{Browser W}.

Lemma wp_elim {A} (c : M W A) st Q r st' :
  wp c st Q -> c st = (r, st') -> Q r st'.
Proof. unfold wp. intros HQ E. now rewrite E in HQ. Qed.

Lemma wp_intro {A} (c : M W A) st (Q : result A -> State W -> Prop) :
  (forall r st', c st = (r, st') -> Q r st') -> wp c st Q.
Proof. unfold wp. intros HQ. apply HQ. now destruct (c st). Qed.

Lemma wp_conj {A} (c : M W A) st (Q1 Q2 : result A -> State W -> Prop) :
  wp c st Q1 -> wp c st Q2 -> wp c st (fun r st' => Q1 r st' /\ Q2 r st').
Proof. unfold wp. auto. Qed.

Lemma wp_mono {A} (c : M W A) st (Q Q' : result A -> State W -> Prop) :
  wp c st Q -> (forall r st', Q r st' -> Q' r st') -> wp c st Q'.
Proof. unfold wp. auto. Qed.

Lemma wp_ret {A} (a : A) st (Q : result A -> State W -> Prop) :
  Q (Ok a) st -> wp (ret a) st Q.
Proof. auto. Qed.

Lemma wp_raise {A} st (Q : result A -> State W -> Prop) :
  Q TimeoutError st -> wp raise st Q.
Proof. auto. Qed.

Lemma wp_out_of_fuel {A} st (Q : result A -> State W -> Prop) :
  Q OutOfFuel st -> wp out_of_fuel st Q.
Proof. auto. Qed.

Lemma wp_bind {A B} (c : M W A) (k : A -> M W B) st Q :
  wp c st (fun r st' =>
             match r with
             | Ok a => wp (k a) st' Q
             | TimeoutError => Q TimeoutError st'
             | OutOfFuel => Q OutOfFuel st'
             end) ->
  wp (bind c k) st Q.
Proof. unfold wp, bind. now destruct (c st) as [[a| |] st1]. Qed.

Lemma wp_try_except {A} (c h : M W A) st Q :
  wp c st (fun r st' =>
             match r with
             | TimeoutError => wp h st' Q
             | other => Q other st'
             end) ->
  wp (try_except c h) st Q.
Proof. unfold wp, try_except. now destruct (c st) as [[a| |] st1]. Qed.

Lemma wp_attempt {A} (c : M W A) st Q :
  wp c st (fun r st' =>
             match r with
             | Ok a => Q (Ok (Some a)) st'
             | TimeoutError => Q (Ok None) st'
             | OutOfFuel => Q OutOfFuel st'
             end) ->
  wp (attempt c) st Q.
Proof.
  unfold wp, attempt, try_except, bind, ret. now destruct (c st) as [[a| |] st1].
Qed.

Lemma wp_emit e st (Q : result unit -> State W -> Prop) :
  Q (Ok tt) (mkState (page st) (fs st) (trace st ++ [e])) -> wp (emit e) st Q.
Proof. auto. Qed.

Lemma wp_query {A} (op : W -> A * W) ev st (Q : result A -> State W -> Prop) :
  (forall a w, Q (Ok a) (mkState w (fs st) (trace st ++ [ev a]))) ->
  wp (query op ev) st Q.
Proof. unfold wp, query. intros HQ. destruct (op (page st)). apply HQ. Qed.

Lemma wp_action op e st (Q : result unit -> State W -> Prop) :
  (forall w, Q (Ok tt) (mkState w (fs st) (trace st ++ [e]))) ->
  wp (action op e) st Q.
Proof. unfold wp, action. intros HQ. apply HQ. Qed.

Lemma wp_fallible op ev st (Q : result unit -> State W -> Prop) :
  (forall w, Q (Ok tt) (mkState w (fs st) (trace st ++ [ev true]))) ->
  (forall w, Q TimeoutError (mkState w (fs st) (trace st ++ [ev false]))) ->
  wp (fallible op ev) st Q.
Proof.
  unfold wp, fallible. intros HQ1 HQ2.
  destruct (op (page st)) as [[] w]; [apply HQ1 | apply HQ2].
Qed.

Lemma wp_read {A} (op : W -> option A * W) ev call st
    (Q : result A -> State W -> Prop) :
  (forall a w, Q (Ok a) (mkState w (fs st) (trace st ++ [ev a]))) ->
  (forall w, Q TimeoutError (mkState w (fs st) (trace st ++ [ERaised call]))) ->
  wp (read op ev call) st Q.
Proof.
  unfold wp, read. intros HQ1 HQ2.
  destruct (op (page st)) as [[a|] w]; [apply HQ1 | apply HQ2].
Qed.

Lemma wp_act op e call st (Q : result unit -> State W -> Prop) :
  (forall w, Q (Ok tt) (mkState w (fs st) (trace st ++ [e]))) ->
  (forall w, Q TimeoutError (mkState w (fs st) (trace st ++ [ERaised call]))) ->
  wp (act op e call) st Q.
Proof.
  unfold wp, act. intros HQ1 HQ2.
  destruct (op (page st)) as [[] w]; [apply HQ1 | apply HQ2].
Qed.

Lemma wp_file_op op e st (Q : result unit -> State W -> Prop) :
  Q (Ok tt) (mkState (page st) (op (fs st)) (trace st ++ [e])) ->
  wp (file_op op e) st Q.
Proof. auto. Qed.

Lemma wp_current_url st (Q : result string -> State W -> Prop) :
  (forall u, Q (Ok u) st) -> wp current_url st Q.
Proof. unfold wp, current_url. intros HQ. apply HQ. Qed.

Lemma wp_load_checkpoint st (Q : result (option Checkpoint) -> State W -> Prop) :
  Q (Ok (checkpoint_file (fs st)))
    (mkState (page st) (fs st) (trace st ++ [ELoadCheckpoint])) ->
  wp load_checkpoint st Q.
Proof. auto. Qed.

Lemma extends_refl P (st : State W) : extends P st st.
Proof. split; [reflexivity|]. exists []. now rewrite app_nil_r. Qed.

Lemma extends_trans P (st1 st2 st3 : State W) :
  extends P st1 st2 -> extends P st2 st3 -> extends P st1 st3.
Proof.
  intros (Hf1 & d1 & Ht1 & Hd1) (Hf2 & d2 & Ht2 & Hd2). split; [congruence|].
  exists (d1 ++ d2). rewrite Ht2, Ht1, app_assoc. split; [reflexivity|].
  now apply Forall_app.
Qed.

Lemma extends_step (P : Event -> Prop) (st : State W) w e :
  P e -> extends P st (mkState w (fs st) (trace st ++ [e])).
Proof. intros He. split; [reflexivity|]. exists [e]. auto. Qed.

Lemma extends_to_snoc (P : Event -> Prop) (st : State W) f t e :
  extends_to P st f t -> P e -> extends_to P st f (t ++ [e]).
Proof.
  intros (Hf & d & Ht & Hd) He. split; [exact Hf|]. exists (d ++ [e]).
  rewrite Ht, app_assoc. split; [reflexivity|].
  apply Forall_app. auto.
Qed.

(** A [for] loop whose body keeps [I] and always returns normally keeps [I]
    and returns normally. *)
Lemma wp_for_each_ok {A S} (I : State W -> Prop) (xs : list A)
    (body : A -> S -> M W S) (acc : S) st :
  I st ->
  (forall x a st1, I st1 ->
     wp (body x a) st1 (fun r st2 => I st2 /\ exists a', r = Ok a')) ->
  wp (for_each xs body acc) st (fun r st' => I st' /\ exists a', r = Ok a').
Proof.
  intros HI Hbody. revert acc st HI.
  induction xs as [|x xs IH]; intros acc st HI; simpl.
  - apply wp_ret. eauto.
  - apply wp_bind. eapply wp_mono; [apply (Hbody x acc st HI)|].
    cbv beta. intros r st1 (H1 & a' & ->). auto.
Qed.

(** A [for] loop whose body may raise: [I] holds as long as the body
    returns, and [F] or [G] where it raises or runs out of fuel. *)
Lemma wp_for_each_cases {A S} (I F G : State W -> Prop) (xs : list A)
    (body : A -> S -> M W S) (acc : S) st :
  I st ->
  (forall x a st1, I st1 ->
     wp (body x a) st1
       (fun r st2 => match r with
                     | Ok _ => I st2
                     | TimeoutError => F st2
                     | OutOfFuel => G st2
                     end)) ->
  wp (for_each xs body acc) st
    (fun r st' => match r with
                  | Ok _ => I st'
                  | TimeoutError => F st'
                  | OutOfFuel => G st'
                  end).
Proof.
  intros HI Hbody. revert acc st HI.
  induction xs as [|x xs IH]; intros acc st HI; simpl.
  - now apply wp_ret.
  - apply wp_bind. eapply wp_mono; [apply (Hbody x acc st HI)|].
    cbv beta. intros [a| |] st1 H1; auto.
Qed.

(** A [for] loop with an invariant [I] on the items done, the accumulator
    and the state, whose body needs no fuel; [F] holds where the body
    raises, of the items done before and the state. *)
Lemma wp_for_each_inv {A S} (I : list A -> S -> State W -> Prop)
    (F : list A -> State W -> Prop) (xs : list A)
    (body : A -> S -> M W S) (acc : S) (st : State W) :
  I [] acc st ->
  (forall done x rest a st1, xs = done ++ x :: rest -> I done a st1 ->
     wp (body x a) st1
       (fun r st2 => match r with
                     | Ok a' => I (done ++ [x]) a' st2
                     | TimeoutError => F done st2
                     | OutOfFuel => False
                     end)) ->
  wp (for_each xs body acc) st
    (fun r st' => match r with
                  | Ok a' => I xs a' st'
                  | TimeoutError =>
                      exists done x rest, xs = done ++ x :: rest /\ F done st'
                  | OutOfFuel => False
                  end).
Proof.
  intros HI Hbody.
  enough (Hgen : forall todo done a st1, xs = done ++ todo -> I done a st1 ->
            wp (for_each todo body a) st1
              (fun r st' => match r with
                            | Ok a' => I xs a' st'
                            | TimeoutError =>
                                exists done x rest,
                                  xs = done ++ x :: rest /\ F done st'
                            | OutOfFuel => False
                            end)).
  { apply (Hgen xs [] acc st); [reflexivity | exact HI]. }
  induction todo as [|x todo IH]; intros done a st1 E H1; simpl.
  - apply wp_ret. rewrite app_nil_r in E. now subst xs.
  - apply wp_bind. eapply wp_mono; [apply (Hbody done x todo a st1 E H1)|].
    cbv beta. intros [a'| |] st2 H2.
    + apply (IH (done ++ [x])); [now rewrite <- app_assoc | exact H2].
    + eauto.
    + exact H2.
Qed.

(** A [for] loop whose body keeps [I] however it ends and needs no fuel. *)
Lemma wp_for_each_keeps {A S} (I : State W -> Prop) (xs : list A)
    (body : A -> S -> M W S) (acc : S) st :
  I st ->
  (forall x a st1, I st1 ->
     wp (body x a) st1 (fun r st2 => I st2 /\ r <> OutOfFuel)) ->
  wp (for_each xs body acc) st (fun r st' => I st' /\ r <> OutOfFuel).
Proof.
  intros HI Hbody.
  eapply wp_mono;
    [apply (wp_for_each_cases I I (fun _ => False) xs body acc st HI)|].
  - intros x a st1 H1. eapply wp_mono; [apply (Hbody x a st1 H1)|].
    cbv beta. intros [b| |] st2 [H2 Hr]; auto.
  - cbv beta. intros [b| |] st' H'; [split; [exact H' | discriminate]..|].
    contradiction.
Qed.

End Logic.

(** ** The reads of a list of elements *)

Lemma range_nth (n : nat) (done : list Z) (x : Z) (rest : list Z) :
  range n = done ++ x :: rest -> x = Z.of_nat (length done).
Proof.
  intros E.
  assert (Hx : range n !! length done = Some x).
  { rewrite E. apply list_lookup_middle. reflexivity. }
  unfold range in Hx. rewrite list_lookup_fmap in Hx.
  destruct (seq 0 n !! length done) as [k|] eqn:Ek; [|discriminate].
  apply lookup_seq in Ek as [-> _]. simpl in Hx. congruence.
Qed.

Lemma range_length (n : nat) : length (range n) = n.
Proof. unfold range. now rewrite length_map, length_seq. Qed.

Lemma href_reads_snoc l hrefs h :
  href_reads l (hrefs ++ [h])
  = href_reads l hrefs ++ [EGetAttribute (Nth l (Z.of_nat (length hrefs))) "href" h].
Proof.
  unfold href_reads. rewrite imap_app. simpl. now rewrite Nat.add_0_r.
Qed.

Lemma link_reads_snoc l answers a :
  link_reads l (answers ++ [a])
  = link_reads l answers
    ++ [EGetAttribute (Nth l (Z.of_nat (length answers))) "href" a.1;
        ETextContent (Nth l (Z.of_nat (length answers))) a.2].
Proof.
  unfold link_reads. rewrite imap_app, concat_app. simpl.
  now rewrite Nat.add_0_r.
Qed.

Lemma omap_length_le {A B} (f : A -> option B) (l : list A) :
  (length (omap f l) <= length l)%nat.
Proof.
  induction l as [|x l IH]; [reflexivity|].
  change (x :: l) with ([x] ++ l). rewrite omap_app, !length_app.
  assert (length (omap f [x]) <= 1)%nat by (cbn; destruct (f x); simpl; lia).
  change (length [x]) with 1%nat. lia.
Qed.

Lemma omap_snoc {A B} (f : A -> option B) (l : list A) (x : A) :
  omap f (l ++ [x]) = omap f l ++ match f x with Some y => [y] | None => [] end.
Proof. rewrite omap_app. simpl. now destruct (f x). Qed.

Lemma text_reads_snoc l texts t :
  text_reads l (texts ++ [t])
  = text_reads l texts ++ [ETextContent (Nth l (Z.of_nat (length texts))) t].
Proof.
  unfold text_reads. rewrite imap_app. simpl. now rewrite Nat.add_0_r.
Qed.

(** One step of symbolic execution of a monadic program. *)
Ltac wp_prim :=
  unfold goto, wait_for_timeout, wait_for_selector, count, get_attribute,
    text_content, inner_text, evaluate, scroll_into_view_if_needed, click,
    go_back, close, print, init_csv, save_checkpoint, append_row.

Ltac wp_step :=
  wp_prim;
  lazymatch goal with
  | |- wp (bind _ _) _ _ => apply wp_bind
  | |- wp (ret _) _ _ => apply wp_ret
  | |- wp raise _ _ => apply wp_raise
  | |- wp out_of_fuel _ _ => apply wp_out_of_fuel
  | |- wp (query _ _) _ _ => apply wp_query; intros ? ?
  | |- wp (action _ _) _ _ => apply wp_action; intros ?
  | |- wp (fallible _ _) _ _ => apply wp_fallible; intros ?
  | |- wp (read _ _ _) _ _ => apply wp_read; [intros ? ? | intros ?]
  | |- wp (act _ _ _) _ _ => apply wp_act; intros ?
  | |- wp (emit _) _ _ => apply wp_emit
  | |- wp (file_op _ _) _ _ => apply wp_file_op
  | |- wp (attempt _) _ _ => apply wp_attempt
  | |- wp (try_except _ _) _ _ => apply wp_try_except
  | |- wp current_url _ _ => apply wp_current_url; intros ?
  | |- wp load_checkpoint _ _ => apply wp_load_checkpoint
  end;
  cbv beta iota; cbn [fs trace page].

Ltac wp_steps := repeat wp_step.

Ltac wp_if :=
  lazymatch goal with
  | |- wp (if ?b then _ else _) _ _ => destruct b eqn:?
  end.

Ltac wp_all := repeat first [wp_step | wp_if].

(** ** The navigator *)

Section Navigator.

Context {W : Type} `{Browser W}.

(** Whatever the fuel, [_safe_goto] only navigates. *)
Lemma safe_goto_from_quiet fuel u retries attempt (st : State W) :
  wp (_safe_goto_from fuel u retries attempt) st (fun _ st' => extends quiet st st').
Proof.
  revert attempt st. induction fuel as [|fuel IH]; intros attempt st; simpl.
  - wp_step. apply extends_refl.
  - wp_steps.
    + now apply extends_step.
    + destruct (attempt + 1 >? retries).
      * wp_step. now apply extends_step.
      * eapply wp_mono; [apply IH|]. cbv beta. intros _ st'.
        apply extends_trans. now apply extends_step.
Qed.

Lemma safe_goto_quiet fuel u retries (st : State W) :
  wp (_safe_goto fuel u retries) st (fun _ st' => extends quiet st st').
Proof. apply safe_goto_from_quiet. Qed.

Lemma safe_goto_from_attempts fuel u retries attempt (st : State W) :
  0 <= attempt <= retries ->
  (Z.to_nat (retries - attempt) < fuel)%nat ->
  wp (_safe_goto_from fuel u retries attempt) st
    (fun r st' =>
       fs st' = fs st
       /\ exists failures : nat,
           (r = Ok tt
            /\ (failures <= Z.to_nat (retries - attempt))%nat
            /\ trace st' = trace st ++ repeat (EGoto u false) failures ++ [EGoto u true])
           \/ (r = TimeoutError
               /\ failures = S (Z.to_nat (retries - attempt))
               /\ trace st' = trace st ++ repeat (EGoto u false) failures)).
Proof.
  revert attempt st. induction fuel as [|fuel IH]; intros attempt st Hat Hfuel;
    [lia|]. simpl. wp_steps.
  - split; [reflexivity|]. exists 0%nat. left. split_and!; auto. lia.
  - destruct (attempt + 1 >? retries) eqn:Hgt.
    + wp_step. split; [reflexivity|]. exists 1%nat. right.
      apply Z.gtb_lt in Hgt. replace (retries - attempt) with 0 by lia.
      split_and!; auto.
    + assert (attempt + 1 <= retries)
        by (destruct (Z.gtb_spec (attempt + 1) retries); [discriminate | lia]).
      eapply wp_mono; [apply (IH (attempt + 1)); lia|]. cbv beta.
      cbn [fs trace]. intros r st' (Hfs & failures & Hcase).
      split; [exact Hfs|]. exists (S failures).
      replace (Z.to_nat (retries - attempt))
        with (S (Z.to_nat (retries - (attempt + 1)))) by lia.
      destruct Hcase as [(-> & Hle & ->) | (-> & -> & ->)]; [left | right];
        split_and!; auto; try lia; now rewrite <- app_assoc.
Qed.

(** C4. [_safe_goto(page, url, retries)] with [retries >= 0] (the program
    always passes 2) loads the page, and on a navigation timeout tries
    again at once, up to [retries] more times: either some attempt
    succeeds after at most [retries] failed ones and the call returns
    normally, or all [1 + retries] attempts time out and the timeout is
    raised to the caller.  Nothing else is done in between, and the files
    are not touched. *)
Theorem safe_goto_bounded_retries (fuel : nat) (u : string) (retries : Z)
    (st st' : State W) (r : result unit) :
  0 <= retries ->
  (Z.to_nat retries < fuel)%nat ->
  _safe_goto fuel u retries st = (r, st') ->
  fs st' = fs st
  /\ exists failures : nat,
      (r = Ok tt
       /\ (failures <= Z.to_nat retries)%nat
       /\ trace st' = trace st ++ repeat (EGoto u false) failures ++ [EGoto u true])
      \/ (r = TimeoutError
          /\ failures = S (Z.to_nat retries)
          /\ trace st' = trace st ++ repeat (EGoto u false) failures).
Proof.
  intros Hr Hfuel Hrun.
  pose proof (safe_goto_from_attempts fuel u retries 0 st) as Hwp.
  rewrite Z.sub_0_r in Hwp.
  exact (wp_elim _ _ _ _ _ (Hwp ltac:(lia) Hfuel) Hrun).
Qed.

End Navigator.

(** Closes a goal [extends P st st'] where [st'] is [st], or a state known
    to extend [st], followed by a few more events. *)
Ltac ext_done :=
  unfold extends; cbn [fs trace];
  repeat (apply extends_to_snoc; [| simpl; first [exact I | discriminate | auto]]);
  first [ apply extends_refl | assumption ].

(** ** The helpers of [run] only look at the page *)

Section Helpers.

Context {W : Type} `{Browser W}.
Variable urljoin : string -> string -> string.

Lemma extract_link_text_pairs_quiet selector (st : State W) :
  selector <> EXHIBITOR_LINK_SELECTOR ->
  wp (_extract_link_text_pairs urljoin selector) st
    (fun r st' => extends quiet st st' /\ r <> OutOfFuel).
Proof.
  intros Hsel. unfold _extract_link_text_pairs. wp_steps.
  apply (wp_for_each_keeps (extends quiet st)); [ext_done|].
  intros index categories st1 H1. wp_steps;
    try (split; [ext_done | discriminate]).
  destruct (Py.truthy (Py.or_empty a0)); wp_step; (split; [ext_done | discriminate]).
Qed.

Lemma stripped_texts_quiet l n (st0 st : State W) :
  root l <> EXHIBITOR_LINK_SELECTOR ->
  extends quiet st0 st ->
  wp (stripped_texts l n) st
    (fun r st' => extends quiet st0 st' /\ r <> OutOfFuel).
Proof.
  intros Hl H0. unfold stripped_texts.
  apply (wp_for_each_keeps (extends quiet st0)); [exact H0|].
  intros i acc st1 H1. wp_steps; (split; [ext_done | discriminate]).
Qed.

Lemma count_exhibitor_cards_events (st : State W) :
  wp _count_exhibitor_cards st
    (fun r st' =>
       fs st' = fs st
       /\ ((exists n, r = Ok n
                      /\ trace st' = trace st
                           ++ [EWaitForSelector EXHIBITOR_LINK_SELECTOR true;
                               ECount cards n])
           \/ (r = TimeoutError
               /\ trace st' = trace st
                    ++ [EWaitForSelector EXHIBITOR_LINK_SELECTOR false]))).
Proof.
  unfold _count_exhibitor_cards. wp_steps; (split; [reflexivity|]).
  - left. eexists. split; [reflexivity|]. now rewrite <- app_assoc.
  - right. auto.
Qed.

Lemma extract_exhibitor_details_quiet (st : State W) :
  wp _extract_exhibitor_details st
    (fun r st' => extends quiet st st' /\ r <> OutOfFuel).
Proof.
  unfold _extract_exhibitor_details. wp_step. wp_step.
  2: { split; [ext_done | discriminate]. }
  wp_steps; [|split; [ext_done | discriminate]].
  eapply wp_mono; [apply (stripped_texts_quiet _ _ st); [discriminate | ext_done]|].
  cbv beta. intros r1 st1 (H1 & Hr1).
  destruct r1 as [lines| |]; [|split; [exact H1 | discriminate] | contradiction].
  wp_all; try (split; [ext_done | discriminate]).
  all: eapply wp_mono;
         [apply (stripped_texts_quiet _ _ st); [discriminate | ext_done]|];
       cbv beta; intros r2 st6 (H6 & Hr2);
       (destruct r2 as [booths| |];
        [|split; [exact H6 | discriminate] | contradiction]);
       wp_steps; split; [ext_done | discriminate].
Qed.

(** *** What the helpers read, and what they make of it *)

Lemma stripped_texts_reads l n (st : State W) :
  wp (stripped_texts l n) st
    (fun r st' =>
       match r with
       | Ok texts =>
           exists answers,
             length answers = n /\ texts = map trimmed answers
             /\ trace st' = trace st ++ text_reads l answers
       | TimeoutError => True
       | OutOfFuel => False
       end).
Proof.
  unfold stripped_texts. eapply wp_mono.
  - apply (wp_for_each_inv
             (fun done acc st1 =>
                exists answers,
                  length answers = length done /\ acc = map trimmed answers
                  /\ trace st1 = trace st ++ text_reads l answers)
             (fun _ _ => True)).
    + exists []. now rewrite app_nil_r.
    + intros done x rest acc st1 E (answers & Hlen & -> & Htr).
      apply range_nth in E. subst x. wp_steps; [|exact I].
      exists (answers ++ [a]).
      rewrite !length_app, Hlen, text_reads_snoc, Htr, map_app, Hlen, <- app_assoc.
      auto.
  - cbv beta. intros [texts| |] st' Hr; auto.
    destruct Hr as (answers & Hlen & -> & Htr). rewrite range_length in Hlen. eauto.
Qed.

(** [_extract_link_text_pairs] reads the number of elements and then, for
    each element in order, its [href] and its text; it returns the pairs
    made of the answers, and raises when a read raises. *)
Lemma extract_link_text_pairs_reads selector (st : State W) :
  wp (_extract_link_text_pairs urljoin selector) st
    (fun r st' =>
       fs st' = fs st
       /\ exists answers,
           match r with
           | Ok pairs =>
               pairs = omap (pair_of urljoin) answers
               /\ trace st' = trace st ++ ECount (Loc selector) (length answers)
                                        :: link_reads (Loc selector) answers
           | TimeoutError =>
               exists n raise,
                 (length answers < n)%nat
                 /\ link_raise (Loc selector) (length answers) raise
                 /\ trace st' = trace st ++ ECount (Loc selector) n
                                          :: link_reads (Loc selector) answers
                                          ++ raise
           | OutOfFuel => False
           end).
Proof.
  unfold _extract_link_text_pairs. wp_steps.
  eapply wp_mono.
  - apply (wp_for_each_inv
             (fun done acc st1 =>
                exists answers,
                  length answers = length done
                  /\ fs st1 = fs st
                  /\ trace st1 = trace st ++ ECount (Loc selector) a
                                           :: link_reads (Loc selector) answers
                  /\ acc = omap (pair_of urljoin) answers)
             (fun done st1 =>
                fs st1 = fs st
                /\ exists answers raise,
                    length answers = length done
                    /\ link_raise (Loc selector) (length answers) raise
                    /\ trace st1 = trace st ++ ECount (Loc selector) a
                                             :: link_reads (Loc selector) answers
                                             ++ raise)).
    + exists []. auto.
    + intros done x rest acc st1 E (answers & Hlen & Hfs & Htr & ->).
      apply range_nth in E. subst x. wp_steps.
      * assert (Hpost : forall acc',
                   acc' = omap (pair_of urljoin) (answers ++ [(a0, a1)]) ->
                   exists answers',
                     length answers' = length (done ++ [Z.of_nat (length done)])
                     /\ fs st1 = fs st
                     /\ (trace st1
                         ++ [EGetAttribute (Nth (Loc selector) (Z.of_nat (length done)))
                               "href" a0])
                        ++ [ETextContent (Nth (Loc selector) (Z.of_nat (length done))) a1]
                        = trace st ++ ECount (Loc selector) a
                                   :: link_reads (Loc selector) answers'
                     /\ acc' = omap (pair_of urljoin) answers').
        { intros acc' ->. exists (answers ++ [(a0, a1)]).
          rewrite !length_app, Hlen, link_reads_snoc, Htr, Hlen. simpl.
          split_and!; auto. now rewrite <- !app_assoc. }
        destruct a0 as [[|c h]|]; simpl; wp_step; apply Hpost;
          rewrite omap_snoc; unfold pair_of; simpl; now rewrite ?app_nil_r.
      * split; [exact Hfs|]. exists answers. eexists. split; [exact Hlen|].
        split; [right; exists a0; rewrite Hlen; reflexivity|].
        rewrite Htr, <- !app_assoc. reflexivity.
      * split; [exact Hfs|]. exists answers. eexists. split; [exact Hlen|].
        split; [left; rewrite Hlen; reflexivity|].
        rewrite Htr, <- !app_assoc. reflexivity.
  - cbv beta. intros [pairs| |] st' Hr; [| |contradiction].
    + destruct Hr as (answers & Hlen & Hfs & Htr & ->).
      rewrite range_length in Hlen. subst a.
      split; [exact Hfs|]. exists answers. auto.
    + destruct Hr as (done & x & rest & E & Hfs & answers & raise & Hlen & Hraise & Htr).
      split; [exact Hfs|]. exists answers, a, raise. split_and!; auto.
      apply (f_equal (@length Z)) in E.
      rewrite range_length, length_app in E. simpl in E. lia.
Qed.

(** When [_extract_exhibitor_details] returns, the trace shows the calls
    of lines 92-120 with the answers of the page, and the value returned
    is [None] unless the six fields made of these answers are all
    non-empty. *)
Lemma extract_exhibitor_details_reads (st : State W) :
  wp _extract_exhibitor_details st
    (fun r st' =>
       match r with
       | Ok o =>
           exists a,
             trace st' = trace st ++ detail_reads a
             /\ o = details_if_complete (field_company_name a) (field_address a)
                      (field_website a) (field_phone a) (field_description a)
                      (field_booth a)
       | _ => True
       end).
Proof.
  unfold _extract_exhibitor_details. wp_all; try exact I.
  eapply wp_mono; [apply stripped_texts_reads|]. cbv beta.
  intros [lines| |] st1 H1; [|exact I | contradiction].
  destruct H1 as (address & Hlen1 & -> & Htr1). cbn [trace] in Htr1.
  wp_all; try exact I.
  all: eapply wp_mono; [apply stripped_texts_reads|]; cbv beta;
       intros [booths| |] st2 H2; [|exact I | contradiction];
       destruct H2 as (bs & Hlen2 & -> & Htr2); cbn [trace] in Htr2; wp_step.
  all: match type of Htr2 with
       | context [ECount (Sub (Loc "article#js-vue-contactinfo") "a[href^='http']")
                    ?nw] =>
         match type of Htr2 with
         | context [EInnerText (Loc "article#js-vue-contactinfo") ?text] =>
           match type of Htr2 with
           | context [ECount (Loc "#section-description") ?nd] =>
             let ws :=
               match type of Htr2 with
               | context [EGetAttribute
                            (First (Sub (Loc "article#js-vue-contactinfo")
                                      "a[href^='http']")) "href" ?h] => constr:(h)
               | _ => constr:(@None string)
               end in
             let ds :=
               match type of Htr2 with
               | context [ETextContent (First (Loc "#section-description")) ?t] =>
                   constr:(t)
               | _ => constr:(@None string)
               end in
             exists (mkAnswers a address nw ws text nd ds bs)
           end
         end
       end.
  all: unfold detail_reads, field_company_name, field_address, field_website,
         field_phone, field_description, field_booth, nonempty, trimmed;
       cbn [an_name an_address an_websites an_website an_contact an_descriptions
            an_description an_booths];
       rewrite Htr2, Htr1, Hlen1, Hlen2;
       repeat match goal with Hb : (0 <? _)%nat = _ |- _ => rewrite Hb; clear Hb end;
       split; [rewrite <- ?app_assoc; reflexivity | reflexivity].
Qed.

End Helpers.

(** ** The exhibitor loop follows the step relation *)

Section Loop.

Context {W : Type} `{Browser W}.
Variable rs : Resume.
Variables category subcategory : Category.

Lemma handle_details_iteration (v : LoopVars) n c h q (st0 st : State W)
    (outcome : option (option Details)) :
  exhibitor_index v < Z.of_nat n -> c <> 0%nat ->
  Py.or_empty h ∉ seen_exhibitors v -> Forall quiet q ->
  fs st = fs st0 ->
  trace st = trace st0 ++ enter_card (exhibitor_index v) n c h ++ q
             ++ match outcome with
                | Some r => [EExtracted (name category) (name subcategory)
                               (exhibitor_index v) r]
                | None => []
                end ->
  wp (handle_details rs category subcategory (exhibitor_index v)
        ({[Py.or_empty h]} ∪ seen_exhibitors v) (resume_name_found v) outcome) st
    (fun r st' =>
       exists d, trace st' = trace st0 ++ d
                 /\ body_run rs category subcategory v (fs st0) d r (fs st')).
Proof.
  intros Hn Hc Hh Hq Hfs Htr. unfold handle_details, finish_exhibitor.
  destruct outcome as [[d|]|].
  - destruct (resume_name_found v) eqn:Hfound; cbn [negb].
    + wp_steps; rewrite Hfs, Htr; eexists;
        (split; [rewrite <- !app_assoc; reflexivity|]).
      * apply (it_write rs category subcategory v (fs st0) n c h q d); assumption.
      * apply (ab_write rs category subcategory v (fs st0) n c h q d); assumption.
    + wp_step.
      pose proof (it_discard rs category subcategory v (fs st0) n c h q d
                    Hn Hc Hh Hq Hfound) as Hit.
      pose proof (ab_discard rs category subcategory v (fs st0) n c h q d
                    Hn Hc Hh Hq Hfound) as Hab.
      unfold name_matches in Hit, Hab.
      destruct (String.eqb (Py.lower (Py.strip (d_company_name d)))
                  (resume_after_name rs));
        wp_steps; rewrite Hfs, Htr; eexists;
        (split; [rewrite <- !app_assoc; reflexivity|]);
        first [exact Hit | exact Hab].
  - wp_steps; rewrite Hfs, Htr; eexists;
      (split; [rewrite <- !app_assoc; reflexivity|]).
    + apply (it_incomplete rs category subcategory v (fs st0) n c h q u); assumption.
    + apply (ab_incomplete rs category subcategory v (fs st0) n c h q u); assumption.
  - wp_steps; rewrite Hfs, Htr; eexists;
      (split; [rewrite <- !app_assoc; reflexivity|]).
    + apply (it_timeout rs category subcategory v (fs st0) n c h q u); assumption.
    + apply (ab_timeout rs category subcategory v (fs st0) n c h q u); assumption.
Qed.

(** Every run of the loop body is an [iteration] when it returns and an
    aborted iteration when it raises; the body needs no fuel. *)
Lemma exhibitor_body_iteration (v : LoopVars) (st : State W) :
  wp (exhibitor_body rs category subcategory v) st
    (fun r st' =>
       exists d, trace st' = trace st ++ d
                 /\ body_run rs category subcategory v (fs st) d r (fs st')).
Proof.
  unfold exhibitor_body. wp_steps.
  destruct (Z.geb_spec (exhibitor_index v) (Z.of_nat a)) as [Hge|Hlt].
  { wp_step. eexists. split; [reflexivity|]. apply it_break. lia. }
  wp_steps. destruct (Nat.eqb_spec a0 0) as [->|Hc].
  { wp_step. eexists. split; [rewrite <- !app_assoc; reflexivity|].
    now apply it_no_link. }
  wp_step. wp_step.
  2: { eexists. split; [rewrite <- !app_assoc; reflexivity|].
       now apply ab_target. }
  rename a1 into h.
  destruct (bool_decide_reflect (Py.or_empty h ∈ seen_exhibitors v)) as [Hin|Hnew].
  { wp_step. eexists. split; [rewrite <- !app_assoc; reflexivity|].
    now apply it_duplicate. }
  wp_step. wp_step.
  2: { eexists. split; [rewrite <- !app_assoc; reflexivity|].
       now apply ab_scroll. }
  wp_step. wp_step.
  2: { eexists. split; [rewrite <- !app_assoc; reflexivity|].
       now apply ab_click. }
  wp_steps. unfold extract_details. wp_step.
  eapply wp_mono; [apply extract_exhibitor_details_quiet|]. cbv beta.
  intros r st1 ((Hfs & q & Htr & Hq) & Hr). cbn [fs trace] in Hfs, Htr.
  destruct r as [o| |]; [| |congruence].
  - wp_steps.
    apply (handle_details_iteration v a a0 h q st _ (Some o));
      auto; cbn [fs trace].
    rewrite Htr, <- !app_assoc. reflexivity.
  - apply (handle_details_iteration v a a0 h q st st1 None); auto.
    rewrite Htr, <- !app_assoc, app_nil_r. reflexivity.
Qed.

Lemma exhibitor_loop_iterations (fuel : nat) (exhibitor_count : nat)
    (v : LoopVars) (st : State W) :
  wp (exhibitor_loop fuel rs category subcategory exhibitor_count v) st
    (fun r st' =>
       exists d, trace st' = trace st ++ d
                 /\ iterations rs category subcategory exhibitor_count v (fs st) d r
                      (fs st')).
Proof.
  revert v st. induction fuel as [|fuel IH]; intros v st; simpl;
    destruct (Z.ltb_spec (exhibitor_index v) (Z.of_nat exhibitor_count)) as [Hlt|Hge].
  - wp_step. exists []. rewrite app_nil_r. split; [reflexivity|]. now apply its_fuel.
  - wp_step. exists []. rewrite app_nil_r. split; [reflexivity|]. now apply its_exit.
  - wp_step. eapply wp_mono; [apply exhibitor_body_iteration|]. cbv beta.
    intros r st1 (d & Htr & Hit). destruct r as [[v'|]| |]; simpl in Hit.
    + eapply wp_mono; [apply IH|]. cbv beta.
      intros r st2 (d' & Htr' & Hits). exists (d ++ d').
      rewrite Htr', Htr, app_assoc. split; [reflexivity|].
      eapply its_next; eauto.
    + wp_step. exists d. split; [exact Htr|]. now apply its_break.
    + exists d. split; [exact Htr|]. now apply its_abort.
    + contradiction.
  - wp_step. exists []. rewrite app_nil_r. split; [reflexivity|]. now apply its_exit.
Qed.

End Loop.

(** ** Reading traces *)

Lemma entries_app d d' : entries (d ++ d') = (entries d + entries d')%nat.
Proof. unfold entries. now rewrite List.filter_app, length_app. Qed.

Lemma lookups_app d d' : lookups (d ++ d') = lookups d ++ lookups d'.
Proof. apply omap_app. Qed.

Lemma targets_app d d' : targets (d ++ d') = targets d ++ targets d'.
Proof. apply omap_app. Qed.

Lemma clicked_app d d' : clicked (d ++ d') = clicked d ++ clicked d'.
Proof. apply omap_app. Qed.

Lemma extracted_app d d' : extracted (d ++ d') = extracted d ++ extracted d'.
Proof. apply omap_app. Qed.

Lemma appended_app d d' : appended (d ++ d') = appended d ++ appended d'.
Proof. apply omap_app. Qed.

Lemma not_card_link s s' : s <> EXHIBITOR_LINK_SELECTOR -> is_card_link s s' = false.
Proof.
  intros Hs. unfold is_card_link. apply String.eqb_neq in Hs. now rewrite Hs.
Qed.

(** A quiet event shows in none of the readings. *)
Lemma quiet_silent e :
  quiet e ->
  entry e = false /\ lookup_of e = None /\ target_of e = None
  /\ click_of e = None /\ extraction_of e = None /\ append_of e = None.
Proof.
  destruct e as [| | |l n|l a v|l v|l v| | | | | | | | | | | |call]; simpl;
    try tauto; intros Hq; split_and!; try reflexivity.
  - destruct l; try reflexivity. simpl in Hq. now apply String.eqb_neq.
  - destruct l as [|[|p s0|[] i|] s'| |]; try reflexivity.
    simpl in Hq. now rewrite not_card_link.
  - destruct l as [| | |[|[|p s0|[] i|] s'| |]]; try reflexivity.
    simpl in Hq. now rewrite not_card_link.
Qed.

Lemma quiet_list q :
  Forall quiet q ->
  entries q = 0%nat /\ lookups q = [] /\ targets q = [] /\ clicked q = []
  /\ extracted q = [] /\ appended q = [].
Proof.
  induction 1 as [|e q He _ IH]; [repeat split|].
  destruct (quiet_silent e He) as (H1 & H2 & H3 & H4 & H5 & H6).
  destruct IH as (I1 & I2 & I3 & I4 & I5 & I6).
  unfold entries, lookups, targets, clicked, extracted, appended in *.
  simpl. rewrite H1, H2, H3, H4, H5, H6. split_and!; assumption.
Qed.

(** Rewrites a reading of a trace made of known events and quiet parts. *)
Ltac read_trace :=
  repeat match goal with
         | Hq : Forall quiet ?q |- _ =>
             let H1 := fresh in
             pose proof (quiet_list q Hq) as H1; clear Hq;
             destruct H1 as (? & ? & ? & ? & ? & ?)
         end;
  unfold enter_card, leave_card in *;
  rewrite ?entries_app, ?lookups_app, ?targets_app, ?clicked_app, ?extracted_app,
    ?appended_app.

(** ** Termination of the exhibitor loop *)

Section LoopTermination.

Context {W : Type} `{Browser W}.
Variable rs : Resume.
Variables category subcategory : Category.

Lemma iteration_next v f d v' f' :
  iteration rs category subcategory v f d (Some v') f' ->
  exhibitor_index v' = exhibitor_index v + 1.
Proof. inversion 1; reflexivity. Qed.

Lemma iteration_break v f d f' :
  iteration rs category subcategory v f d None f' ->
  exists n, d = [ECount cards n] /\ Z.of_nat n <= exhibitor_index v.
Proof. inversion 1. eauto. Qed.

Lemma iteration_entries v f d o f' :
  iteration rs category subcategory v f d o f' -> entries d = 1%nat.
Proof.
  inversion 1; subst; read_trace; try reflexivity;
    repeat match goal with Hq : entries ?q = _ |- _ => rewrite Hq end;
    try destruct (name_matches rs _); reflexivity.
Qed.

Lemma aborted_entries v f d f' :
  aborted rs category subcategory v f d f' -> entries d = 1%nat.
Proof.
  inversion 1; subst; read_trace; try reflexivity;
    repeat match goal with Hq : entries ?q = _ |- _ => rewrite Hq end;
    try destruct (name_matches rs _); reflexivity.
Qed.

(** An aborted iteration ends with the call that raised. *)
Lemma aborted_last v f d f' :
  aborted rs category subcategory v f d f' ->
  exists t call, d = t ++ [ERaised call] /\ loop_call (exhibitor_index v) call.
Proof.
  unfold loop_call.
  inversion 1; subst; unfold enter_card;
    try destruct (name_matches rs _);
    repeat rewrite ?app_assoc, ?app_comm_cons;
    try (do 2 eexists; split; [reflexivity | auto]; fail);
    match goal with
    | |- exists t call, [?a; ?b; ?c; ?e] = _ /\ _ =>
        exists [a; b; c]; eexists; split; [reflexivity | auto]
    | |- exists t call, [?a; ?b; ?c; ?e; ?g] = _ /\ _ =>
        exists [a; b; c; e]; eexists; split; [reflexivity | auto]
    | |- exists t call, [?a; ?b; ?c; ?e; ?g; ?h] = _ /\ _ =>
        exists [a; b; c; e; g]; eexists; split; [reflexivity | auto]
    end.
Qed.

Lemma iterations_entries n v f d r f' :
  iterations rs category subcategory n v f d r f' ->
  (entries d <= Z.to_nat (Z.of_nat n - exhibitor_index v))%nat.
Proof.
  induction 1 as [v f Hge|v f Hlt|v f d f' Hlt Hit|v f d v' f' d' r f'' Hlt Hit _ IH
                 |v f d f' Hlt Hab].
  - unfold entries. simpl. lia.
  - unfold entries. simpl. lia.
  - rewrite (iteration_entries _ _ _ _ _ Hit). lia.
  - rewrite entries_app, (iteration_entries _ _ _ _ _ Hit).
    rewrite (iteration_next _ _ _ _ _ Hit) in IH. lia.
  - rewrite (aborted_entries _ _ _ _ Hab). lia.
Qed.

Lemma iterations_index n v f d v' f' :
  iterations rs category subcategory n v f d (Ok v') f' ->
  exhibitor_index v <= exhibitor_index v'.
Proof.
  intros Hits. remember (Ok v') as r eqn:Hr. revert v' Hr.
  induction Hits as [v f Hge|v f Hlt|v f d f' Hlt Hit|v f d v1 f' d' r f'' Hlt Hit _ IH
                    |v f d f' Hlt Hab];
    intros v' Hr; try (injection Hr as <-; lia); try discriminate.
  specialize (IH v' Hr). rewrite (iteration_next _ _ _ _ _ Hit) in IH. lia.
Qed.

(** With fuel for [exhibitor_count - exhibitor_index] iterations the loop
    ends: it returns, or an iteration raises. *)
Lemma exhibitor_loop_ends fuel n v (st : State W) :
  (Z.to_nat (Z.of_nat n - exhibitor_index v) <= fuel)%nat ->
  wp (exhibitor_loop fuel rs category subcategory n v) st
    (fun r _ => r <> OutOfFuel).
Proof.
  revert v st. induction fuel as [|fuel IH]; intros v st Hfuel; simpl;
    destruct (Z.ltb_spec (exhibitor_index v) (Z.of_nat n)) as [Hlt|Hge];
    try lia; try (wp_step; discriminate).
  wp_step. eapply wp_mono; [apply exhibitor_body_iteration|]. cbv beta.
  intros r st1 (d & _ & Hit).
  destruct r as [[v'|]| |]; simpl in Hit;
    [|wp_step; discriminate | discriminate | contradiction].
  apply IH. rewrite (iteration_next _ _ _ _ _ Hit). lia.
Qed.

(** C10. The exhibitor loop of a subcategory always terminates.  From any
    index (non-negative or not) and any state of the page: an iteration
    that returns either breaks, which it does when the live card count is
    at most the index, or adds exactly 1 to [exhibitor_index], on every
    path; the only other way an iteration ends is the time-out of one of
    its calls outside every [try] (the read of the link target, the
    scroll, the click, the way back), which ends the loop.  The bound
    [exhibitor_count] is an argument of the loop, read before it, so the
    body is entered at most [exhibitor_count - exhibitor_index] times (no
    time when that is negative), and with fuel for that many iterations
    the model of the loop ends: it returns, with an index that is not
    below the starting one, or raises the time-out. *)
Theorem exhibitor_loop_terminates (exhibitor_count : nat) (v : LoopVars)
    (st : State W) :
  (let once := exhibitor_body rs category subcategory v st in
   exists d,
     trace (snd once) = trace st ++ d
     /\ match fst once with
        | Ok (Some v') => exhibitor_index v' = exhibitor_index v + 1
        | Ok None => exists n, d = [ECount cards n] /\ Z.of_nat n <= exhibitor_index v
        | TimeoutError =>
            exists t call,
              d = t ++ [ERaised call] /\ loop_call (exhibitor_index v) call
        | OutOfFuel => False
        end)
  /\ forall fuel,
      (Z.to_nat (Z.of_nat exhibitor_count - exhibitor_index v) <= fuel)%nat ->
      let whole := exhibitor_loop fuel rs category subcategory exhibitor_count v st in
      fst whole <> OutOfFuel
      /\ exists d,
          trace (snd whole) = trace st ++ d
          /\ Z.of_nat (entries d)
             <= Z.max 0 (Z.of_nat exhibitor_count - exhibitor_index v)
          /\ match fst whole with
             | Ok v' => exhibitor_index v <= exhibitor_index v'
             | _ => True
             end.
Proof.
  split.
  - cbv zeta.
    pose proof (exhibitor_body_iteration rs category subcategory v st) as Hwp.
    unfold wp in Hwp. destruct Hwp as (d & Htr & Hit).
    exists d. split; [exact Htr|].
    destruct (fst (exhibitor_body rs category subcategory v st)) as [[v'|]| |];
      simpl in Hit.
    + exact (iteration_next _ _ _ _ _ Hit).
    + exact (iteration_break _ _ _ _ Hit).
    + exact (aborted_last _ _ _ _ Hit).
    + exact Hit.
  - intros fuel Hfuel. cbv zeta.
    pose proof (exhibitor_loop_ends fuel exhibitor_count v st Hfuel) as Hret.
    pose proof (exhibitor_loop_iterations rs category subcategory fuel
                  exhibitor_count v st) as Hwp.
    unfold wp in Hret, Hwp. split; [exact Hret|].
    destruct Hwp as (d & Htr & Hits).
    exists d. split_and!; [exact Htr| |].
    + pose proof (iterations_entries _ _ _ _ _ _ Hits). lia.
    + destruct (fst (exhibitor_loop fuel rs category subcategory exhibitor_count v st))
        as [v'| |]; [|exact I..].
      exact (iterations_index _ _ _ _ _ _ Hits).
Qed.

End LoopTermination.

(** ** The visit of a subcategory *)

Section Visit.

Context {W : Type} `{Browser W}.
Variable rs : Resume.
Variables category subcategory : Category.

Lemma visit_subcategory_visit fuel found (st : State W) :
  wp (visit_subcategory fuel rs category subcategory found) st
    (fun r st' =>
       exists d, trace st' = trace st ++ d
                 /\ visit rs category subcategory found (fs st) d r (fs st')).
Proof.
  unfold visit_subcategory. wp_step.
  eapply wp_mono; [apply safe_goto_quiet|]. cbv beta.
  intros r st1 (Hfs1 & q & Htr1 & Hq).
  destruct r as [[]| |].
  2,3: exists q; split; [exact Htr1|]; rewrite Hfs1;
       apply visit_unreached; [exact Hq | discriminate].
  wp_steps.
  eapply wp_mono; [apply count_exhibitor_cards_events|]. cbv beta.
  cbn [fs trace]. intros r st2 (Hfs2 & Hcase).
  assert (Hq' : Forall quiet (q ++ [EWaitForTimeout 1000])).
  { apply Forall_app. split; [exact Hq|]. repeat constructor. }
  destruct Hcase as [(n & -> & Htr2) | (-> & Htr2)].
  - wp_steps.
    eapply wp_mono; [apply (exhibitor_loop_iterations rs category subcategory)|].
    cbv beta. cbn [fs trace].
    intros r st3 (d & Htr3 & Hits). rewrite Hfs2, Hfs1 in Hits.
    destruct r as [v| |].
    + wp_steps. eexists. split;
        [| apply (visit_cards rs category subcategory found (fs st)
                    (q ++ [EWaitForTimeout 1000]) n d v (fs st3));
           [exact Hq' | exact Hits]].
      rewrite Htr3, Htr2, Htr1, <- !app_assoc. reflexivity.
    + eexists. split;
        [| apply (visit_aborted rs category subcategory found (fs st)
                    (q ++ [EWaitForTimeout 1000]) n d (fs st3));
           [exact Hq' | exact Hits]].
      rewrite Htr3, Htr2, Htr1, <- !app_assoc. reflexivity.
    + eexists. split;
        [| apply (visit_out_of_fuel rs category subcategory found (fs st)
                    (q ++ [EWaitForTimeout 1000]) n d (fs st3));
           [exact Hq' | exact Hits]].
      rewrite Htr3, Htr2, Htr1, <- !app_assoc. reflexivity.
  - wp_steps. eexists. split;
      [| rewrite Hfs2, Hfs1;
         apply (visit_no_cards rs category subcategory found (fs st)
                  (q ++ [EWaitForTimeout 1000]) Hq')].
    rewrite Htr2, Htr1, <- !app_assoc. reflexivity.
Qed.

End Visit.

(** ** Where the loop of a subcategory starts, and what it goes into *)

Lemma zseq_cons (a : Z) (k : nat) : zseq a (S k) = a :: zseq (a + 1) k.
Proof.
  unfold zseq. simpl. f_equal; [lia|].
  rewrite <- seq_shift, map_map. apply map_ext. intros j. lia.
Qed.

Lemma resume_start_index target fresh (checkpoint : Checkpoint) category subcategory :
  let rs := resume_of target fresh checkpoint in
  (start_index rs category subcategory = 0
   \/ (ck_category checkpoint = Some (name category)
       /\ ck_subcategory checkpoint = Some (name subcategory)
       /\ start_index rs category subcategory
          = default 0 (ck_exhibitor_index checkpoint)))
  /\ (ck_category checkpoint <> Some (name category)
      \/ ck_subcategory checkpoint <> Some (name subcategory) ->
      start_index rs category subcategory = 0).
Proof.
  unfold start_index, resume_of, name_is. simpl.
  destruct (ck_category checkpoint) as [c|], (ck_subcategory checkpoint) as [s|];
    simpl; rewrite ?andb_false_r; try (split; [left; reflexivity | reflexivity]).
  destruct (String.eqb_spec (name category) c) as [<-|Hc],
           (String.eqb_spec (name subcategory) s) as [<-|Hs];
    rewrite ?andb_false_r;
    try (split; [left; reflexivity | reflexivity]).
  destruct (Py.truthy (name category) && Py.truthy (name subcategory)); simpl.
  - split; [right; auto|]. intros [Hne|Hne]; congruence.
  - split; [left; reflexivity | reflexivity].
Qed.

Section VisitFacts.

Variable rs : Resume.
Variables category subcategory : Category.

Lemma iteration_lookups v f d o f' :
  iteration rs category subcategory v f d o f' ->
  lookups d = match o with Some _ => [exhibitor_index v] | None => [] end.
Proof.
  inversion 1; subst; read_trace; try reflexivity;
    repeat match goal with Hq : lookups ?q = _ |- _ => rewrite Hq end;
    try destruct (name_matches rs _); reflexivity.
Qed.

Lemma aborted_lookups v f d f' :
  aborted rs category subcategory v f d f' -> lookups d = [exhibitor_index v].
Proof.
  inversion 1; subst; read_trace; try reflexivity;
    repeat match goal with Hq : lookups ?q = _ |- _ => rewrite Hq end;
    try destruct (name_matches rs _); reflexivity.
Qed.

Lemma iterations_lookups n v f d r f' :
  iterations rs category subcategory n v f d r f' ->
  exists k, lookups d = zseq (exhibitor_index v) k.
Proof.
  induction 1 as [v f Hge|v f Hlt|v f d f' Hlt Hit|v f d v' f' d' r f'' Hlt Hit _ IH
                 |v f d f' Hlt Hab].
  - exists 0%nat. reflexivity.
  - exists 0%nat. reflexivity.
  - exists 0%nat. now rewrite (iteration_lookups _ _ _ _ _ Hit).
  - destruct IH as (k & IH). exists (S k).
    rewrite lookups_app, (iteration_lookups _ _ _ _ _ Hit), IH, zseq_cons.
    now rewrite (iteration_next _ _ _ _ _ _ _ _ Hit).
  - exists 1%nat. rewrite (aborted_lookups _ _ _ _ Hab). unfold zseq. simpl.
    f_equal. lia.
Qed.

Lemma visit_lookups found f d r f' :
  visit rs category subcategory found f d r f' ->
  exists k, lookups d = zseq (start_index rs category subcategory) k.
Proof.
  inversion 1 as [q r0 Hq Hr|q Hq|q n d0 f0 Hq Hits|q n d0 v f0 Hq Hits
                 |q n d0 f0 Hq Hits]; subst.
  - exists 0%nat. now destruct (quiet_list _ Hq) as (_ & -> & _).
  - exists 0%nat. rewrite lookups_app.
    now destruct (quiet_list _ Hq) as (_ & -> & _).
  - destruct (iterations_lookups _ _ _ _ _ _ Hits) as (k & Hk). exists k.
    rewrite !lookups_app, Hk.
    now destruct (quiet_list _ Hq) as (_ & -> & _).
  - destruct (iterations_lookups _ _ _ _ _ _ Hits) as (k & Hk). exists k.
    rewrite !lookups_app, Hk.
    destruct (quiet_list _ Hq) as (_ & -> & _). simpl. now rewrite app_nil_r.
  - destruct (iterations_lookups _ _ _ _ _ _ Hits) as (k & Hk). exists k.
    rewrite !lookups_app, Hk.
    now destruct (quiet_list _ Hq) as (_ & -> & _).
Qed.

Lemma iteration_clicks v f d o f' rest :
  iteration rs category subcategory v f d o f' ->
  map fst (first_occurrences (seen_exhibitors v) (targets d ++ rest))
  = clicked d ++ map fst (first_occurrences (seen_after v o) rest).
Proof.
  inversion 1; subst; read_trace;
    repeat match goal with
           | Hq : targets ?q = _ |- _ => rewrite Hq
           | Hq : clicked ?q = _ |- _ => rewrite Hq
           end;
    try destruct (name_matches rs _); try reflexivity; simpl;
    first [ rewrite bool_decide_eq_true_2 by assumption; reflexivity
          | rewrite bool_decide_eq_false_2 by assumption; reflexivity ].
Qed.

Lemma stopped_before_click_app i d d' :
  stopped_before_click i d' -> stopped_before_click i (d ++ d').
Proof.
  intros (t & [-> | ->]); exists (d ++ t); rewrite app_assoc; auto.
Qed.

(** In an aborted iteration the card is clicked as well, unless it is the
    scroll or the click that raised. *)
Lemma aborted_clicks v f d f' rest :
  aborted rs category subcategory v f d f' ->
  exists seen cut,
    map fst (first_occurrences (seen_exhibitors v) (targets d ++ rest))
    = clicked d ++ cut ++ map fst (first_occurrences seen rest)
    /\ (cut = []
        \/ (cut = [exhibitor_index v]
            /\ stopped_before_click (exhibitor_index v) d)).
Proof.
  inversion 1 as [n c Hn Hc|n c h Hn Hc Hh|n c h Hn Hc Hh|n c h q u Hn Hc Hh Hq
                 |n c h q u Hn Hc Hh Hq|n c h q det Hn Hc Hh Hq Hf
                 |n c h q det Hn Hc Hh Hq Hf]; subst.
  - exists (seen_exhibitors v), []. split; [reflexivity | now left].
  - exists ({[Py.or_empty h]} ∪ seen_exhibitors v), [exhibitor_index v].
    split.
    + simpl. rewrite bool_decide_eq_false_2 by assumption. reflexivity.
    + right. split; [reflexivity|].
      exists [ECount cards n; EEvaluate; ECount (card_link (exhibitor_index v)) c;
              EGetAttribute (First (card_link (exhibitor_index v))) "href" h].
      left. reflexivity.
  - exists ({[Py.or_empty h]} ∪ seen_exhibitors v), [exhibitor_index v].
    split.
    + simpl. rewrite bool_decide_eq_false_2 by assumption. reflexivity.
    + right. split; [reflexivity|].
      exists [ECount cards n; EEvaluate; ECount (card_link (exhibitor_index v)) c;
              EGetAttribute (First (card_link (exhibitor_index v))) "href" h;
              EScroll (First (card_link (exhibitor_index v)))].
      right. reflexivity.
  - exists ({[Py.or_empty h]} ∪ seen_exhibitors v), []. split; [|now left].
    read_trace.
    repeat match goal with
           | Hx : targets ?q = _ |- _ => rewrite Hx
           | Hx : clicked ?q = _ |- _ => rewrite Hx
           end.
    simpl. rewrite bool_decide_eq_false_2 by assumption. reflexivity.
  - exists ({[Py.or_empty h]} ∪ seen_exhibitors v), []. split; [|now left].
    read_trace.
    repeat match goal with
           | Hx : targets ?q = _ |- _ => rewrite Hx
           | Hx : clicked ?q = _ |- _ => rewrite Hx
           end.
    simpl. rewrite bool_decide_eq_false_2 by assumption. reflexivity.
  - exists ({[Py.or_empty h]} ∪ seen_exhibitors v), []. split; [|now left].
    read_trace.
    repeat match goal with
           | Hx : targets ?q = _ |- _ => rewrite Hx
           | Hx : clicked ?q = _ |- _ => rewrite Hx
           end.
    destruct (name_matches rs det); simpl;
      rewrite bool_decide_eq_false_2 by assumption; reflexivity.
  - exists ({[Py.or_empty h]} ∪ seen_exhibitors v), []. split; [|now left].
    read_trace.
    repeat match goal with
           | Hx : targets ?q = _ |- _ => rewrite Hx
           | Hx : clicked ?q = _ |- _ => rewrite Hx
           end.
    simpl. rewrite bool_decide_eq_false_2 by assumption. reflexivity.
Qed.

Lemma iterations_clicks n v f d r f' rest :
  iterations rs category subcategory n v f d r f' ->
  exists seen cut,
    map fst (first_occurrences (seen_exhibitors v) (targets d ++ rest))
    = clicked d ++ cut ++ map fst (first_occurrences seen rest)
    /\ (cut = []
        \/ (r = TimeoutError
            /\ exists i, cut = [i] /\ stopped_before_click i d)).
Proof.
  induction 1 as [v f Hge|v f Hlt|v f d f' Hlt Hit|v f d v' f' d' r f'' Hlt Hit _ IH
                 |v f d f' Hlt Hab].
  - exists (seen_exhibitors v), []. split; [reflexivity | now left].
  - exists (seen_exhibitors v), []. split; [reflexivity | now left].
  - eexists _, []. split; [exact (iteration_clicks _ _ _ _ _ rest Hit) | now left].
  - destruct IH as (seen & cut & IH & Hcut). exists seen, cut. split.
    + rewrite targets_app, clicked_app, <- !app_assoc.
      rewrite (iteration_clicks _ _ _ _ _ _ Hit). simpl. now rewrite IH.
    + destruct Hcut as [-> | (-> & i & -> & Hs)]; [now left|].
      right. split; [reflexivity|]. exists i. split; [reflexivity|].
      now apply stopped_before_click_app.
  - destruct (aborted_clicks _ _ _ _ rest Hab) as (seen & cut & Heq & Hcut).
    exists seen, cut. split; [exact Heq|].
    destruct Hcut as [-> | (-> & Hs)]; [now left|]. right. eauto.
Qed.

(** The cards gone into in a visit are the first occurrences of the link
    targets read; when the scroll or the click raised at the last card,
    that card is the last first occurrence and was not gone into. *)
Lemma visit_clicks found f d r f' :
  visit rs category subcategory found f d r f' ->
  clicked d = map fst (first_occurrences ∅ (targets d))
  \/ exists i,
       r = TimeoutError /\ stopped_before_click i d
       /\ clicked d ++ [i] = map fst (first_occurrences ∅ (targets d)).
Proof.
  inversion 1 as [q r0 Hq Hr|q Hq|q n d0 f0 Hq Hits|q n d0 v f0 Hq Hits
                 |q n d0 f0 Hq Hits]; subst;
    rewrite ?targets_app, ?clicked_app;
    destruct (quiet_list _ Hq) as (_ & _ & Ht & Hc & _); rewrite ?Ht, ?Hc;
    try (left; reflexivity).
  - destruct (iterations_clicks _ _ _ _ _ _ [] Hits) as (seen & cut & Heq & Hcut).
    rewrite app_nil_r in Heq. simpl in *.
    destruct Hcut as [-> | (Hr & _)]; [|discriminate].
    left. now rewrite Heq, !app_nil_r.
  - destruct (iterations_clicks _ _ _ _ _ _ [] Hits) as (seen & cut & Heq & Hcut).
    rewrite app_nil_r in Heq. simpl in *.
    destruct Hcut as [-> | (Hr & _)]; [|discriminate].
    left. now rewrite !app_nil_r, Heq, !app_nil_r.
  - destruct (iterations_clicks _ _ _ _ _ _ [] Hits) as (seen & cut & Heq & Hcut).
    rewrite app_nil_r in Heq. simpl in *. rewrite app_nil_r in Heq.
    destruct Hcut as [-> | (_ & i & -> & Hs)].
    + left. now rewrite Heq, app_nil_r.
    + right. exists i. split_and!; [reflexivity| |now rewrite Heq].
      apply stopped_before_click_app.
      now apply (stopped_before_click_app i [_; _; _]).
Qed.

End VisitFacts.

Lemma first_occurrences_spec (seen : gset string) (l : list (Z * string)) i h :
  (i, h) ∈ first_occurrences seen l
  <-> exists before after,
        l = before ++ (i, h) :: after /\ (h ∉ seen) /\ (h ∉ before.*2).
Proof.
  revert seen. induction l as [|[j g] l IH]; intros seen; simpl.
  - split; [intros Hin; inversion Hin|].
    intros (before & after & Hl & _). destruct before; discriminate.
  - destruct (bool_decide_reflect (g ∈ seen)) as [Hg|Hg].
    + rewrite IH. split.
      * intros (before & after & -> & Hh & Hb).
        exists ((j, g) :: before), after. split_and!; [reflexivity|exact Hh|].
        simpl. set_solver.
      * intros (before & after & Hl & Hh & Hb). destruct before as [|p before];
          simplify_eq/=; [contradiction|].
        exists before, after. split_and!; [reflexivity|exact Hh|]. set_solver.
    + rewrite elem_of_cons, IH. split.
      * intros [Heq | (before & after & -> & Hh & Hb)].
        -- simplify_eq. exists [], l. split_and!; [reflexivity|exact Hg|].
           simpl. set_solver.
        -- exists ((j, g) :: before), after. split_and!; [reflexivity| |];
             simpl; set_solver.
      * intros (before & after & Hl & Hh & Hb). destruct before as [|p before];
          simplify_eq/=; [now left|].
        right. exists before, after. split_and!; [reflexivity| |]; set_solver.
Qed.

Section VisitTheorems.

Context {W : Type} `{Browser W}.

(** C2. For every loaded checkpoint (category C, subcategory S, index N)
    and every visit of a subcategory during the traversal: the cards the
    exhibitor loop looks at are those at the successive indices from the
    start index on, and the start index is N only if the name of the
    category being visited is C and the name of the subcategory being
    visited is S; for every other subcategory the start index is 0. *)
Theorem start_index_only_for_checkpoint_pair
    (target : string) (fresh : bool) (checkpoint : Checkpoint) (fuel : nat)
    (category subcategory : Category) (found : bool)
    (st st' : State W) (r : result bool) :
  let rs := resume_of target fresh checkpoint in
  visit_subcategory fuel rs category subcategory found st = (r, st') ->
  exists d k start,
    trace st' = trace st ++ d
    /\ lookups d = zseq start k
    /\ (start = 0
        \/ (ck_category checkpoint = Some (name category)
            /\ ck_subcategory checkpoint = Some (name subcategory)
            /\ start = default 0 (ck_exhibitor_index checkpoint)))
    /\ (ck_category checkpoint <> Some (name category)
        \/ ck_subcategory checkpoint <> Some (name subcategory) ->
        start = 0).
Proof.
  intros rs Hrun.
  destruct (wp_elim _ _ _ _ _
              (visit_subcategory_visit rs category subcategory fuel found st) Hrun)
    as (d & Htr & Hvisit).
  destruct (visit_lookups _ _ _ _ _ _ _ _ Hvisit) as (k & Hk).
  exists d, k, (start_index rs category subcategory).
  split_and!; [exact Htr | exact Hk | |];
    apply (resume_start_index target fresh checkpoint category subcategory).
Qed.

(** C9. Within one visit of a subcategory, of the card positions whose
    link target was read, the cards gone into (clicked, then extracted)
    are exactly those whose link target was not read at an earlier
    position in the same visit: of two positions with the same target
    only the first is processed, and the later one is passed over.  The
    visit starts from an empty set of seen targets whatever was processed
    before it, so a target met in another subcategory is processed
    again.  This holds for every visit, however it ends, but one: when
    the scroll or the click at a card raises the time-out, which ends the
    visit and the run, that card is the last first occurrence, and is the
    only one that was not gone into. *)
Theorem dedupe_within_subcategory_visit
    (fuel : nat) (rs : Resume) (category subcategory : Category) (found : bool)
    (st st' : State W) (r : result bool) :
  visit_subcategory fuel rs category subcategory found st = (r, st') ->
  exists d,
    trace st' = trace st ++ d
    /\ (clicked d = map fst (first_occurrences ∅ (targets d))
        \/ exists i,
             r = TimeoutError /\ stopped_before_click i d
             /\ clicked d ++ [i] = map fst (first_occurrences ∅ (targets d)))
    /\ forall i h,
        (i, h) ∈ first_occurrences ∅ (targets d)
        <-> exists before after,
              targets d = before ++ (i, h) :: after /\ (h ∉ before.*2).
Proof.
  intros Hrun.
  destruct (wp_elim _ _ _ _ _
              (visit_subcategory_visit rs category subcategory fuel found st) Hrun)
    as (d & Htr & Hvisit).
  exists d. split_and!; [exact Htr | exact (visit_clicks _ _ _ _ _ _ _ _ Hvisit) |].
  intros i h. rewrite first_occurrences_spec. split.
  - intros (before & after & Hl & _ & Hb). eauto.
  - intros (before & after & Hl & Hb). exists before, after.
    split_and!; [exact Hl | set_solver | exact Hb].
Qed.

End VisitTheorems.

(** ** The name-skip gate *)

Lemma csv_after_app bytes rows rows' :
  csv_after bytes (rows ++ rows') = csv_after (csv_after bytes rows) rows'.
Proof. unfold csv_after. apply fold_left_app. Qed.

Lemma gate_step_nil target found f : gate_step target found [] found f f.
Proof. split; reflexivity. Qed.

Lemma gate_step_app target a b c d1 d2 f f1 f2 :
  gate_step target a d1 b f f1 -> gate_step target b d2 c f1 f2 ->
  gate_step target a (d1 ++ d2) c f f2.
Proof.
  intros [Hw1 Hc1] [Hw2 Hc2]. split.
  - intros rest. rewrite extracted_app, appended_app, <- !app_assoc, Hw1, Hw2.
    reflexivity.
  - rewrite appended_app, csv_after_app, <- Hc1. exact Hc2.
Qed.

Lemma gate_step_silent target found d f f' :
  extracted d = [] -> appended d = [] -> csv_file f' = csv_file f ->
  gate_step target found d found f f'.
Proof. intros He Ha Hc. split; [intros rest|]; rewrite ?He, ?Ha; auto. Qed.

Lemma written_open target rows : written target true rows = rows.
Proof. induction rows as [|r rows IH]; simpl; [reflexivity | now rewrite IH]. Qed.

Lemma written_no_match target rows :
  (forall r, r ∈ rows -> row_matches target r = false) ->
  written target false rows = [].
Proof.
  induction rows as [|r rows IH]; intros Hno; simpl; [reflexivity|].
  rewrite (Hno r) by set_solver. apply IH. intros r' Hr'. apply Hno. set_solver.
Qed.

Lemma written_first_match target before m after :
  (forall r, r ∈ before -> row_matches target r = false) ->
  row_matches target m = true ->
  written target false (before ++ m :: after) = after.
Proof.
  induction before as [|r before IH]; intros Hno Hm; simpl.
  - rewrite Hm. apply written_open.
  - rewrite (Hno r) by set_solver. apply IH; [|exact Hm].
    intros r' Hr'. apply Hno. set_solver.
Qed.

Section GateSteps.

Variable rs : Resume.
Variables category subcategory : Category.

Lemma iteration_gate v f d o f' :
  iteration rs category subcategory v f d o f' ->
  gate_step (resume_after_name rs) (resume_name_found v) d (found_after v o) f f'.
Proof.
  inversion 1 as [n Hn|n Hn|n c h Hn Hc Hh|n c h q u Hn Hc Hh Hq
                  |n c h q u Hn Hc Hh Hq|n c h q det Hn Hc Hh Hq Hf
                  |n c h q det Hn Hc Hh Hq Hf]; subst;
    try (apply gate_step_silent; reflexivity).
  - apply gate_step_silent; read_trace;
      repeat match goal with
             | Hx : extracted _ = _ |- _ => rewrite Hx
             | Hx : appended _ = _ |- _ => rewrite Hx
             end; reflexivity.
  - apply gate_step_silent; read_trace;
      repeat match goal with
             | Hx : extracted _ = _ |- _ => rewrite Hx
             | Hx : appended _ = _ |- _ => rewrite Hx
             end; reflexivity.
  - assert (He : extracted (enter_card (exhibitor_index v) n c h ++ q
                  ++ [EExtracted (name category) (name subcategory)
                        (exhibitor_index v) (Some det)]
                  ++ (if name_matches rs det
                      then [EPrint ("Found resume company "
                                    +:+ Py.strip (d_company_name det)
                                    +:+ ", continuing")]
                      else [])
                  ++ leave_card category subcategory (exhibitor_index v))
                 = [row_of category subcategory det]).
    { read_trace.
      repeat match goal with Hx : extracted _ = _ |- _ => rewrite Hx end.
      destruct (name_matches rs det); reflexivity. }
    assert (Ha : appended (enter_card (exhibitor_index v) n c h ++ q
                  ++ [EExtracted (name category) (name subcategory)
                        (exhibitor_index v) (Some det)]
                  ++ (if name_matches rs det
                      then [EPrint ("Found resume company "
                                    +:+ Py.strip (d_company_name det)
                                    +:+ ", continuing")]
                      else [])
                  ++ leave_card category subcategory (exhibitor_index v))
                 = []).
    { read_trace.
      repeat match goal with Hx : appended _ = _ |- _ => rewrite Hx end.
      destruct (name_matches rs det); reflexivity. }
    split; [intros rest|]; rewrite ?He, ?Ha; [|reflexivity].
    simpl. rewrite Hf. reflexivity.
  - assert (He : extracted (enter_card (exhibitor_index v) n c h ++ q
                  ++ [EExtracted (name category) (name subcategory)
                        (exhibitor_index v) (Some det);
                      EAppendRow (row_of category subcategory det);
                      EPrint (Py.join " " ["Exhibitor"; d_company_name det; "|";
                                           d_booth det; "|"; d_phone det])]
                  ++ leave_card category subcategory (exhibitor_index v))
                 = [row_of category subcategory det]).
    { read_trace.
      repeat match goal with Hx : extracted _ = _ |- _ => rewrite Hx end.
      reflexivity. }
    assert (Ha : appended (enter_card (exhibitor_index v) n c h ++ q
                  ++ [EExtracted (name category) (name subcategory)
                        (exhibitor_index v) (Some det);
                      EAppendRow (row_of category subcategory det);
                      EPrint (Py.join " " ["Exhibitor"; d_company_name det; "|";
                                           d_booth det; "|"; d_phone det])]
                  ++ leave_card category subcategory (exhibitor_index v))
                 = [row_of category subcategory det]).
    { read_trace.
      repeat match goal with Hx : appended _ = _ |- _ => rewrite Hx end.
      reflexivity. }
    split; [intros rest|]; rewrite ?He, ?Ha; [|reflexivity].
    simpl. rewrite Hf. reflexivity.
Qed.

(** The gate along an aborted iteration: the row is written when the gate
    is open, and the way back is what raised. *)
Lemma aborted_gate v f d f' :
  aborted rs category subcategory v f d f' ->
  exists found',
    gate_step (resume_after_name rs) (resume_name_found v) d found' f f'.
Proof.
  inversion 1 as [n c Hn Hc|n c h Hn Hc Hh|n c h Hn Hc Hh|n c h q u Hn Hc Hh Hq
                 |n c h q u Hn Hc Hh Hq|n c h q det Hn Hc Hh Hq Hf
                 |n c h q det Hn Hc Hh Hq Hf]; subst.
  1-5: exists (resume_name_found v); apply gate_step_silent; read_trace;
       repeat match goal with
              | Hx : extracted _ = _ |- _ => rewrite Hx
              | Hx : appended _ = _ |- _ => rewrite Hx
              end; reflexivity.
  - exists (name_matches rs det). split.
    + intros rest. read_trace.
      repeat match goal with
             | Hx : extracted _ = _ |- _ => rewrite Hx
             | Hx : appended _ = _ |- _ => rewrite Hx
             end.
      destruct (name_matches rs det) eqn:Em; simpl; rewrite Hf;
        unfold name_matches in Em; unfold row_matches; simpl; now rewrite Em.
    + read_trace.
      repeat match goal with Hx : appended _ = _ |- _ => rewrite Hx end.
      destruct (name_matches rs det); reflexivity.
  - exists true. split.
    + intros rest. read_trace.
      repeat match goal with
             | Hx : extracted _ = _ |- _ => rewrite Hx
             | Hx : appended _ = _ |- _ => rewrite Hx
             end.
      simpl. rewrite Hf. reflexivity.
    + read_trace.
      repeat match goal with Hx : appended _ = _ |- _ => rewrite Hx end.
      reflexivity.
Qed.

Lemma iterations_gate n v f d r f' :
  iterations rs category subcategory n v f d r f' ->
  exists found',
    gate_step (resume_after_name rs) (resume_name_found v) d found' f f'
    /\ forall v', r = Ok v' -> resume_name_found v' = found'.
Proof.
  induction 1 as [v f Hge|v f Hlt|v f d f' Hlt Hit|v f d v' f' d' r f'' Hlt Hit _ IH
                 |v f d f' Hlt Hab].
  - exists (resume_name_found v). split; [apply gate_step_nil|]. now intros v' [= <-].
  - exists (resume_name_found v). split; [apply gate_step_nil | discriminate].
  - exists (resume_name_found v). split; [|now intros v' [= <-]].
    exact (iteration_gate _ _ _ _ _ Hit).
  - destruct IH as (found' & Hg & Hr). exists found'. split; [|exact Hr].
    eapply gate_step_app; [exact (iteration_gate _ _ _ _ _ Hit) | exact Hg].
  - destruct (aborted_gate _ _ _ _ Hab) as (found' & Hg).
    exists found'. split; [exact Hg | discriminate].
Qed.

Lemma gate_step_quiet found q f :
  Forall quiet q -> gate_step (resume_after_name rs) found q found f f.
Proof.
  intros Hq. destruct (quiet_list _ Hq) as (_ & _ & _ & _ & He & Ha).
  now apply gate_step_silent.
Qed.

Lemma visit_gate found f d r f' :
  visit rs category subcategory found f d r f' ->
  exists found',
    gate_step (resume_after_name rs) found d found' f f'
    /\ forall b, r = Ok b -> b = found'.
Proof.
  inversion 1 as [q r0 Hq Hr|q Hq|q n d0 f0 Hq Hits|q n d0 v f0 Hq Hits
                 |q n d0 f0 Hq Hits]; subst.
  - exists found. split; [now apply gate_step_quiet|]. intros b ->. now destruct (Hr b).
  - exists found. split; [|now intros b [= <-]].
    eapply gate_step_app; [now apply gate_step_quiet|].
    now apply gate_step_silent.
  - destruct (iterations_gate _ _ _ _ _ _ Hits) as (found' & Hg & _).
    exists found'. split; [|discriminate].
    eapply gate_step_app; [now apply gate_step_quiet|].
    eapply gate_step_app; [|exact Hg]. now apply gate_step_silent.
  - destruct (iterations_gate _ _ _ _ _ _ Hits) as (found' & Hg & Hr).
    exists found'. split; [|intros b [= <-]; now apply Hr].
    eapply gate_step_app; [now apply gate_step_quiet|].
    eapply gate_step_app; [now apply gate_step_silent|].
    eapply gate_step_app; [exact Hg|]. now apply gate_step_silent.
  - destruct (iterations_gate _ _ _ _ _ _ Hits) as (found' & Hg & _).
    exists found'. split; [|discriminate].
    eapply gate_step_app; [now apply gate_step_quiet|].
    eapply gate_step_app; [|exact Hg]. now apply gate_step_silent.
Qed.

End GateSteps.

Section GateLogic.

Context {W : Type}.
Variable target : string.

Lemma gate_ok_refl (st : State W) found : gate_ok target st found st found.
Proof. exists []. rewrite app_nil_r. split; [reflexivity | apply gate_step_nil]. Qed.

Lemma gate_to_refl (w : W) f t found :
  gate_to target (mkState w f t) found f t found.
Proof. apply (gate_ok_refl (mkState w f t)). Qed.

Lemma gate_ok_trans (st0 st1 st2 : State W) a b c :
  gate_ok target st0 a st1 b -> gate_ok target st1 b st2 c ->
  gate_ok target st0 a st2 c.
Proof.
  intros (d1 & Ht1 & Hg1) (d2 & Ht2 & Hg2). exists (d1 ++ d2). split.
  - rewrite Ht2, Ht1, app_assoc. reflexivity.
  - eapply gate_step_app; eauto.
Qed.

Lemma gate_to_snoc (st0 : State W) found0 f f2 t found e :
  gate_to target st0 found0 f t found -> gate_silent e ->
  csv_file f2 = csv_file f ->
  gate_to target st0 found0 f2 (t ++ [e]) found.
Proof.
  intros (d & -> & Hg) [He Ha] Hc. exists (d ++ [e]).
  rewrite app_assoc. split; [reflexivity|].
  eapply gate_step_app; [exact Hg|].
  apply gate_step_silent; [| |exact Hc]; unfold extracted, appended; simpl;
    now rewrite ?He, ?Ha.
Qed.

Lemma gate_to_event (st0 : State W) found0 f t found e :
  gate_to target st0 found0 f t found -> gate_silent e ->
  gate_to target st0 found0 f (t ++ [e]) found.
Proof. intros Hg He. eapply gate_to_snoc; eauto. Qed.

Lemma gate_to_save (st0 : State W) found0 f t found c s i :
  gate_to target st0 found0 f t found ->
  gate_to target st0 found0 (_save_checkpoint c s i f)
    (t ++ [ESaveCheckpoint c s i]) found.
Proof. intros Hg. eapply gate_to_snoc; eauto. now split. Qed.

Lemma quiet_gate_silent e : quiet e -> gate_silent e.
Proof. intros Hq. destruct (quiet_silent e Hq) as (_ & _ & _ & _ & He & Ha). now split. Qed.

Lemma gate_ok_extends (st0 st st1 : State W) found0 found :
  gate_ok target st0 found0 st found -> extends quiet st st1 ->
  gate_ok target st0 found0 st1 found.
Proof.
  intros Hok (Hfs & q & Htr & Hq). eapply gate_ok_trans; [exact Hok|].
  exists q. split; [exact Htr|].
  destruct (quiet_list _ Hq) as (_ & _ & _ & _ & He & Ha).
  apply gate_step_silent; auto. now rewrite Hfs.
Qed.

Lemma gate_post_trans (st0 st1 st2 : State W) a b r :
  gate_ok target st0 a st1 b -> gate_post target st1 b r st2 ->
  gate_post target st0 a r st2.
Proof.
  intros Hok (found' & Hok' & Hr). exists found'. split; [|exact Hr].
  eapply gate_ok_trans; eauto.
Qed.

Lemma gate_post_stop (st0 st : State W) found0 found (r : result bool) :
  gate_ok target st0 found0 st found -> (forall b, r = Ok b -> b = found) ->
  gate_post target st0 found0 r st.
Proof. intros Hok Hr. exists found. auto. Qed.

End GateLogic.

(** Closes a goal [gate_ok ...] or [gate_to ...] on a state that is a known
    one followed by a few events that are silent for the gate. *)
Ltac gate_done :=
  unfold gate_ok; cbn [fs trace];
  repeat first
    [ apply gate_to_save
    | apply gate_to_event;
      [| first [ split; reflexivity | apply quiet_gate_silent; simpl; exact I ] ] ];
  first [ apply gate_ok_refl | apply gate_to_refl | eassumption ].

(** ** The gate over the whole crawl *)

Section GateRun.

Context {W : Type} `{Browser W}.
Variable urljoin : string -> string -> string.
Variable rs : Resume.

Lemma visit_subcategory_gate fuel category subcategory found (st : State W) :
  wp (visit_subcategory fuel rs category subcategory found) st
    (gate_post (resume_after_name rs) st found).
Proof.
  eapply wp_mono; [apply visit_subcategory_visit|]. cbv beta.
  intros r st' (d & Htr & Hvisit).
  destruct (visit_gate _ _ _ _ _ _ _ _ Hvisit) as (found' & Hg & Hr).
  exists found'. split; [|exact Hr]. exists d. auto.
Qed.

Lemma subcategory_loop_gate fuel category subcategories started found
    (st : State W) :
  wp (subcategory_loop fuel rs category started found subcategories) st
    (gate_post (resume_after_name rs) st found).
Proof.
  revert started found st.
  induction subcategories as [|subcategory rest IH]; intros started found st; simpl.
  - wp_step. eapply gate_post_stop; [apply gate_ok_refl|]. now intros b [= <-].
  - destruct (resume_mode rs && name_is (name category) (resume_category rs)
              && negb started); [apply IH|].
    wp_step. eapply wp_mono; [apply visit_subcategory_gate|]. cbv beta.
    intros r st1 (found1 & Hok & Hr). destruct r as [b| |].
    + rewrite (Hr b eq_refl). eapply wp_mono; [apply IH|]. cbv beta.
      intros r st2. now apply gate_post_trans.
    + eapply gate_post_stop; [exact Hok | discriminate].
    + eapply gate_post_stop; [exact Hok | discriminate].
Qed.

Lemma visit_category_gate fuel category found (st : State W) :
  wp (visit_category urljoin fuel rs category found) st (gate_post (resume_after_name rs) st found).
Proof.
  unfold visit_category. wp_step.
  eapply wp_mono; [apply safe_goto_quiet|]. cbv beta.
  intros r st1 Hext.
  assert (H1 : gate_ok (resume_after_name rs) st found st1 found)
    by (eapply gate_ok_extends; [apply gate_ok_refl | exact Hext]).
  destruct r as [[]| |];
    [|eapply gate_post_stop; [exact H1 | discriminate]..].
  wp_steps.
  - eapply wp_mono; [apply extract_link_text_pairs_quiet; discriminate|]. cbv beta.
    intros r st2 (Hext2 & Hr2).
    assert (H2 : gate_ok (resume_after_name rs) st found st2 found).
    { eapply gate_ok_extends; [|exact Hext2]. gate_done. }
    destruct r as [subcategories| |];
      [|eapply gate_post_stop; [exact H2 | discriminate] | contradiction].
    wp_steps.
    eapply wp_mono; [apply subcategory_loop_gate|]. cbv beta.
    intros r st3. apply gate_post_trans.
    gate_done.
  - eapply gate_post_stop; [gate_done | now intros b [= <-]].
Qed.

Lemma category_loop_gate fuel categories started found (st : State W) :
  wp (category_loop urljoin fuel rs started found categories) st
    (gate_post (resume_after_name rs) st found).
Proof.
  revert started found st.
  induction categories as [|category rest IH]; intros started found st; simpl.
  - wp_step. eapply gate_post_stop; [apply gate_ok_refl|]. now intros b [= <-].
  - assert (Hvisit : forall started',
              wp (bind (visit_category urljoin fuel rs category found)
                    (fun found0 => category_loop urljoin fuel rs started' found0 rest))
                st (gate_post (resume_after_name rs) st found)).
    { intros started'. wp_step.
      eapply wp_mono; [apply visit_category_gate|]. cbv beta.
      intros r st1 (found1 & Hok & Hr). destruct r as [b| |].
      - rewrite (Hr b eq_refl). eapply wp_mono; [apply IH|]. cbv beta.
        intros r st2. now apply gate_post_trans.
      - eapply gate_post_stop; [exact Hok | discriminate].
      - eapply gate_post_stop; [exact Hok | discriminate]. }
    destruct (negb started); [|apply Hvisit].
    destruct (name_is (name category) (resume_category rs)); [apply Hvisit | apply IH].
Qed.

End GateRun.

Section GateTheorem.

Context {W : Type} `{Browser W}.
Variable urljoin : string -> string -> string.

Lemma iteration_discard rs category subcategory v f d o f' :
  iteration rs category subcategory v f d o f' ->
  resume_name_found v = false -> extracted d <> [] ->
  exists det v',
    extracted d = [mkRow (name category) (name subcategory) det]
    /\ appended d = []
    /\ o = Some v'
    /\ exhibitor_index v' = exhibitor_index v + 1
    /\ resume_name_found v' = name_matches rs det
    /\ f' = _save_checkpoint (name category) (name subcategory)
              (exhibitor_index v + 1) f.
Proof.
  intros Hit Hfound Hex.
  pose proof (iteration_gate _ _ _ _ _ _ _ _ Hit) as [Hw _].
  inversion Hit as [n Hn|n Hn|n c h Hn Hc Hh|n c h q u Hn Hc Hh Hq
                    |n c h q u Hn Hc Hh Hq|n c h q det Hn Hc Hh Hq Hf
                    |n c h q det Hn Hc Hh Hq Hf]; subst;
    try congruence;
    try (exfalso; apply Hex; read_trace;
         repeat match goal with Hx : extracted _ = _ |- _ => rewrite Hx end;
         reflexivity).
  exists det. eexists. split_and!; try reflexivity.
  - read_trace.
    repeat match goal with Hx : extracted _ = _ |- _ => rewrite Hx end.
    destruct (name_matches rs det); reflexivity.
  - read_trace.
    repeat match goal with Hx : appended _ = _ |- _ => rewrite Hx end.
    destruct (name_matches rs det); reflexivity.
Qed.

Lemma run_gate (target : string) (fuel : nat) (fresh : bool) (st : State W) :
  let T : string := if fresh then "" else Py.lower (Py.strip target) in
  wp (run urljoin target fuel false false fresh) st
    (fun _ st' =>
       exists found',
         gate_ok T (mkState (page st) (_init_csv (fs st)) (trace st))
           (negb (Py.truthy T)) st' found').
Proof.
  intros T. unfold run.
  destruct fresh; wp_steps.
  all: eapply wp_mono; [apply safe_goto_quiet|]; cbv beta; intros r st2 Hext.
  all: assert (H2 : gate_ok T (mkState (page st) (_init_csv (fs st)) (trace st))
                      (negb (Py.truthy T)) st2 (negb (Py.truthy T)))
         by (eapply gate_ok_extends; [|exact Hext]; gate_done).
  all: destruct r as [[]| |]; [|eauto..].
  all: wp_steps; [|eexists; gate_done].
  all: eapply wp_mono; [apply extract_link_text_pairs_quiet; discriminate|];
       cbv beta; intros r st3 (Hext3 & Hr3).
  all: assert (H3 : gate_ok T (mkState (page st) (_init_csv (fs st)) (trace st))
                      (negb (Py.truthy T)) st3 (negb (Py.truthy T)))
         by (eapply gate_ok_extends; [|exact Hext3]; gate_done).
  all: destruct r as [categories| |]; [|eauto | contradiction].
  all: wp_steps.
  all: eapply wp_mono; [apply category_loop_gate|];
       cbv beta; intros r st4 (found4 & Hok4 & _).
  all: assert (H4 : gate_ok T (mkState (page st) (_init_csv (fs st)) (trace st))
                      (negb (Py.truthy T)) st4 found4)
         by (eapply gate_ok_trans; [|exact Hok4]; gate_done).
  all: destruct r as [b| |]; [|eauto..].
  all: wp_steps; eexists; gate_done.
Qed.

(** C1. The name-skip gate.  For every target name and every crawl (the
    default mode of [run], with or without the fresh flag, however it
    ends): let [T] be the target as the program compares it, trimmed and
    in lower case, and empty under the fresh flag; a record matches when
    its company name, trimmed and in lower case, is equal to [T].  The
    rows written to the sink are, of the records extracted in order,
    none up to and including the first record that matches, and every
    record after it; they are all the records when there is no target,
    and none when no record matches.  The output file is the initialised
    file with exactly these rows appended.  And in every iteration of the
    exhibitor loop that extracts a record while the gate is active, no
    row is written, the index advances by one, the checkpoint file is
    overwritten with the category, the subcategory and the new index, and
    the gate opens exactly when the record matches. *)
Theorem name_skip_gate (target : string) (fuel : nat) (fresh : bool)
    (st st' : State W) (r : result unit) :
  run urljoin target fuel false false fresh st = (r, st') ->
  let T : string := if fresh then "" else Py.lower (Py.strip target) in
  (exists d,
      trace st' = trace st ++ d
      /\ csv_file (fs st') = csv_after (csv_file (_init_csv (fs st))) (appended d)
      /\ appended d = written T (negb (Py.truthy T)) (extracted d)
      /\ (T = "" -> appended d = extracted d)
      /\ (T <> "" ->
          (forall row, row ∈ extracted d -> row_matches T row = false) ->
          appended d = [])
      /\ (T <> "" ->
          forall before m after,
            extracted d = before ++ m :: after ->
            (forall row, row ∈ before -> row_matches T row = false) ->
            row_matches T m = true ->
            appended d = after))
  /\ (forall rs category subcategory v (st0 st1 : State W) o d,
        resume_name_found v = false ->
        exhibitor_body rs category subcategory v st0 = (Ok o, st1) ->
        trace st1 = trace st0 ++ d ->
        extracted d <> [] ->
        exists det v',
          extracted d = [mkRow (name category) (name subcategory) det]
          /\ appended d = []
          /\ csv_file (fs st1) = csv_file (fs st0)
          /\ o = Some v'
          /\ exhibitor_index v' = exhibitor_index v + 1
          /\ resume_name_found v'
             = String.eqb (Py.lower (Py.strip (d_company_name det)))
                 (resume_after_name rs)
          /\ checkpoint_file (fs st1)
             = Some (mkCheckpoint (Some (name category)) (Some (name subcategory))
                       (Some (exhibitor_index v + 1)))).
Proof.
  intros Hrun T. split.
  - pose proof (run_gate target fuel fresh st) as Hg.
    cbv zeta in Hg. unfold wp in Hg. rewrite Hrun in Hg.
    destruct Hg as (found' & d & Htr & Hw & Hcsv).
    cbn [fs trace fst snd] in Htr, Hw, Hcsv. fold T in Hw.
    pose proof (Hw []) as Hw0. rewrite !app_nil_r in Hw0.
    assert (Hwritten : appended d = written T (negb (Py.truthy T)) (extracted d)).
    { rewrite Hw0. destruct found'; reflexivity. }
    exists d. split_and!; [exact Htr | exact Hcsv | exact Hwritten | | |].
    + intros HT. rewrite Hwritten, HT. apply written_open.
    + intros HT Hno. rewrite Hwritten.
      destruct T; [congruence|]. now apply written_no_match.
    + intros HT before m after Hex Hno Hm. rewrite Hwritten, Hex.
      destruct T; [congruence|]. now apply written_first_match.
  - intros rs category subcategory v st0 st1 o d Hfound Hbody Htr Hex.
    destruct (wp_elim _ _ _ _ _
                (exhibitor_body_iteration rs category subcategory v st0) Hbody)
      as (d0 & Htr0 & Hit).
    simpl in Hit.
    rewrite Htr in Htr0. apply app_inv_head in Htr0. subst d0.
    destruct (iteration_discard _ _ _ _ _ _ _ _ Hit Hfound Hex)
      as (det & v' & He & Ha & Ho & Hi & Hf & Hfs).
    exists det, v'. rewrite Hfs. split_and!; auto.
Qed.

End GateTheorem.

(** ** Skipping subcategories when resuming *)

Section Skipping.

Context {W : Type} `{Browser W}.

Lemma subcategory_loop_started fuel rs category found subcategories (st : State W) :
  subcategory_loop fuel rs category true found subcategories st
  = visit_every fuel rs category found subcategories st.
Proof.
  revert found st. induction subcategories as [|subcategory rest IH];
    intros found st; simpl; [reflexivity|].
  rewrite andb_false_r. unfold bind.
  destruct (visit_subcategory fuel rs category subcategory found st) as [[b| |] st1];
    auto.
Qed.


End Skipping.


(** ** Records that are incomplete or time out *)

Lemma truthy_nonempty (s : string) : Py.truthy s = true <-> s <> "".
Proof. destruct s; simpl; split; congruence. Qed.

Lemma details_if_complete_some a b c d e f det :
  details_if_complete a b c d e f = Some det
  <-> det = mkDetails a b c d e f
      /\ a <> "" /\ b <> "" /\ c <> "" /\ d <> "" /\ e <> "" /\ f <> "".
Proof.
  unfold details_if_complete. simpl. rewrite <- !truthy_nonempty.
  destruct (Py.truthy a), (Py.truthy b), (Py.truthy c), (Py.truthy d),
    (Py.truthy e), (Py.truthy f); simpl; split;
    try discriminate; try (intros (_ & ? & ? & ? & ? & ? & ?); discriminate).
  - intros [= <-]. auto 10.
  - intros (-> & _). reflexivity.
Qed.



Section Skips.

Context {W : Type} `{Browser W}.



(** A detail page without the contact block: the read of its inner text
    (line 107) times out inside the [try] of lines 308-313, so the card is
    passed over with the message of the time-out, not with the message of
    the missing fields, and the loop goes on with the next index. *)
Example page_without_contact_block_times_out :
  let contact := Loc "article#js-vue-contactinfo" in
  let on_detail :=
    mkState (Sim.mkWorld Demo.ghost "/x/ghost" ["/g"] 0) Demo.no_files [] in
  let on_cards := mkState (Sim.mkWorld Demo.ghost "/g" [] 0) Demo.no_files [] in
  let once :=
    exhibitor_body (resume_of "" true empty_checkpoint)
      (mkCategory "A" "/a") (mkCategory "G" "/g") (mkVars 0 ∅ true) on_cards in
  fst (_extract_exhibitor_details on_detail) = TimeoutError
  /\ trace (snd (_extract_exhibitor_details on_detail))
     = [EWaitForSelector ".exhibitor-name" true;
        ETextContent (First (Loc ".exhibitor-name")) (Some "Ghost");
        ECount (Sub contact "address p") 0;
        ECount (Sub contact "a[href^='http']") 0;
        ERaised (CInnerText contact)]
  /\ printed (trace (snd once)) = ["Skipping exhibitor /x/ghost due to timeout"]
  /\ appended (trace (snd once)) = []
  /\ exhibitor_index <$> (match fst once with Ok o => o | _ => None end) = Some 1.
Proof. vm_compute. split_and!; reflexivity. Qed.

End Skips.

(** ** The list-categories mode *)

Lemma printed_app d d' : printed (d ++ d') = printed d ++ printed d'.
Proof. apply omap_app. Qed.

Lemma printed_names (categories : list Category) :
  printed (map (fun c => EPrint (name c)) categories) = map name categories.
Proof.
  induction categories as [|c rest IH]; [reflexivity|].
  unfold printed. simpl. f_equal. exact IH.
Qed.

Lemma quiet_printed q : Forall quiet q -> printed q = [].
Proof.
  induction 1 as [|e q He _ IH]; [reflexivity|].
  destruct e; simpl in He; try contradiction; exact IH.
Qed.

Lemma appended_prints (categories : list Category) :
  appended (map (fun c => EPrint (name c)) categories) = [].
Proof.
  induction categories as [|c rest IH]; [reflexivity|]. exact IH.
Qed.

Section ListCategories.

Context {W : Type} `{Browser W}.
Variable urljoin : string -> string -> string.

Lemma print_names (categories : list Category) (st : State W) :
  wp (for_each categories (fun category _ => print (name category)) tt) st
    (fun r st' =>
       r = Ok tt /\ fs st' = fs st
       /\ trace st' = trace st ++ map (fun c => EPrint (name c)) categories).
Proof.
  revert st. induction categories as [|c rest IH]; intros st; simpl.
  - wp_step. now rewrite app_nil_r.
  - wp_steps. eapply wp_mono; [apply IH|]. cbv beta. cbn [fs trace].
    intros r st' (-> & Hfs & Htr). split_and!; auto.
    now rewrite Htr, <- app_assoc.
Qed.

Lemma run_list_categories (target : string) (fuel : nat)
    (list_subcategories fresh : bool) (st : State W) :
  wp (run urljoin target fuel true list_subcategories fresh) st
    (fun r st' =>
       fs st' = _init_csv (fs st)
       /\ exists d,
           trace st' = trace st ++ d
           /\ appended d = []
           /\ match r with
              | Ok _ =>
                  exists before answers,
                    d = before ++ listing_of urljoin answers
                    /\ printed before = []
                    /\ printed d
                       = ("Found "
                          +:+ pretty (length (List.filter not_view_all
                                                (omap (pair_of urljoin) answers)))
                          +:+ " categories")
                         :: map name (List.filter not_view_all
                                        (omap (pair_of urljoin) answers))
              | _ => True
              end).
Proof.
  unfold run. destruct fresh; wp_steps.
  all: eapply wp_mono; [apply safe_goto_quiet|]; cbv beta; cbn [fs trace];
       intros r st2 (Hfs2 & q2 & Htr2 & Hq2); cbn [fs trace] in Hfs2, Htr2.
  all: pose proof (quiet_list _ Hq2) as (_ & _ & _ & _ & _ & Ha2).
  all: destruct r as [[]| |];
       [| split; [exact Hfs2|]; eexists;
          (split_and!;
           [rewrite Htr2, <- ?app_assoc; reflexivity
           | rewrite ?appended_app, Ha2; reflexivity
           | exact I])..].
  all: wp_steps;
       [| split; [exact Hfs2|]; eexists;
          (split_and!;
           [rewrite Htr2, <- ?app_assoc; reflexivity
           | rewrite ?appended_app, Ha2; reflexivity
           | exact I])].
  all: eapply wp_mono;
       [apply wp_conj;
        [apply extract_link_text_pairs_quiet; discriminate
        | apply extract_link_text_pairs_reads]|];
       cbv beta; cbn [fs trace];
       intros r st3 (((Hfs3 & q3 & Htr3 & Hq3) & Hr3) & (_ & answers & Hreads)).
  all: pose proof (quiet_list _ Hq3) as (_ & _ & _ & _ & _ & Ha3).
  all: cbn [fs trace] in Hfs3, Htr3, Hreads.
  all: destruct r as [found| |];
       [| split; [congruence|]; eexists;
          (split_and!;
           [rewrite Htr3, Htr2, <- ?app_assoc; reflexivity
           | rewrite ?appended_app, Ha2, Ha3; reflexivity
           | exact I])
        | contradiction].
  all: destruct Hreads as (-> & Hreads).
  all: assert (Hq3' : q3 = ECount (Loc CATEGORY_LINK_SELECTOR) (length answers)
                          :: link_reads (Loc CATEGORY_LINK_SELECTOR) answers)
         by (rewrite Htr3 in Hreads; now apply app_inv_head in Hreads).
  all: wp_steps.
  all: eapply wp_mono; [apply print_names|]; cbv beta; cbn [fs trace];
       intros r st4 (-> & Hfs4 & Htr4); cbn [fs trace] in Hfs4, Htr4.
  all: wp_steps.
  all: split; [congruence|].
  all: eexists; split_and!;
       [ rewrite Htr4, Htr3, Htr2, <- ?app_assoc; reflexivity
       | rewrite ?appended_app, ?Ha2, ?Ha3, ?appended_prints; simpl;
         rewrite ?app_nil_r; reflexivity
       | ].
  - exists ([EInitCsv] ++ q2 ++ [EWaitForTimeout 1500]
            ++ [EWaitForSelector CATEGORY_LINK_SELECTOR true]), answers.
    split_and!.
    + unfold listing_of. rewrite Hq3'. simpl. rewrite <- ?app_assoc. simpl.
      reflexivity.
    + rewrite ?printed_app, (quiet_printed _ Hq2). reflexivity.
    + rewrite ?printed_app, ?(quiet_printed _ Hq2), ?(quiet_printed _ Hq3),
        ?printed_names; simpl; rewrite ?app_nil_r; reflexivity.
  - exists ([EInitCsv] ++ [ELoadCheckpoint] ++ q2 ++ [EWaitForTimeout 1500]
            ++ [EWaitForSelector CATEGORY_LINK_SELECTOR true]), answers.
    split_and!.
    + unfold listing_of. rewrite Hq3'. simpl. rewrite <- ?app_assoc. simpl.
      reflexivity.
    + rewrite ?printed_app, (quiet_printed _ Hq2). reflexivity.
    + rewrite ?printed_app, ?(quiet_printed _ Hq2), ?(quiet_printed _ Hq3),
        ?printed_names; simpl; rewrite ?app_nil_r; reflexivity.
Qed.

(** C7, as amended.  In list-categories mode the program prints the
    count line and then the name of every category found, one per line,
    and exits: when the run returns, its trace ends with the read of the
    category links of the page on display, with the answers of the page,
    followed by the count line and by one line for each category made of
    these answers, in the order of the page and without the view-all
    entry, and by the closing of the browser; nothing else is printed.
    No row is appended; the checkpoint file is left as it was, and so is
    the output file when it exists; when the output file does not exist,
    the mode creates it, holding the header row only. *)
Theorem list_categories_leaves_checkpoint_and_existing_output
    (target : string) (fuel : nat) (list_subcategories fresh : bool)
    (st st' : State W) (r : result unit) :
  run urljoin target fuel true list_subcategories fresh st = (r, st') ->
  checkpoint_file (fs st') = checkpoint_file (fs st)
  /\ csv_file (fs st') = Some (default (csv_line CSV_HEADERS) (csv_file (fs st)))
  /\ exists d,
      trace st' = trace st ++ d
      /\ appended d = []
      /\ match r with
         | Ok _ =>
             exists before answers,
               d = before ++ listing_of urljoin answers
               /\ printed before = []
               /\ printed d
                  = ("Found "
                     +:+ pretty (length (List.filter not_view_all
                                           (omap (pair_of urljoin) answers)))
                     +:+ " categories")
                    :: map name (List.filter not_view_all
                                   (omap (pair_of urljoin) answers))
         | _ => True
         end.
Proof.
  intros Hrun.
  destruct (wp_elim _ _ _ _ _
              (run_list_categories target fuel list_subcategories fresh st) Hrun)
    as (Hfs & d & Htr & Ha & Hprint).
  rewrite Hfs. split_and!.
  - unfold _init_csv. now destruct (csv_file (fs st)).
  - unfold _init_csv. destruct (csv_file (fs st)) eqn:Ecsv; simpl;
      rewrite ?Ecsv; reflexivity.
  - exists d. auto.
Qed.

End ListCategories.

(** The claim C7 as it is stated fails when the output file does not exist:
    the mode creates it.  On the site [Demo.site1], started with neither
    file: the run returns normally, and afterwards the output file exists
    and holds the header row. *)
Lemma list_categories_creates_output_file :
  let st0 := Sim.start Demo.site1 0 Demo.no_files in
  let run_it := main Sim.urljoin 10 true false false st0 in
  fst run_it = Ok tt
  /\ csv_file (fs st0) = None
  /\ csv_file (fs (snd run_it))
     = Some ("category,subcategory,company_name,address,website,phone,description,booth"
             +:+ CRLF)
  /\ fs (snd run_it) <> fs st0.
Proof.
  cbv zeta. split_and!; try (vm_compute; reflexivity).
  intros Heq. apply (f_equal csv_file) in Heq. vm_compute in Heq. discriminate.
Qed.

(** ** The theorems at work on the simulated sites *)

Lemma name_skip_gate_witness :
  let st0 := Sim.start Demo.site1 1 Demo.no_files in
  let run_it := run Sim.urljoin RESUME_AFTER_COMPANY_NAME 10 false false false st0 in
  fst run_it = Ok tt
  /\ map (fun r => d_company_name (row_details r)) (extracted (trace (snd run_it)))
     = ["Acme"; "STEDMAN Machine Company"; "Zed"; "Zed"; "Acme"]
  /\ map (fun r => d_company_name (row_details r)) (appended (trace (snd run_it)))
     = ["Zed"; "Zed"; "Acme"]
  /\ exists d,
      trace (snd run_it) = trace st0 ++ d
      /\ appended d = written "stedman machine company" false (extracted d).
Proof.
  intros st0 run_it. split_and!; try (vm_compute; reflexivity).
  destruct (name_skip_gate Sim.urljoin RESUME_AFTER_COMPANY_NAME 10 false
              st0 (snd run_it) (fst run_it) (surjective_pairing run_it))
    as [(d & Htr & _ & Hw & _) _].
  exists d. split; [exact Htr | exact Hw].
Defined.

Lemma start_index_only_for_checkpoint_pair_witness :
  let checkpoint := mkCheckpoint (Some "A") (Some "S2") (Some 1) in
  let st0 := Sim.start Demo.site1 0 Demo.no_files in
  let visit_it := visit_subcategory 10 (resume_of "" false checkpoint)
                    (mkCategory "A" "/a") (mkCategory "S2" "/a/s2") true st0 in
  fst visit_it = Ok true
  /\ lookups (trace (snd visit_it)) = [1; 2]
  /\ exists d k start,
      trace (snd visit_it) = trace st0 ++ d
      /\ lookups d = zseq start k
      /\ (start = 0
          \/ (ck_category checkpoint = Some "A"
              /\ ck_subcategory checkpoint = Some "S2"
              /\ start = default 0 (ck_exhibitor_index checkpoint)))
      /\ (ck_category checkpoint <> Some "A" \/ ck_subcategory checkpoint <> Some "S2" ->
          start = 0).
Proof.
  intros checkpoint st0 visit_it. split_and!; try (vm_compute; reflexivity).
  exact (start_index_only_for_checkpoint_pair "" false checkpoint 10
           (mkCategory "A" "/a") (mkCategory "S2" "/a/s2") true
           st0 (snd visit_it) (fst visit_it) (surjective_pairing visit_it)).
Defined.


Lemma safe_goto_bounded_retries_witness :
  let st0 := Sim.start Demo.site1 2 Demo.no_files in
  let go := _safe_goto 5 "/a" 2 st0 in
  0 <= 2
  /\ (Z.to_nat 2 < 5)%nat
  /\ fst go = Ok tt
  /\ trace (snd go) = [EGoto "/a" false; EGoto "/a" false; EGoto "/a" true]
  /\ fs (snd go) = fs st0
  /\ exists failures : nat,
      (fst go = Ok tt
       /\ (failures <= Z.to_nat 2)%nat
       /\ trace (snd go)
          = trace st0 ++ repeat (EGoto "/a" false) failures ++ [EGoto "/a" true])
      \/ (fst go = TimeoutError
          /\ failures = S (Z.to_nat 2)
          /\ trace (snd go) = trace st0 ++ repeat (EGoto "/a" false) failures).
Proof.
  intros st0 go. split; [lia|]. split; [simpl; lia|].
  split; [vm_compute; reflexivity|]. split; [vm_compute; reflexivity|].
  apply (safe_goto_bounded_retries 5 "/a" 2 st0 (snd go) (fst go));
    [lia | simpl; lia |].
  exact (surjective_pairing go).
Defined.

Lemma list_categories_leaves_checkpoint_and_existing_output_witness :
  let files := mkFS (Some "kept") (checkpoint_file Demo.at_C_S) in
  let st0 := Sim.start Demo.site1 0 files in
  let run_it := run Sim.urljoin RESUME_AFTER_COMPANY_NAME 10 true false false st0 in
  fst run_it = Ok tt
  /\ printed (trace (snd run_it)) = ["Found 2 categories"; "A"; "B"]
  /\ fs (snd run_it) = files
  /\ checkpoint_file (fs (snd run_it)) = checkpoint_file (fs st0)
  /\ csv_file (fs (snd run_it))
     = Some (default (csv_line CSV_HEADERS) (csv_file (fs st0))).
Proof.
  intros files st0 run_it.
  split; [vm_compute; reflexivity|]. split; [vm_compute; reflexivity|].
  split; [vm_compute; reflexivity|].
  destruct (list_categories_leaves_checkpoint_and_existing_output Sim.urljoin
              RESUME_AFTER_COMPANY_NAME 10 false false
              st0 (snd run_it) (fst run_it) (surjective_pairing run_it))
    as (Hck & Hcsv & _).
  split; [exact Hck | exact Hcsv].
Defined.

Lemma dedupe_within_subcategory_visit_witness :
  let st0 := Sim.start Demo.site1 0 Demo.no_files in
  let visit_it := visit_subcategory 10 (resume_of "" true empty_checkpoint)
                    (mkCategory "A" "/a") (mkCategory "S2" "/a/s2") true st0 in
  fst visit_it = Ok true
  /\ targets (trace (snd visit_it)) = [(0, "/x/bolt"); (1, "/x/zed"); (2, "/x/zed")]
  /\ clicked (trace (snd visit_it)) = [0; 1]
  /\ exists d,
      trace (snd visit_it) = trace st0 ++ d
      /\ (clicked d = map fst (first_occurrences ∅ (targets d))
          \/ exists i,
               fst visit_it = TimeoutError /\ stopped_before_click i d
               /\ clicked d ++ [i] = map fst (first_occurrences ∅ (targets d))).
Proof.
  intros st0 visit_it. split_and!; try (vm_compute; reflexivity).
  destruct (dedupe_within_subcategory_visit 10 (resume_of "" true empty_checkpoint)
              (mkCategory "A" "/a") (mkCategory "S2" "/a/s2") true
              st0 (snd visit_it) (fst visit_it) (surjective_pairing visit_it))
    as (d & Htr & Hc & _).
  exists d. split; [exact Htr | exact Hc].
Defined.

Lemma exhibitor_loop_terminates_witness :
  let rs := resume_of "" true empty_checkpoint in
  let category := mkCategory "A" "/a" in
  let subcategory := mkCategory "S2" "/a/s2" in
  let st0 := mkState (Sim.mkWorld Demo.site1 "/a/s2" [] 0) Demo.no_files [] in
  let v := mkVars 0 ∅ true in
  let whole := exhibitor_loop 3 rs category subcategory 3 v st0 in
  (Z.to_nat (Z.of_nat 3 - exhibitor_index v) <= 3)%nat
  /\ fst whole = Ok (mkVars 3 {["/x/bolt"; "/x/zed"]} true)
  /\ entries (trace (snd whole)) = 3%nat
  /\ fst whole <> OutOfFuel
  /\ exists d,
      trace (snd whole) = trace st0 ++ d
      /\ Z.of_nat (entries d) <= Z.max 0 (Z.of_nat 3 - exhibitor_index v)
      /\ match fst whole with
         | Ok v' => exhibitor_index v <= exhibitor_index v'
         | _ => True
         end.
Proof.
  intros rs category subcategory st0 v whole.
  split; [simpl; lia|]. split; [vm_compute; reflexivity|].
  split; [vm_compute; reflexivity|].
  apply (proj2 (exhibitor_loop_terminates rs category subcategory 3 v st0)).
  simpl. lia.
Defined.

(** ** [_dedupe] and [_extract_links] *)

Lemma dedupe_fold (values : list string) (seen : gset string) (ordered : list string) :
  (forall x, x ∈ seen <-> x ∈ ordered) ->
  NoDup ordered ->
  "" ∉ ordered ->
  let out := fold_left _dedupe_step values (seen, ordered) in
  (forall x, x ∈ fst out <-> x ∈ snd out)
  /\ NoDup (snd out)
  /\ ("" ∉ snd out)
  /\ (forall x, x ∈ snd out <-> x ∈ ordered \/ (x ∈ values /\ x <> ""))
  /\ exists added, snd out = ordered ++ added /\ added `sublist_of` values.
Proof.
  revert seen ordered. induction values as [|v values IH];
    intros seen ordered Hseen Hnd Hne; simpl.
  - split_and!; auto.
    + intros x. split; [auto | intros [Hx | [Hx _]]; [exact Hx | inversion Hx]].
    + exists []. now rewrite app_nil_r.
  - destruct (Py.truthy v && negb (bool_decide (v ∈ seen))) eqn:Hv.
    + apply andb_true_iff in Hv as [Hv1 Hv2].
      apply negb_true_iff, bool_decide_eq_false in Hv2.
      assert (Hv0 : v <> "") by (destruct v; [discriminate | congruence]).
      destruct (IH ({[v]} ∪ seen) (ordered ++ [v])) as (I1 & I2 & I3 & I4 & added & I5 & I6).
      * intros x. rewrite elem_of_union, elem_of_singleton, elem_of_app,
          list_elem_of_singleton, Hseen. tauto.
      * apply NoDup_app. split_and!; [exact Hnd | | apply NoDup_singleton].
        intros x Hx Hx'. apply list_elem_of_singleton in Hx'. subst x.
        apply Hv2, Hseen, Hx.
      * rewrite elem_of_app, list_elem_of_singleton. intros [Hx | Hx]; auto.
      * split_and!; auto.
        -- intros x. rewrite I4, elem_of_app, list_elem_of_singleton, elem_of_cons.
           split; [intros [[Hx | ->] | [Hx Hx0]] | intros [Hx | [[-> | Hx] Hx0]]];
             auto.
        -- exists (v :: added). rewrite I5, <- app_assoc. split; [reflexivity|].
           now apply sublist_skip.
    + destruct (IH seen ordered Hseen Hnd Hne) as (I1 & I2 & I3 & I4 & added & I5 & I6).
      split_and!; auto.
      * intros x. rewrite I4, elem_of_cons.
        split; [intros [Hx | [Hx Hx0]] | intros [Hx | [[-> | Hx] Hx0]]]; auto.
        apply andb_false_iff in Hv as [Hv | Hv].
        -- destruct v; [congruence | discriminate].
        -- apply negb_false_iff, bool_decide_eq_true in Hv. left.
           now apply Hseen.
      * exists added. split; [exact I5|]. now apply sublist_cons.
Qed.

(** X1. [_dedupe] returns the values of its argument that are not empty,
    each once, in the order of the argument. *)
Theorem dedupe_distinct_nonempty_in_order (values : list string) :
  NoDup (_dedupe values)
  /\ (forall x, x ∈ _dedupe values <-> x ∈ values /\ x <> "")
  /\ _dedupe values `sublist_of` values.
Proof.
  unfold _dedupe.
  destruct (dedupe_fold values ∅ []) as (_ & H2 & _ & H4 & added & H5 & H6).
  - intros x. split; [intros Hx; now apply not_elem_of_empty in Hx | intros Hx; inversion Hx].
  - constructor.
  - intros Hx. inversion Hx.
  - split_and!; [exact H2 | | now rewrite H5].
    intros x. rewrite H4. split; [intros [Hx | Hx]; [inversion Hx | exact Hx] | auto].
Qed.

Lemma dedupe_snoc (values : list string) (x : string) :
  _dedupe (values ++ [x])
  = if Py.truthy x && negb (bool_decide (x ∈ values))
    then _dedupe values ++ [x] else _dedupe values.
Proof.
  unfold _dedupe. rewrite fold_left_app. simpl.
  destruct (dedupe_fold values ∅ []) as (H1 & _ & _ & H4 & _).
  - intros y. split; [intros Hy; now apply not_elem_of_empty in Hy | intros Hy; inversion Hy].
  - constructor.
  - intros Hx. inversion Hx.
  - simpl in H1, H4.
    destruct (fold_left _dedupe_step values (∅, [])) as [seen ordered].
    simpl in *. destruct x as [|c x]; [reflexivity|]. simpl.
    assert (Hiff : String c x ∈ seen <-> String c x ∈ values).
    { rewrite H1, H4. split; [intros [Hx | [Hx _]]; [inversion Hx | exact Hx]|].
      intros Hx. right. split; [exact Hx | discriminate]. }
    destruct (bool_decide_reflect (String c x ∈ seen)) as [Hs|Hs];
      destruct (bool_decide_reflect (String c x ∈ values)) as [Hv|Hv];
      simpl; try reflexivity; tauto.
Qed.

Lemma dedupe_nil : _dedupe [] = [].
Proof. reflexivity. Qed.

Lemma dedupe_fixed (values : list string) :
  NoDup values -> "" ∉ values -> _dedupe values = values.
Proof.
  induction values as [|x values IH] using rev_ind; [reflexivity|].
  intros Hnd Hne. apply NoDup_app in Hnd as (Hnd & Hx & _).
  rewrite dedupe_snoc, IH; [| exact Hnd | intros Hin; apply Hne, elem_of_app; auto].
  destruct x as [|c x]; [exfalso; apply Hne, elem_of_app; right; constructor|].
  simpl. rewrite bool_decide_eq_false_2; [reflexivity|].
  intros Hin. apply (Hx _ Hin). constructor.
Qed.

(** X2. [_dedupe] of two lists one after the other: the result for the
    first list, followed by the result for the second list without the
    values that the first list holds. *)
Theorem dedupe_app (values more : list string) :
  _dedupe (values ++ more)
  = _dedupe values ++ filter (fun x => x ∉ values) (_dedupe more).
Proof.
  induction more as [|x more IH] using rev_ind.
  - rewrite app_nil_r, dedupe_nil. simpl. now rewrite app_nil_r.
  - rewrite app_assoc, !dedupe_snoc, IH.
    destruct x as [|c x]; [reflexivity|]. simpl.
    destruct (bool_decide_reflect (String c x ∈ more)) as [Hm|Hm];
      destruct (bool_decide_reflect (String c x ∈ values ++ more)) as [Hb|Hb];
      simpl; rewrite ?elem_of_app in Hb.
    + reflexivity.
    + tauto.
    + rewrite filter_app, filter_cons_False, filter_nil, app_nil_r; [reflexivity|].
      tauto.
    + rewrite filter_app, filter_cons_True, filter_nil, app_assoc; [reflexivity|].
      tauto.
Qed.

(** X3. The lists that [_dedupe] returns unchanged are the lists without
    repetition and without empty string; [_dedupe] returns such a list, so
    that applying it twice is the same as applying it once. *)
Theorem dedupe_fixed_points (values : list string) :
  (_dedupe values = values <-> NoDup values /\ "" ∉ values)
  /\ _dedupe (_dedupe values) = _dedupe values.
Proof.
  destruct (dedupe_fold values ∅ []) as (_ & H2 & H3 & _).
  - intros y. split; [intros Hy; now apply not_elem_of_empty in Hy | intros Hy; inversion Hy].
  - constructor.
  - intros Hx. inversion Hx.
  - simpl in H2, H3. fold (_dedupe values) in H2, H3. split.
    + split; [intros E; rewrite E in H2, H3; auto|].
      intros [Hnd Hne]. now apply dedupe_fixed.
    + now apply dedupe_fixed.
Qed.

(** ** What the link helpers read and return *)

Section Reads.

Context {W : Type} `{Browser W}.
Variable urljoin : string -> string -> string.

(** X4. [_extract_links] leaves the files alone.  It reads the number of
    elements once and then the [href] of each element in order.  When no
    read times out it returns the joined targets, each once, in page
    order, none empty: never more of them than elements.  When the read
    of an [href] times out it raises, and that read is the last call it
    made. *)
Theorem extract_links_reads_and_result (selector : string) (st : State W) :
  wp (_extract_links urljoin selector) st
    (fun r st' =>
       fs st' = fs st
       /\ exists hrefs,
           match r with
           | Ok links =>
               trace st' = trace st ++ ECount (Loc selector) (length hrefs)
                                    :: href_reads (Loc selector) hrefs
               /\ links = _dedupe (map (fun h => urljoin BASE_URL (Py.or_empty h))
                                     hrefs)
               /\ NoDup links
               /\ ("" ∉ links)
               /\ (length links <= length hrefs)%nat
           | TimeoutError =>
               exists n,
                 (length hrefs < n)%nat
                 /\ trace st'
                    = trace st ++ ECount (Loc selector) n
                      :: href_reads (Loc selector) hrefs
                      ++ [ERaised (CGetAttribute
                                     (Nth (Loc selector) (Z.of_nat (length hrefs)))
                                     "href")]
           | OutOfFuel => False
           end).
Proof.
  unfold _extract_links. wp_steps.
  eapply wp_mono.
  - apply (wp_for_each_inv
             (fun done acc st1 =>
                exists hrefs,
                  length hrefs = length done
                  /\ fs st1 = fs st
                  /\ trace st1 = trace st ++ ECount (Loc selector) a
                                           :: href_reads (Loc selector) hrefs
                  /\ acc = map (fun h => urljoin BASE_URL (Py.or_empty h)) hrefs)
             (fun done st1 =>
                exists hrefs,
                  length hrefs = length done
                  /\ fs st1 = fs st
                  /\ trace st1
                     = trace st ++ ECount (Loc selector) a
                       :: href_reads (Loc selector) hrefs
                       ++ [ERaised (CGetAttribute
                                      (Nth (Loc selector) (Z.of_nat (length hrefs)))
                                      "href")])).
    + exists []. auto.
    + intros done x rest acc st1 E (hrefs & Hlen & Hfs & Htr & ->).
      apply range_nth in E. subst x. wp_steps.
      * exists (hrefs ++ [a0]).
        rewrite !length_app, Hlen, href_reads_snoc, Htr, map_app, Hlen. simpl.
        split_and!; auto. now rewrite <- app_assoc.
      * exists hrefs. rewrite Htr, Hlen, <- app_assoc. auto.
  - cbv beta. intros [acc| |] st' Hr; [| |contradiction].
    + destruct Hr as (hrefs & Hlen & Hfs & Htr & ->).
      rewrite range_length in Hlen. subst a. wp_steps.
      set (joined := map (fun h => urljoin BASE_URL (Py.or_empty h)) hrefs).
      destruct (dedupe_fold joined ∅ []) as (_ & H2 & H3 & _ & added & H5 & H6).
      { intros y. split; [intros Hy; now apply not_elem_of_empty in Hy
                         | intros Hy; inversion Hy]. }
      { constructor. }
      { intros Hx. inversion Hx. }
      simpl in H2, H3, H5. fold (_dedupe joined) in H2, H3, H5.
      split; [exact Hfs|]. exists hrefs. split_and!; auto.
      rewrite H5. apply sublist_length in H6. unfold joined in H6.
      now rewrite length_map in H6.
    + destruct Hr as (done & x & rest & E & hrefs & Hlen & Hfs & Htr).
      split; [exact Hfs|]. exists hrefs, a. split; [|exact Htr].
      apply (f_equal (@length Z)) in E.
      rewrite range_length, length_app in E. simpl in E. lia.
Qed.

(** X5. [_extract_link_text_pairs] leaves the files alone.  It reads the
    number of elements once and then [href] and text of each element in
    order.  When no read times out it returns, in page order, one pair
    for each element whose [href] is present and not empty, made of the
    trimmed text and the joined target, so at most as many pairs as
    elements.  When a read times out it raises, and that read is the last
    call it made. *)
Theorem extract_link_text_pairs_reads_and_result (selector : string) (st : State W) :
  wp (_extract_link_text_pairs urljoin selector) st
    (fun r st' =>
       fs st' = fs st
       /\ exists answers,
           match r with
           | Ok pairs =>
               pairs = omap (pair_of urljoin) answers
               /\ trace st' = trace st ++ ECount (Loc selector) (length answers)
                                        :: link_reads (Loc selector) answers
               /\ (length pairs <= length answers)%nat
           | TimeoutError =>
               exists n raise,
                 (length answers < n)%nat
                 /\ link_raise (Loc selector) (length answers) raise
                 /\ trace st' = trace st ++ ECount (Loc selector) n
                                          :: link_reads (Loc selector) answers
                                          ++ raise
           | OutOfFuel => False
           end).
Proof.
  eapply wp_mono; [apply extract_link_text_pairs_reads|]. cbv beta.
  intros r st' (Hfs & answers & Hr). split; [exact Hfs|]. exists answers.
  destruct r as [pairs| |]; [|exact Hr..].
  destruct Hr as (-> & Htr). split_and!; auto. apply omap_length_le.
Qed.

End Reads.

(** ** Resuming from a checkpoint *)

Section Resuming.

Context {W : Type} `{Browser W}.
Variable urljoin : string -> string -> string.

Lemma category_loop_started fuel rs found categories (st : State W) :
  category_loop urljoin fuel rs true found categories st
  = visit_every_category urljoin fuel rs found categories st.
Proof.
  revert found st. induction categories as [|category rest IH];
    intros found st; simpl; [reflexivity|].
  unfold bind.
  destruct (visit_category urljoin fuel rs category found st) as [[b| |] st1]; auto.
Qed.

(** X7. The loop over the categories, as [run] enters it.  Without a
    checkpoint every category is visited, in the order of the page.  When
    the run resumes, the categories before the first one with the name of
    the checkpoint are passed over without a call to the page, and that
    one and every category after it are visited: no category at all when
    none has that name. *)
Theorem category_loop_resumes_at_checkpoint_category
    (fuel : nat) (rs : Resume) (found : bool) (categories : list Category)
    (st : State W) :
  category_loop urljoin fuel rs (negb (resume_mode rs)) found categories st
  = visit_every_category urljoin fuel rs found
      (if resume_mode rs
       then from_first (fun c => name_is (name c) (resume_category rs)) categories
       else categories)
      st.
Proof.
  destruct (resume_mode rs); simpl; [|apply category_loop_started].
  revert found st. induction categories as [|category rest IH];
    intros found st; simpl; [reflexivity|].
  destruct (name_is (name category) (resume_category rs)); [|apply IH].
  simpl. unfold bind.
  destruct (visit_category urljoin fuel rs category found st) as [[b| |] st1];
    auto using category_loop_started.
Qed.

(** X8. The loop over the subcategories in a category that has the name
    of the checkpoint, when the run resumes: the subcategories up to and
    including the first one with the name of the checkpoint are passed
    over, and every subcategory after it is visited; the subcategory of the
    checkpoint itself is not visited again. *)
Theorem subcategory_loop_resumes_after_checkpoint_subcategory
    (fuel : nat) (rs : Resume) (category : Category) (found : bool)
    (subcategories : list Category) (st : State W) :
  resume_mode rs = true ->
  name_is (name category) (resume_category rs) = true ->
  subcategory_loop fuel rs category
    (negb (resume_mode rs) || negb (name_is (name category) (resume_category rs)))
    found subcategories st
  = visit_every fuel rs category found
      (after_first (fun s => name_is (name s) (resume_subcategory rs)) subcategories)
      st.
Proof.
  intros Hmode Hcat. rewrite Hmode, Hcat. simpl.
  revert found st. induction subcategories as [|subcategory rest IH];
    intros found st; simpl; [reflexivity|].
  rewrite Hmode, Hcat. simpl.
  destruct (name_is (name subcategory) (resume_subcategory rs)); [|apply IH].
  apply subcategory_loop_started.
Qed.

End Resuming.

Lemma subcategory_loop_resumes_after_checkpoint_subcategory_witness :
  let rs := resume_of "" false (mkCheckpoint (Some "A") (Some "S1") (Some 2)) in
  let category := mkCategory "A" "/a" in
  let subcategories := [mkCategory "S1" "/a/s1"; mkCategory "S2" "/a/s2"] in
  let st0 := Sim.start Demo.site1 0 Demo.no_files in
  resume_mode rs = true
  /\ name_is (name category) (resume_category rs) = true
  /\ gotos (trace (snd (subcategory_loop 10 rs category
                          (negb (resume_mode rs)
                           || negb (name_is (name category) (resume_category rs)))
                          true subcategories st0)))
     = ["/a/s2"]
  /\ subcategory_loop 10 rs category
       (negb (resume_mode rs) || negb (name_is (name category) (resume_category rs)))
       true subcategories st0
     = visit_every 10 rs category true
         (after_first (fun s => name_is (name s) (resume_subcategory rs)) subcategories)
         st0.
Proof.
  cbv zeta. split_and!.
  - reflexivity.
  - reflexivity.
  - vm_compute. reflexivity.
  - apply subcategory_loop_resumes_after_checkpoint_subcategory; reflexivity.
Defined.

(** ** What a crawl puts on the trace *)

Lemma phone_of_cases (contact_text : string) :
  phone_of contact_text = "" \/ phone_like (phone_of contact_text).
Proof.
  unfold phone_of, Re.search.
  destruct (Re.search_from PHONE_RE 0 contact_text) as [[p g]|] eqn:Es; [|now left].
  destruct (search_some _ _ _ _ Es) as (pre & post & _ & _ & Hg & _).
  right. now rewrite (strip_phone_like _ Hg).
Qed.

Lemma quiet_crawl_event (e : Event) : quiet e -> crawl_event e.
Proof. destruct e; simpl; intros Hq; first [exact I | contradiction | exact Hq]. Qed.

Lemma quiet_listing_event (e : Event) : quiet e -> listing_event e.
Proof. destruct e; simpl; intros Hq; first [exact I | contradiction | exact Hq]. Qed.

Lemma listing_crawl_event (e : Event) : listing_event e -> crawl_event e.
Proof. destruct e; simpl; intros Hq; first [exact I | contradiction | exact Hq]. Qed.

Section Crawl.

Context {W : Type} `{Browser W}.
Variable urljoin : string -> string -> string.

Lemma emitted_refl P (st : State W) : emitted P st st.
Proof. exists []. now rewrite app_nil_r. Qed.

Lemma emitted_trans P (st1 st2 st3 : State W) :
  emitted P st1 st2 -> emitted P st2 st3 -> emitted P st1 st3.
Proof.
  intros (d1 & Ht1 & Hd1) (d2 & Ht2 & Hd2). exists (d1 ++ d2).
  unfold emitted in *. rewrite Ht2, Ht1, app_assoc. split; [reflexivity|].
  now apply Forall_app.
Qed.

Lemma emitted_to_snoc (P : Event -> Prop) (st : State W) t e :
  emitted_to P st t -> P e -> emitted_to P st (t ++ [e]).
Proof.
  intros (d & Ht & Hd) He. exists (d ++ [e]). rewrite Ht, app_assoc.
  split; [reflexivity|]. apply Forall_app. auto.
Qed.

Lemma extends_emitted (P Q : Event -> Prop) (st st' : State W) :
  (forall e, P e -> Q e) -> extends P st st' -> emitted Q st st'.
Proof.
  intros HPQ (_ & d & Ht & Hd). exists d. split; [exact Ht|].
  eapply Forall_impl; eauto.
Qed.

Lemma extends_weaken (P Q : Event -> Prop) (st st' : State W) :
  (forall e, P e -> Q e) -> extends P st st' -> extends Q st st'.
Proof.
  intros HPQ (Hfs & d & Ht & Hd). split; [exact Hfs|]. exists d.
  split; [exact Ht|]. eapply Forall_impl; eauto.
Qed.

(** A [for] loop keeps what its body keeps, however the body ends; when
    the loop raises, the body has raised. *)
Lemma wp_for_each_raise {A S} (I E : State W -> Prop) (xs : list A)
    (body : A -> S -> M W S) (acc : S) st :
  I st ->
  (forall x a st1, I st1 ->
     wp (body x a) st1 (fun r st2 => I st2 /\ (r = TimeoutError -> E st2))) ->
  wp (for_each xs body acc) st (fun r st' => I st' /\ (r = TimeoutError -> E st')).
Proof.
  intros HI Hbody. revert acc st HI.
  induction xs as [|x xs IH]; intros acc st HI; simpl.
  - apply wp_ret. split; [exact HI | discriminate].
  - apply wp_bind. eapply wp_mono; [apply (Hbody x acc st HI)|].
    cbv beta. intros [a| |] st1 (H1 & Hup).
    + now apply IH.
    + split; [exact H1 | intros _; now apply Hup].
    + split; [exact H1 | discriminate].
Qed.

(** *** The navigator, for every number of retries *)

Lemma safe_goto_from_outcome fuel u retries attempt (st : State W) :
  wp (_safe_goto_from fuel u retries attempt) st
    (fun r st' =>
       fs st' = fs st
       /\ exists failures : nat,
           match r with
           | Ok _ =>
               (failures <= Z.to_nat (retries - attempt))%nat
               /\ trace st' = trace st ++ repeat (EGoto u false) failures
                                       ++ [EGoto u true]
           | TimeoutError =>
               failures = S (Z.to_nat (retries - attempt))
               /\ trace st' = trace st ++ repeat (EGoto u false) failures
           | OutOfFuel =>
               (failures = fuel /\ (fuel <= Z.to_nat (retries - attempt))%nat)
               /\ trace st' = trace st ++ repeat (EGoto u false) failures
           end).
Proof.
  revert attempt st. induction fuel as [|fuel IH]; intros attempt st; simpl.
  - wp_step. split; [reflexivity|]. exists 0%nat. simpl.
    rewrite app_nil_r. split_and!; auto. lia.
  - wp_steps.
    + split; [reflexivity|]. exists 0%nat. split_and!; auto; lia.
    + destruct (Z.gtb_spec (attempt + 1) retries) as [Hgt|Hle].
      * wp_step. split; [reflexivity|]. exists 1%nat.
        replace (Z.to_nat (retries - attempt)) with 0%nat by lia.
        split_and!; auto.
      * eapply wp_mono; [apply (IH (attempt + 1))|]. cbv beta. cbn [fs trace].
        intros r st' (Hfs & failures & Hcase).
        split; [exact Hfs|]. exists (S failures).
        replace (Z.to_nat (retries - attempt))
          with (S (Z.to_nat (retries - (attempt + 1)))) by lia.
        destruct r as [[]| |]; destruct Hcase as [Hf Htr]; rewrite Htr;
          (split; [lia|]); simpl; now rewrite <- app_assoc.
Qed.

Lemma safe_goto_gave_up fuel u (st : State W) :
  wp (_safe_goto fuel u 2) st
    (fun r st' => extends quiet st st' /\ (r = TimeoutError -> gave_up st')).
Proof.
  apply wp_conj; [apply safe_goto_quiet|].
  eapply wp_mono; [apply safe_goto_from_outcome|]. cbv beta.
  intros r st' (_ & failures & Hcase) ->. destruct Hcase as [-> Htr].
  exists (trace st), u. exact Htr.
Qed.

(** *** The records extracted *)

Lemma extract_exhibitor_details_valid (st : State W) :
  wp _extract_exhibitor_details st
    (fun r _ => forall d, r = Ok (Some d) -> valid_details d).
Proof.
  eapply wp_mono; [apply extract_exhibitor_details_reads|]. cbv beta.
  intros r st' Hr d ->. destruct Hr as (a & _ & Hd). symmetry in Hd.
  apply details_if_complete_some in Hd as (-> & H1 & H2 & H3 & H4 & H5 & H6).
  unfold valid_details; simpl; split_and!; auto.
  unfold field_phone in *.
  destruct (phone_of_cases (an_contact a)) as [E|E]; [contradiction | exact E].
Qed.

(** *** The reads of the links, outside every [try] *)

Lemma extract_link_text_pairs_raise selector (st : State W) :
  selector = CATEGORY_LINK_SELECTOR ->
  wp (_extract_link_text_pairs urljoin selector) st
    (fun r st' =>
       extends quiet st st' /\ r <> OutOfFuel
       /\ (r = TimeoutError -> call_timed_out st')).
Proof.
  intros ->.
  eapply wp_mono;
    [apply wp_conj; [apply extract_link_text_pairs_quiet; discriminate
                    | apply extract_link_text_pairs_reads]|].
  cbv beta. intros r st' ((Hext & Hr) & _ & answers & Hcase).
  split_and!; [exact Hext | exact Hr|]. intros ->.
  unfold call_timed_out.
  destruct Hcase as (n & raised & _ & [->|(h & ->)] & Htr); rewrite Htr.
  - eexists _, _. split.
    + rewrite app_comm_cons, app_assoc. reflexivity.
    + simpl. auto.
  - eexists _, _. split.
    + change [EGetAttribute ?l ?a h; ?e] with ([EGetAttribute l a h] ++ [e]).
      rewrite app_comm_cons, !app_assoc. reflexivity.
    + simpl. auto.
Qed.

End Crawl.

Ltac em_done :=
  unfold emitted; cbn [trace];
  repeat (apply emitted_to_snoc; [| simpl; first [exact I | assumption | auto]]);
  first [ apply emitted_refl | assumption ].

Section CrawlBody.

Context {W : Type} `{Browser W}.

Lemma extract_details_crawl c s i (st0 st : State W) :
  emitted crawl_event st0 st ->
  wp (extract_details c s i) st
    (fun r st' =>
       emitted crawl_event st0 st' /\ r <> OutOfFuel
       /\ forall d, r = Ok (Some d) -> valid_details d).
Proof.
  intros H0. unfold extract_details. wp_step.
  eapply wp_mono;
    [apply wp_conj; [apply extract_exhibitor_details_quiet
                    | apply extract_exhibitor_details_valid]|].
  cbv beta. intros r st1 ((Hext & Hr) & Hvalid).
  assert (H1 : emitted crawl_event st0 st1).
  { eapply emitted_trans; [exact H0|].
    eapply extends_emitted; [apply quiet_crawl_event | exact Hext]. }
  destruct r as [o| |]; [| split_and!; [exact H1 | discriminate | discriminate]
                          | contradiction].
  wp_steps. split_and!; [| discriminate | exact Hvalid].
  destruct o as [d|]; em_done.
Qed.

Section Body.

Variable rs : Resume.
Variables category subcategory : Category.

Lemma handle_details_crawl i seen found outcome (st0 st : State W) :
  emitted crawl_event st0 st ->
  (forall d, outcome = Some (Some d) -> valid_details d) ->
  wp (handle_details rs category subcategory i seen found outcome) st
    (fun _ st' => emitted crawl_event st0 st').
Proof.
  intros H0 Hvalid. unfold handle_details, finish_exhibitor.
  destruct outcome as [[d|]|].
  - pose proof (Hvalid d eq_refl) as Hd.
    destruct found; cbn [negb].
    + wp_steps; em_done.
    + wp_step.
      destruct (String.eqb (Py.lower (Py.strip (d_company_name d)))
                  (resume_after_name rs));
        wp_steps; em_done.
  - wp_steps; em_done.
  - wp_steps; em_done.
Qed.

Lemma exhibitor_body_emits v (st0 st : State W) :
  emitted crawl_event st0 st ->
  wp (exhibitor_body rs category subcategory v) st
    (fun _ st' => emitted crawl_event st0 st').
Proof.
  intros H0. unfold exhibitor_body. wp_steps.
  destruct (exhibitor_index v >=? Z.of_nat a).
  { wp_step. em_done. }
  wp_steps. destruct (a0 =? 0)%nat.
  { wp_step. em_done. }
  wp_step. wp_step; [|em_done].
  destruct (bool_decide (Py.or_empty a1 ∈ seen_exhibitors v)).
  { wp_step. em_done. }
  wp_step. wp_step; [|em_done]. wp_step. wp_step; [|em_done]. wp_steps.
  eapply wp_mono; [apply (extract_details_crawl _ _ _ st0); em_done|].
  cbv beta. intros r st1 (H1 & Hr & Hvalid).
  destruct r as [o| |]; [| |contradiction].
  - apply handle_details_crawl; [exact H1|]. now intros d [= ->]; apply Hvalid.
  - apply handle_details_crawl; [exact H1 | discriminate].
Qed.

Lemma exhibitor_body_crawl v (st0 st : State W) :
  emitted crawl_event st0 st ->
  wp (exhibitor_body rs category subcategory v) st
    (fun r st' =>
       emitted crawl_event st0 st' /\ r <> OutOfFuel
       /\ (r = TimeoutError -> call_timed_out st')).
Proof.
  intros H0.
  eapply wp_mono;
    [apply wp_conj; [apply (exhibitor_body_emits v st0 st H0)
                    | apply exhibitor_body_iteration]|].
  cbv beta. intros r st' (H1 & d & Htr & Hrun).
  split_and!; [exact H1 | |].
  - intros ->. exact Hrun.
  - intros ->. simpl in Hrun.
    destruct (aborted_last _ _ _ _ _ _ _ Hrun) as (t & call & -> & Hcall).
    exists (trace st ++ t), call. split; [now rewrite Htr, app_assoc|].
    destruct Hcall as [-> | [-> | [-> | ->]]]; simpl; auto.
Qed.

Lemma exhibitor_loop_crawl fuel n v (st0 st : State W) :
  emitted crawl_event st0 st ->
  wp (exhibitor_loop fuel rs category subcategory n v) st
    (fun r st' =>
       emitted crawl_event st0 st' /\ (r = TimeoutError -> call_timed_out st')).
Proof.
  revert v st. induction fuel as [|fuel IH]; intros v st H0; simpl;
    destruct (exhibitor_index v <? Z.of_nat n).
  - wp_step. split; [exact H0 | discriminate].
  - wp_step. split; [exact H0 | discriminate].
  - wp_step. eapply wp_mono; [apply (exhibitor_body_crawl _ st0 st H0)|].
    cbv beta. intros r st1 (H1 & Hr & Hup).
    destruct r as [[v'|]| |]; [| | |contradiction].
    + apply IH. exact H1.
    + wp_step. split; [exact H1 | discriminate].
    + split; [exact H1 | intros _; now apply Hup].
  - wp_step. split; [exact H0 | discriminate].
Qed.

Lemma visit_subcategory_crawl fuel found (st0 st : State W) :
  emitted crawl_event st0 st ->
  wp (visit_subcategory fuel rs category subcategory found) st
    (fun r st' =>
       emitted crawl_event st0 st'
       /\ (r = TimeoutError -> gave_up st' \/ call_timed_out st')).
Proof.
  intros H0. unfold visit_subcategory. wp_step.
  eapply wp_mono; [apply safe_goto_gave_up|]. cbv beta.
  intros r st1 (Hext & Hup).
  assert (H1 : emitted crawl_event st0 st1).
  { eapply emitted_trans; [exact H0|].
    eapply extends_emitted; [apply quiet_crawl_event | exact Hext]. }
  destruct r as [[]| |]; [| split; [exact H1 | intros _; left; now apply Hup]
                          | split; [exact H1 | discriminate]].
  wp_step. wp_step. wp_step. unfold _count_exhibitor_cards. wp_steps.
  - eapply wp_mono; [apply (exhibitor_loop_crawl _ _ _ st0); em_done|].
    cbv beta. intros r st2 (H2 & Hr). destruct r as [v| |].
    + wp_steps. split; [em_done | discriminate].
    + split; [exact H2 | intros _; right; now apply Hr].
    + split; [exact H2 | discriminate].
  - split; [em_done | discriminate].
Qed.

End Body.

End CrawlBody.

Section CrawlRun.

Context {W : Type} `{Browser W}.
Variable urljoin : string -> string -> string.
Variable rs : Resume.

Lemma subcategory_loop_crawl fuel category started found subcategories
    (st0 st : State W) :
  emitted crawl_event st0 st ->
  wp (subcategory_loop fuel rs category started found subcategories) st
    (fun r st' =>
       emitted crawl_event st0 st'
       /\ (r = TimeoutError -> gave_up st' \/ call_timed_out st')).
Proof.
  revert started found st.
  induction subcategories as [|subcategory rest IH]; intros started found st H0; simpl.
  - wp_step. split; [exact H0 | discriminate].
  - destruct (resume_mode rs && name_is (name category) (resume_category rs)
              && negb started); [now apply IH|].
    wp_step. eapply wp_mono; [apply (visit_subcategory_crawl _ _ _ _ _ st0 st H0)|].
    cbv beta. intros r st1 (H1 & Hup). destruct r as [b| |].
    + now apply IH.
    + split; [exact H1 | intros _; now apply Hup].
    + split; [exact H1 | discriminate].
Qed.

Lemma visit_category_crawl fuel category found (st0 st : State W) :
  emitted crawl_event st0 st ->
  wp (visit_category urljoin fuel rs category found) st
    (fun r st' =>
       emitted crawl_event st0 st'
       /\ (r = TimeoutError -> gave_up st' \/ call_timed_out st')).
Proof.
  intros H0. unfold visit_category. wp_step.
  eapply wp_mono; [apply safe_goto_gave_up|]. cbv beta.
  intros r st1 (Hext & Hup).
  assert (H1 : emitted crawl_event st0 st1).
  { eapply emitted_trans; [exact H0|].
    eapply extends_emitted; [apply quiet_crawl_event | exact Hext]. }
  destruct r as [[]| |]; [| split; [exact H1 | intros _; left; now apply Hup]
                          | split; [exact H1 | discriminate]].
  wp_steps.
  - eapply wp_mono; [apply extract_link_text_pairs_raise; reflexivity|]. cbv beta.
    intros r st2 (Hext2 & Hr2 & Hup2).
    assert (H2 : emitted crawl_event st0 st2).
    { eapply emitted_trans; [|eapply extends_emitted;
                               [apply quiet_crawl_event | exact Hext2]].
      em_done. }
    destruct r as [subcategories| |];
      [| split; [exact H2 | intros _; right; now apply Hup2] | contradiction].
    wp_steps. apply subcategory_loop_crawl. em_done.
  - split; [em_done | discriminate].
Qed.

Lemma category_loop_crawl fuel started found categories (st0 st : State W) :
  emitted crawl_event st0 st ->
  wp (category_loop urljoin fuel rs started found categories) st
    (fun r st' =>
       emitted crawl_event st0 st'
       /\ (r = TimeoutError -> gave_up st' \/ call_timed_out st')).
Proof.
  revert started found st.
  induction categories as [|category rest IH]; intros started found st H0; simpl.
  - wp_step. split; [exact H0 | discriminate].
  - assert (Hvisit : forall started',
              wp (bind (visit_category urljoin fuel rs category found)
                    (fun found0 => category_loop urljoin fuel rs started' found0 rest))
                st (fun r st' =>
                      emitted crawl_event st0 st'
                      /\ (r = TimeoutError -> gave_up st' \/ call_timed_out st'))).
    { intros started'. wp_step.
      eapply wp_mono; [apply (visit_category_crawl _ _ _ st0 st H0)|]. cbv beta.
      intros r st1 (H1 & Hup). destruct r as [b| |].
      - now apply IH.
      - split; [exact H1 | intros _; now apply Hup].
      - split; [exact H1 | discriminate]. }
    destruct (negb started); [|apply Hvisit].
    destruct (name_is (name category) (resume_category rs)); [apply Hvisit|].
    now apply IH.
Qed.

End CrawlRun.

Section Modes.

Context {W : Type} `{Browser W}.
Variable urljoin : string -> string -> string.

Lemma list_subcategories_of_listing fuel category (st0 st : State W) :
  extends listing_event st0 st ->
  wp (list_subcategories_of urljoin fuel category) st
    (fun r st' => extends listing_event st0 st'
                  /\ (r = TimeoutError -> gave_up st' \/ call_timed_out st')).
Proof.
  intros H0. unfold list_subcategories_of. wp_step.
  eapply wp_mono; [apply safe_goto_gave_up|]. cbv beta.
  intros r st1 (Hext & Hup).
  assert (H1 : extends listing_event st0 st1).
  { eapply extends_trans; [exact H0|].
    eapply extends_weaken; [apply quiet_listing_event | exact Hext]. }
  destruct r as [[]| |]; [| split; [exact H1 | intros _; left; now apply Hup]
                          | split; [exact H1 | discriminate]].
  wp_steps.
  - eapply wp_mono; [apply extract_link_text_pairs_raise; reflexivity|]. cbv beta.
    intros r st2 (Hext2 & Hr2 & Hup2).
    assert (H2 : extends listing_event st0 st2).
    { eapply extends_trans;
        [|eapply extends_weaken; [apply quiet_listing_event | exact Hext2]].
      ext_done. }
    destruct r as [subcategories| |];
      [| split; [exact H2 | intros _; right; now apply Hup2] | contradiction].
    wp_steps.
    eapply wp_mono.
    + apply (wp_for_each_ok (extends listing_event st0)).
      * ext_done.
      * intros x a st3 H3. wp_steps. split; [ext_done | eauto].
    + cbv beta. intros r st3 (H3 & a & ->). split; [exact H3 | discriminate].
  - split; [ext_done | discriminate].
Qed.

Lemma emitted_stop (P : Event -> Prop) (st0 : State W) A (r : result A) t :
  emitted_to P st0 t -> returned r = false ->
  exists d, t = trace st0 ++ d ++ (if returned r then [EClose] else [])
            /\ Forall P d.
Proof. intros (d & Htr & Hd) ->. exists d. now rewrite app_nil_r. Qed.

Lemma emitted_close (P : Event -> Prop) (st0 : State W) t :
  emitted_to P st0 t ->
  exists d, t ++ [EClose]
            = trace st0 ++ d ++ (if returned (Ok tt) then [EClose] else [])
            /\ Forall P d.
Proof.
  intros (d & Htr & Hd). exists d. cbn [returned]. now rewrite Htr, <- app_assoc.
Qed.

(** The crawl in every mode, from the state in which it starts. *)
Lemma run_crawl (target : string) (fuel : nat)
    (list_categories list_subcategories fresh : bool) (st : State W) :
  wp (run urljoin target fuel list_categories list_subcategories fresh) st
    (fun r st' =>
       (exists d,
           trace st' = trace (opened fresh st) ++ d
                       ++ (if returned r then [EClose] else [])
           /\ Forall crawl_event d)
       /\ match r with
          | TimeoutError => gave_up st' \/ no_categories st' \/ call_timed_out st'
          | _ => True
          end).
Proof.
  unfold run, opened. destruct fresh; cbn [trace]; wp_steps.
  all: eapply wp_mono; [apply safe_goto_gave_up|]; cbv beta; intros r st2 (Hext & Hup).
  all: match type of Hext with
       | extends quiet ?s _ =>
           assert (H2 : emitted crawl_event s st2)
             by (eapply extends_emitted; [apply quiet_crawl_event | exact Hext]);
           pose proof (emitted_stop crawl_event s) as Hstop;
           pose proof (emitted_close crawl_event s) as Hend;
           cbn [trace] in Hstop, Hend
       end.
  all: destruct r as [[]| |];
       [| split; [now apply Hstop | left; now apply Hup]
        | split; [now apply Hstop | exact I]].
  all: wp_steps;
       [| split; [apply Hstop; [em_done | reflexivity]
                 | right; left; eexists; cbn [trace]; rewrite <- app_assoc;
                   reflexivity]].
  all: eapply wp_mono; [apply extract_link_text_pairs_raise; reflexivity|];
       cbv beta; intros r st3 (Hext3 & Hr3 & Hup3).
  all: match type of H2 with
       | emitted crawl_event ?s _ =>
           assert (H3 : emitted crawl_event s st3)
             by (eapply emitted_trans;
                 [|eapply extends_emitted; [apply quiet_crawl_event | exact Hext3]];
                 em_done)
       end.
  all: destruct r as [categories| |];
       [| split; [now apply Hstop | right; right; now apply Hup3]
        | contradiction].
  all: wp_steps.
  all: match type of H3 with
       | emitted crawl_event ?s _ =>
           match goal with
           | |- wp _ ?s4 _ => assert (H4 : emitted crawl_event s s4) by em_done
           end
       end.
  all: destruct list_categories; [|destruct list_subcategories]; wp_step.
  all: first
    [ eapply wp_mono;
        [apply (wp_for_each_raise _ (fun s => gave_up s \/ call_timed_out s)
                  _ _ _ _ H4);
         intros x a st5 H5; wp_steps; split; [em_done | discriminate]|]
    | eapply wp_mono;
        [apply (wp_for_each_raise _ (fun s => gave_up s \/ call_timed_out s)
                  _ _ _ _ H4);
         intros x a st5 H5;
         eapply wp_mono;
           [apply (list_subcategories_of_listing _ _ st5 st5 (extends_refl _ _))|];
         cbv beta; intros r6 st6 (H6 & Hup6); split; [|exact Hup6];
         eapply emitted_trans;
           [exact H5 | eapply extends_emitted; [apply listing_crawl_event | exact H6]]|]
    | eapply wp_mono; [apply (category_loop_crawl _ _ _ _ _ _ _ _ H4)|] ].
  all: cbv beta; intros r st5 (H5 & Hup5).
  all: destruct r as [b| |];
       [| split; [now apply Hstop
                 | destruct (Hup5 eq_refl) as [Hg|Hc]; [left | right; right];
                   assumption]
        | split; [now apply Hstop | exact I]].
  all: wp_steps; split; [now apply Hend | exact I].
Qed.

End Modes.

Section Listing.

Context {W : Type} `{Browser W}.
Variable urljoin : string -> string -> string.

Lemma extends_stop (P : Event -> Prop) (st0 : State W) A (r : result A) f t :
  extends_to P st0 f t -> returned r = false ->
  f = fs st0
  /\ exists d, t = trace st0 ++ d ++ (if returned r then [EClose] else [])
               /\ Forall P d.
Proof.
  intros (Hfs & d & Htr & Hd) ->. split; [exact Hfs|]. exists d.
  now rewrite app_nil_r.
Qed.

Lemma extends_close (P : Event -> Prop) (st0 : State W) f t :
  extends_to P st0 f t ->
  f = fs st0
  /\ exists d, t ++ [EClose]
               = trace st0 ++ d ++ (if returned (Ok tt) then [EClose] else [])
               /\ Forall P d.
Proof.
  intros (Hfs & d & Htr & Hd). split; [exact Hfs|]. exists d. cbn [returned].
  now rewrite Htr, <- app_assoc.
Qed.

(** X9. The list-subcategories mode.  After the output file is made sure
    to exist (and the checkpoint is read, without the fresh flag), the mode
    only goes to pages, looks at them and prints: it looks at no exhibitor
    card, goes into no detail page, appends no row and saves no checkpoint;
    the files are left as [_init_csv] made them.  The browser is closed as
    the last step when the mode returns, and not at all when it raises. *)
Theorem list_subcategories_mode_only_lists (target : string) (fuel : nat)
    (fresh : bool) (st : State W) :
  wp (run urljoin target fuel false true fresh) st
    (fun r st' =>
       fs st' = _init_csv (fs st)
       /\ exists d,
           trace st' = trace (opened fresh st) ++ d
                       ++ (if returned r then [EClose] else [])
           /\ Forall listing_event d).
Proof.
  unfold run, opened. destruct fresh; cbn [trace]; wp_steps.
  all: eapply wp_mono; [apply safe_goto_gave_up|]; cbv beta; intros r st2 (Hext & _).
  all: match type of Hext with
       | extends quiet ?s _ =>
           assert (H2 : extends listing_event s st2)
             by (eapply extends_weaken; [apply quiet_listing_event | exact Hext]);
           pose proof (extends_stop listing_event s) as Hstop;
           pose proof (extends_close listing_event s) as Hend;
           cbn [trace fs] in Hstop, Hend
       end.
  all: destruct r as [[]| |]; [| now apply Hstop..].
  all: wp_steps; [| apply Hstop; [ext_done | reflexivity]].
  all: eapply wp_mono; [apply extract_link_text_pairs_quiet; discriminate|];
       cbv beta; intros r st3 (Hext3 & Hr3).
  all: match type of H2 with
       | extends listing_event ?s _ =>
           assert (H3 : extends listing_event s st3)
             by (eapply extends_trans;
                 [|eapply extends_weaken; [apply quiet_listing_event | exact Hext3]];
                 ext_done)
       end.
  all: destruct r as [categories| |]; [| now apply Hstop | contradiction].
  all: wp_steps.
  all: match type of H3 with
       | extends listing_event ?s _ =>
           match goal with
           | |- wp _ ?s4 _ => assert (H4 : extends listing_event s s4) by ext_done
           end
       end.
  all: eapply wp_mono;
       [apply (wp_for_each_raise _ (fun _ => True) _ _ _ _ H4);
        intros x a st5 H5;
        eapply wp_mono; [apply (list_subcategories_of_listing _ _ _ _ _ H5)|];
        cbv beta; intros r6 st6 (H6 & _); split; [exact H6 | auto]|].
  all: cbv beta; intros r st5 (H5 & _).
  all: destruct r as [b| |]; [| now apply Hstop..].
  all: wp_steps; now apply Hend.
Qed.

End Listing.

(** ** The whole run *)

Lemma crawl_event_not_close (d : list Event) : Forall crawl_event d -> EClose ∉ d.
Proof.
  intros Hd Hin. rewrite Forall_forall in Hd. exact (Hd _ Hin).
Qed.

Lemma crawl_event_rows (d : list Event) :
  Forall crawl_event d ->
  Forall (fun r => valid_details (row_details r)) (appended d)
  /\ Forall (fun r => valid_details (row_details r)) (extracted d).
Proof.
  induction 1 as [|e d He _ [IHa IHe]]; [split; constructor|].
  unfold appended, extracted in *.
  destruct e as [| | | | | | | | | | | | | | | |row|c s i [det|]|call]; simpl;
    split; auto.
Qed.

Section WholeRun.

Context {W : Type} `{Browser W}.
Variable urljoin : string -> string -> string.

(** X10. Every number of retries.  [_safe_goto] makes at most
    [1 + max(0, retries)] attempts: it returns at the first attempt that
    succeeds, after at most [max(0, retries)] failures, and it raises the
    time-out after exactly [1 + max(0, retries)] failures; with a negative
    number of retries it makes one attempt.  It only calls [page.goto] and
    leaves the files alone.  (The model stops early only with fuel for no
    more than [max(0, retries)] attempts.) *)
Theorem safe_goto_attempts_for_every_retries (fuel : nat) (u : string)
    (retries : Z) (st : State W) :
  wp (_safe_goto fuel u retries) st
    (fun r st' =>
       fs st' = fs st
       /\ exists failures : nat,
           match r with
           | Ok _ =>
               (failures <= Z.to_nat retries)%nat
               /\ trace st' = trace st ++ repeat (EGoto u false) failures
                                       ++ [EGoto u true]
           | TimeoutError =>
               failures = S (Z.to_nat retries)
               /\ trace st' = trace st ++ repeat (EGoto u false) failures
           | OutOfFuel =>
               (failures = fuel /\ (fuel <= Z.to_nat retries)%nat)
               /\ trace st' = trace st ++ repeat (EGoto u false) failures
           end).
Proof.
  unfold _safe_goto. eapply wp_mono; [apply safe_goto_from_outcome|].
  cbv beta. intros r st'. now rewrite Z.sub_0_r.
Qed.

(** X11. How [run] ends, in every mode.  When it returns, closing the
    browser is the last thing it did, and it did so once.  It raises the
    time-out in three cases only: [_safe_goto] has given up on a page after
    three failed attempts; the table of categories did not show on the
    start page; or a call outside every [try] timed out, which is then the
    last thing on the trace: the read of a category or subcategory link,
    the read of the link target of a card, the scroll to a card, the click
    on it, or the way back from a detail page.  A wait for the table of
    subcategories or for the exhibitor cards that times out, and a time-out
    inside [_extract_exhibitor_details], never end the run by themselves.
    When the run raises, the browser is not closed. *)
Theorem run_raises_only_when_navigation_fails (target : string) (fuel : nat)
    (list_categories list_subcategories fresh : bool) (st : State W) :
  wp (run urljoin target fuel list_categories list_subcategories fresh) st
    (fun r st' =>
       exists d,
         trace st' = trace st ++ d
         /\ match r with
            | Ok _ => exists d0, d = d0 ++ [EClose] /\ (EClose ∉ d0)
            | TimeoutError =>
                (EClose ∉ d)
                /\ (gave_up st' \/ no_categories st' \/ call_timed_out st')
            | OutOfFuel => EClose ∉ d
            end).
Proof.
  eapply wp_mono; [apply run_crawl|]. cbv beta.
  intros r st' ((d & Htr & Hd) & Hr).
  apply crawl_event_not_close in Hd.
  assert (Hpre : exists pre, trace (opened fresh st) = trace st ++ pre /\ (EClose ∉ pre)).
  { unfold opened. destruct fresh; cbn [trace].
    - exists [EInitCsv]. split; [reflexivity|].
      intros Hin. apply list_elem_of_singleton in Hin. discriminate.
    - exists [EInitCsv; ELoadCheckpoint]. split; [now rewrite <- app_assoc|].
      intros Hin. repeat (apply elem_of_cons in Hin as [Hin|Hin]; [discriminate|]).
      inversion Hin. }
  destruct Hpre as (pre & Hpre & Hnc). rewrite Hpre in Htr.
  assert (Hboth : EClose ∉ pre ++ d).
  { intros Hin. apply elem_of_app in Hin as [Hin|Hin]; auto. }
  destruct r as [[]| |]; cbn [returned] in Htr.
  - exists (pre ++ d ++ [EClose]). split; [now rewrite Htr, <- app_assoc|].
    exists (pre ++ d). split; [now rewrite <- app_assoc | exact Hboth].
  - exists (pre ++ d). rewrite app_nil_r in Htr.
    split; [now rewrite Htr, <- app_assoc|]. auto.
  - exists (pre ++ d). rewrite app_nil_r in Htr.
    split; [now rewrite Htr, <- app_assoc | exact Hboth].
Qed.

(** X12. What a crawl writes.  In the default mode, however the run ends,
    the output file is the file that [_init_csv] left, followed by one line
    for each row appended, in order; and every row appended, as every
    record extracted, has a company name, an address, a website, a
    description and a booth that are not empty, and a phone that is a digit
    run of at least 8 characters, with or without a leading [+]. *)
Theorem rows_written_are_complete_records (target : string) (fuel : nat)
    (fresh : bool) (st : State W) :
  wp (run urljoin target fuel false false fresh) st
    (fun _ st' =>
       exists d,
         trace st' = trace st ++ d
         /\ csv_file (fs st') = csv_after (csv_file (_init_csv (fs st))) (appended d)
         /\ Forall (fun r => valid_details (row_details r)) (appended d)
         /\ Forall (fun r => valid_details (row_details r)) (extracted d)).
Proof.
  eapply wp_mono; [apply wp_conj; [apply run_crawl | apply run_gate]|]. cbv beta.
  intros r st' (((d1 & Htr1 & Hd1) & _) & found' & d & Htr & _ & Hcsv).
  cbn [fs trace] in Htr, Hcsv. exists d. split_and!; [exact Htr | exact Hcsv | |].
  all: assert (Hd : exists pre post,
                 d = pre ++ d1 ++ post /\ appended pre = [] /\ appended post = []
                 /\ extracted pre = [] /\ extracted post = []).
  1,3: rewrite Htr in Htr1; unfold opened in Htr1;
       destruct fresh; cbn [trace] in Htr1; rewrite <- ?app_assoc in Htr1;
       apply app_inv_head in Htr1; simpl in Htr1;
       [exists [EInitCsv] | exists [EInitCsv; ELoadCheckpoint]];
       exists (if returned r then [EClose] else []);
       (split; [exact Htr1|]); destruct r; simpl; auto.
  all: destruct Hd as (pre & post & -> & Ha1 & Ha2 & He1 & He2).
  all: destruct (crawl_event_rows d1 Hd1) as [Hva Hve].
  - rewrite !appended_app, Ha1, Ha2, app_nil_r. exact Hva.
  - rewrite !extracted_app, He1, He2, app_nil_r. exact Hve.
Qed.

End WholeRun.

(** ** The checkpoint after the visit of a subcategory *)

Section VisitCheckpoint.

Context {W : Type} `{Browser W}.
Variable rs : Resume.
Variables category subcategory : Category.

Lemma iterations_index_lookups n v f d v' f' :
  iterations rs category subcategory n v f d (Ok v') f' ->
  exhibitor_index v' = exhibitor_index v + Z.of_nat (length (lookups d)).
Proof.
  intros Hits. remember (Ok v') as r eqn:Hr. revert v' Hr.
  induction Hits as [v f Hge|v f Hlt|v f d f' Hlt Hit|v f d v1 f' d' r f'' Hlt Hit _ IH
                    |v f d f' Hlt Hab];
    intros v' Hr; try discriminate.
  - injection Hr as <-. simpl. lia.
  - injection Hr as <-. rewrite (iteration_lookups _ _ _ _ _ _ _ _ Hit). simpl. lia.
  - rewrite (IH v' Hr), lookups_app, length_app,
      (iteration_lookups _ _ _ _ _ _ _ _ Hit), (iteration_next _ _ _ _ _ _ _ _ Hit).
    simpl. lia.
Qed.

(** X13. A visit of a subcategory that returns leaves a checkpoint for
    this category and subcategory.  When no card showed up within the
    time-out the index saved is 0, also in the subcategory at which the run
    resumed; otherwise it is the index at which the loop started plus the
    number of cards looked at, that is the index of the first card that was
    not looked at. *)
Theorem visit_saves_index_of_next_card (fuel : nat) (found : bool) (st : State W) :
  wp (visit_subcategory fuel rs category subcategory found) st
    (fun r st' =>
       exists d,
         trace st' = trace st ++ d
         /\ match r with
            | Ok _ =>
                exists i,
                  checkpoint_file (fs st')
                  = Some (mkCheckpoint (Some (name category))
                            (Some (name subcategory)) (Some i))
                  /\ ((EWaitForSelector EXHIBITOR_LINK_SELECTOR false ∈ d
                       /\ lookups d = [] /\ i = 0)
                      \/ (EWaitForSelector EXHIBITOR_LINK_SELECTOR true ∈ d
                          /\ i = start_index rs category subcategory
                                 + Z.of_nat (length (lookups d))))
            | _ => True
            end).
Proof.
  eapply wp_mono; [apply visit_subcategory_visit|]. cbv beta.
  intros r st' (d & Htr & Hvisit). exists d. split; [exact Htr|].
  destruct r as [b| |]; [|exact I..].
  inversion Hvisit as [q r0 Hq Hr|q Hq|q n d0 f0 Hq Hits|q n d0 v f0 Hq Hits
                      |q n d0 f0 Hq Hits]; subst.
  - now destruct (Hr b).
  - eexists. split; [reflexivity|]. left. split_and!; [| |reflexivity].
    + apply elem_of_app. right. constructor.
    + rewrite lookups_app. now destruct (quiet_list _ Hq) as (_ & -> & _).
  - eexists. split; [reflexivity|]. right. split.
    + apply elem_of_app. right. constructor.
    + rewrite (iterations_index_lookups _ _ _ _ _ _ Hits).
      rewrite !lookups_app.
      destruct (quiet_list _ Hq) as (_ & -> & _). simpl.
      now rewrite app_nil_r.
Qed.

End VisitCheckpoint.

(** ** The fresh flag *)

Section ObliviousRules.

Context {W : Type} `{Browser W}.

Lemma obl_ret {A} (a : A) : oblivious (W:=W) (ret a).
Proof. intros st1 st2 Hs. auto. Qed.

Lemma obl_raise {A} : oblivious (W:=W) (A:=A) raise.
Proof. intros st1 st2 Hs. auto. Qed.

Lemma obl_out_of_fuel {A} : oblivious (W:=W) (A:=A) out_of_fuel.
Proof. intros st1 st2 Hs. auto. Qed.

Lemma obl_bind {A B} (c : M W A) (k : A -> M W B) :
  oblivious c -> (forall a, oblivious (k a)) -> oblivious (bind c k).
Proof.
  intros Hc Hk st1 st2 Hs. unfold bind.
  destruct (Hc st1 st2 Hs) as [Hr Hs'].
  destruct (c st1) as [r1 s1], (c st2) as [r2 s2]. simpl in Hr, Hs'. subst r2.
  destruct r1; [now apply Hk | auto..].
Qed.

Lemma obl_try_except {A} (c h : M W A) :
  oblivious c -> oblivious h -> oblivious (try_except c h).
Proof.
  intros Hc Hh st1 st2 Hs. unfold try_except.
  destruct (Hc st1 st2 Hs) as [Hr Hs'].
  destruct (c st1) as [r1 s1], (c st2) as [r2 s2]. simpl in Hr, Hs'. subst r2.
  destruct r1; [auto | now apply Hh | auto].
Qed.

Lemma obl_attempt {A} (c : M W A) : oblivious c -> oblivious (attempt c).
Proof.
  intros Hc. apply obl_try_except; [|apply obl_ret].
  apply obl_bind; [exact Hc|]. intros a. apply obl_ret.
Qed.

Lemma obl_for_each {A S} (xs : list A) (body : A -> S -> M W S) (acc : S) :
  (forall x a, oblivious (body x a)) -> oblivious (for_each xs body acc).
Proof.
  intros Hbody. revert acc. induction xs as [|x xs IH]; intros acc; simpl.
  - apply obl_ret.
  - apply obl_bind; [apply Hbody | exact IH].
Qed.

Lemma obl_emit e : oblivious (W:=W) (emit e).
Proof.
  intros st1 st2 (Hp & Ht & Hc). unfold emit, same_but_checkpoint. simpl.
  now rewrite Hp, Ht, Hc.
Qed.

Lemma obl_query {A} (op : W -> A * W) ev : oblivious (query op ev).
Proof.
  intros st1 st2 (Hp & Ht & Hc). unfold query, same_but_checkpoint.
  rewrite Hp. destruct (op (page st2)) as [a w]. simpl. now rewrite Ht, Hc.
Qed.

Lemma obl_action (op : W -> W) e : oblivious (action op e).
Proof.
  intros st1 st2 (Hp & Ht & Hc). unfold action, same_but_checkpoint. simpl.
  now rewrite Hp, Ht, Hc.
Qed.

Lemma obl_fallible (op : W -> bool * W) ev : oblivious (fallible op ev).
Proof.
  intros st1 st2 (Hp & Ht & Hc). unfold fallible, same_but_checkpoint.
  rewrite Hp. destruct (op (page st2)) as [ok w]. simpl. now rewrite Ht, Hc.
Qed.

Lemma obl_read {A} (op : W -> option A * W) ev call : oblivious (read op ev call).
Proof.
  intros st1 st2 (Hp & Ht & Hc). unfold read, same_but_checkpoint.
  rewrite Hp. destruct (op (page st2)) as [[a|] w]; simpl; now rewrite Ht, Hc.
Qed.

Lemma obl_act (op : W -> bool * W) e call : oblivious (act op e call).
Proof.
  intros st1 st2 (Hp & Ht & Hc). unfold act, same_but_checkpoint.
  rewrite Hp. destruct (op (page st2)) as [[] w]; simpl; now rewrite Ht, Hc.
Qed.

Lemma obl_current_url : oblivious (W:=W) current_url.
Proof.
  intros st1 st2 Hs. unfold current_url. simpl. split; [|exact Hs].
  destruct Hs as (-> & _). reflexivity.
Qed.

Lemma obl_file_op (op : FS -> FS) e :
  (forall f1 f2, csv_file f1 = csv_file f2 -> csv_file (op f1) = csv_file (op f2)) ->
  oblivious (W:=W) (file_op op e).
Proof.
  intros Hop st1 st2 (Hp & Ht & Hc). unfold file_op, same_but_checkpoint. simpl.
  rewrite Hp, Ht. auto.
Qed.

Lemma obl_init_csv : oblivious (W:=W) init_csv.
Proof.
  apply obl_file_op. intros f1 f2 E. unfold _init_csv.
  destruct (csv_file f1) eqn:E1, (csv_file f2) eqn:E2; simpl; congruence.
Qed.

Lemma obl_save_checkpoint c s i : oblivious (W:=W) (save_checkpoint c s i).
Proof. apply obl_file_op. intros f1 f2 E. exact E. Qed.

Lemma obl_append_row r : oblivious (W:=W) (append_row r).
Proof. apply obl_file_op. intros f1 f2 E. simpl. now rewrite E. Qed.

End ObliviousRules.

Ltac obl_step :=
  lazymatch goal with
  | |- oblivious (bind _ _) => apply obl_bind; [|intros ?]
  | |- oblivious (ret _) => apply obl_ret
  | |- oblivious raise => apply obl_raise
  | |- oblivious out_of_fuel => apply obl_out_of_fuel
  | |- oblivious (attempt _) => apply obl_attempt
  | |- oblivious (try_except _ _) => apply obl_try_except
  | |- oblivious (for_each _ _ _) => apply obl_for_each; intros ? ?
  | |- oblivious init_csv => apply obl_init_csv
  | |- oblivious (save_checkpoint _ _ _) => apply obl_save_checkpoint
  | |- oblivious (append_row _) => apply obl_append_row
  | |- oblivious current_url => apply obl_current_url
  | |- oblivious (print _) => apply obl_emit
  | |- oblivious (emit _) => apply obl_emit
  | |- oblivious (if ?b then _ else _) => destruct b
  | |- oblivious (match ?x with _ => _ end) => destruct x
  | |- oblivious _ =>
      first [ apply obl_query | apply obl_action | apply obl_fallible
            | apply obl_read | apply obl_act ]
  end.

Section Fresh.

Context {W : Type} `{Browser W}.
Variable urljoin : string -> string -> string.

Lemma obl_safe_goto_from fuel u retries attempt :
  oblivious (W:=W) (_safe_goto_from fuel u retries attempt).
Proof.
  revert attempt. induction fuel as [|fuel IH]; intros attempt; simpl.
  - obl_step.
  - obl_step; [obl_step|]. destruct (attempt + 1 >? retries); [obl_step | apply IH].
Qed.

Lemma obl_safe_goto fuel u retries : oblivious (W:=W) (_safe_goto fuel u retries).
Proof. apply obl_safe_goto_from. Qed.

Lemma obl_extract_link_text_pairs selector :
  oblivious (W:=W) (_extract_link_text_pairs urljoin selector).
Proof. unfold _extract_link_text_pairs. repeat obl_step. Qed.

Lemma obl_stripped_texts l n : oblivious (W:=W) (stripped_texts l n).
Proof. unfold stripped_texts. repeat obl_step. Qed.

Lemma obl_extract_exhibitor_details : oblivious (W:=W) _extract_exhibitor_details.
Proof.
  unfold _extract_exhibitor_details.
  repeat first [apply obl_stripped_texts | obl_step].
Qed.

Lemma obl_handle_details rs category subcategory i seen found outcome :
  oblivious (W:=W) (handle_details rs category subcategory i seen found outcome).
Proof. unfold handle_details, finish_exhibitor. repeat obl_step. Qed.

Lemma obl_exhibitor_body rs category subcategory v :
  oblivious (W:=W) (exhibitor_body rs category subcategory v).
Proof.
  unfold exhibitor_body, extract_details.
  repeat first [apply obl_handle_details | apply obl_extract_exhibitor_details
               | obl_step].
Qed.

Lemma obl_exhibitor_loop fuel rs category subcategory n v :
  oblivious (W:=W) (exhibitor_loop fuel rs category subcategory n v).
Proof.
  revert v. induction fuel as [|fuel IH]; intros v; simpl;
    destruct (exhibitor_index v <? Z.of_nat n); try obl_step.
  - apply obl_exhibitor_body.
  - destruct a; [apply IH | obl_step].
Qed.

Lemma obl_visit_subcategory fuel rs category subcategory found :
  oblivious (W:=W) (visit_subcategory fuel rs category subcategory found).
Proof.
  unfold visit_subcategory, _count_exhibitor_cards.
  repeat first [apply obl_safe_goto | apply obl_exhibitor_loop | obl_step].
Qed.

Lemma obl_subcategory_loop fuel rs category started found subcategories :
  oblivious (W:=W) (subcategory_loop fuel rs category started found subcategories).
Proof.
  revert started found.
  induction subcategories as [|subcategory rest IH]; intros started found; simpl.
  - obl_step.
  - destruct (resume_mode rs && name_is (name category) (resume_category rs)
              && negb started); [apply IH|].
    obl_step; [apply obl_visit_subcategory | apply IH].
Qed.

Lemma obl_visit_category fuel rs category found :
  oblivious (W:=W) (visit_category urljoin fuel rs category found).
Proof.
  unfold visit_category.
  repeat first [apply obl_safe_goto | apply obl_extract_link_text_pairs
               | apply obl_subcategory_loop | obl_step].
Qed.

Lemma obl_category_loop fuel rs started found categories :
  oblivious (W:=W) (category_loop urljoin fuel rs started found categories).
Proof.
  revert started found.
  induction categories as [|category rest IH]; intros started found; simpl.
  - obl_step.
  - destruct (negb started);
      [destruct (name_is (name category) (resume_category rs)); [|apply IH]|];
      (obl_step; [apply obl_visit_category | apply IH]).
Qed.

Lemma obl_list_subcategories_of fuel category :
  oblivious (W:=W) (list_subcategories_of urljoin fuel category).
Proof.
  unfold list_subcategories_of.
  repeat first [apply obl_safe_goto | apply obl_extract_link_text_pairs | obl_step].
Qed.

Lemma obl_run_fresh target fuel list_categories list_subcategories :
  oblivious (W:=W) (run urljoin target fuel list_categories list_subcategories true).
Proof.
  unfold run.
  repeat first [apply obl_safe_goto | apply obl_extract_link_text_pairs
               | apply obl_category_loop | apply obl_list_subcategories_of
               | obl_step].
Qed.

(** X14. The fresh flag.  With the flag set, [run] does not depend on the
    checkpoint file nor on the resume company name: in every mode, started
    with any checkpoint file and any resume name, it ends in the same way,
    with the same calls to the page, the same lines printed, the same rows
    appended and the same output file, as when it is started without a
    checkpoint file and with an empty resume name. *)
Theorem fresh_run_ignores_checkpoint_and_target (target : string) (fuel : nat)
    (list_categories list_subcategories : bool) (st : State W)
    (checkpoint : option Checkpoint) :
  let with_checkpoint :=
    run urljoin target fuel list_categories list_subcategories true
      (mkState (page st) (mkFS (csv_file (fs st)) checkpoint) (trace st)) in
  let without :=
    run urljoin "" fuel list_categories list_subcategories true
      (mkState (page st) (mkFS (csv_file (fs st)) None) (trace st)) in
  fst with_checkpoint = fst without
  /\ page (snd with_checkpoint) = page (snd without)
  /\ trace (snd with_checkpoint) = trace (snd without)
  /\ csv_file (fs (snd with_checkpoint)) = csv_file (fs (snd without)).
Proof.
  cbv zeta.
  change (run urljoin "" fuel list_categories list_subcategories true)
    with (run urljoin target fuel list_categories list_subcategories true).
  apply obl_run_fresh. repeat split.
Qed.

End Fresh.

(** ** Termination of the run *)

Section TotalRules.

Context {W : Type} `{Browser W}.

Lemma steady_ret {A} (a : A) : steady (W:=W) (ret a).
Proof. intros st. discriminate. Qed.

Lemma steady_raise {A} : steady (W:=W) (A:=A) raise.
Proof. intros st. discriminate. Qed.

Lemma steady_bind {A B} (c : M W A) (k : A -> M W B) :
  steady c -> (forall a, steady (k a)) -> steady (bind c k).
Proof.
  intros Hc Hk st. unfold bind. specialize (Hc st).
  destruct (c st) as [[a| |] st1]; [apply Hk | discriminate | contradiction].
Qed.

Lemma steady_try_except {A} (c h : M W A) :
  steady c -> steady h -> steady (try_except c h).
Proof.
  intros Hc Hh st. unfold try_except. specialize (Hc st).
  destruct (c st) as [[a| |] st1]; [discriminate | apply Hh | contradiction].
Qed.

Lemma steady_attempt {A} (c : M W A) : steady c -> steady (attempt c).
Proof.
  intros Hc. apply steady_try_except; [|apply steady_ret].
  apply steady_bind; [exact Hc|]. intros a. apply steady_ret.
Qed.

Lemma steady_for_each {A S} (xs : list A) (body : A -> S -> M W S) (acc : S) :
  (forall x a, steady (body x a)) -> steady (for_each xs body acc).
Proof.
  intros Hbody. revert acc. induction xs as [|x xs IH]; intros acc; simpl.
  - apply steady_ret.
  - apply steady_bind; [apply Hbody | exact IH].
Qed.

Lemma steady_emit e : steady (W:=W) (emit e).
Proof. intros st. discriminate. Qed.

Lemma steady_query {A} (op : W -> A * W) ev : steady (query op ev).
Proof. intros st. unfold query. destruct (op (page st)). discriminate. Qed.

Lemma steady_action (op : W -> W) e : steady (action op e).
Proof. intros st. discriminate. Qed.

Lemma steady_fallible (op : W -> bool * W) ev : steady (fallible op ev).
Proof. intros st. unfold fallible. destruct (op (page st)) as [[] w]; discriminate. Qed.

Lemma steady_read {A} (op : W -> option A * W) ev call : steady (read op ev call).
Proof.
  intros st. unfold read. destruct (op (page st)) as [[a|] w]; discriminate.
Qed.

Lemma steady_act (op : W -> bool * W) e call : steady (act op e call).
Proof.
  intros st. unfold act. destruct (op (page st)) as [[] w]; discriminate.
Qed.

Lemma steady_file_op (op : FS -> FS) e : steady (W:=W) (file_op op e).
Proof. intros st. discriminate. Qed.

Lemma steady_current_url : steady (W:=W) current_url.
Proof. intros st. discriminate. Qed.

Lemma steady_load_checkpoint : steady (W:=W) load_checkpoint.
Proof. intros st. discriminate. Qed.

Lemma total_steady {A} (c : M W A) : steady c -> total (fun _ => c).
Proof. intros Hc st. exists 0%nat. split; [apply Hc | reflexivity]. Qed.

Lemma total_bind {A B} (c : nat -> M W A) (k : nat -> A -> M W B) :
  total c -> (forall a, total (fun fuel => k fuel a)) ->
  total (fun fuel => bind (c fuel) (k fuel)).
Proof.
  intros Hc Hk st. destruct (Hc st) as (fuel1 & Hr1 & Hmono1).
  destruct (c fuel1 st) as [[a| |] st1] eqn:E1; simpl in Hr1; [| |contradiction].
  - destruct (Hk a st1) as (fuel2 & Hr2 & Hmono2).
    exists (Nat.max fuel1 fuel2).
    assert (Eq : forall fuel, (Nat.max fuel1 fuel2 <= fuel)%nat ->
                 bind (c fuel) (k fuel) st = k fuel2 a st1).
    { intros fuel Hle. unfold bind. rewrite (Hmono1 fuel) by lia.
      apply Hmono2. lia. }
    split.
    + rewrite (Eq _ (Nat.le_refl _)). exact Hr2.
    + intros fuel Hle. now rewrite (Eq fuel Hle), (Eq _ (Nat.le_refl _)).
  - exists fuel1.
    assert (Eq : forall fuel, (fuel1 <= fuel)%nat ->
                 bind (c fuel) (k fuel) st = (TimeoutError, st1)).
    { intros fuel Hle. unfold bind. now rewrite (Hmono1 fuel) by lia. }
    split.
    + rewrite (Eq _ (Nat.le_refl _)). discriminate.
    + intros fuel Hle. now rewrite (Eq fuel Hle), (Eq _ (Nat.le_refl _)).
Qed.

Lemma total_for_each {A S} (xs : list A) (body : nat -> A -> S -> M W S) (acc : S) :
  (forall x a, total (fun fuel => body fuel x a)) ->
  total (fun fuel => for_each xs (body fuel) acc).
Proof.
  intros Hbody. revert acc. induction xs as [|x xs IH]; intros acc; simpl.
  - apply total_steady, steady_ret.
  - apply (total_bind (fun fuel => body fuel x acc)
             (fun fuel => for_each xs (body fuel))); [apply Hbody | exact IH].
Qed.

End TotalRules.

Ltac steady_step :=
  wp_prim;
  lazymatch goal with
  | |- steady (bind _ _) => apply steady_bind; [|intros ?]
  | |- steady (ret _) => apply steady_ret
  | |- steady raise => apply steady_raise
  | |- steady (attempt _) => apply steady_attempt
  | |- steady (try_except _ _) => apply steady_try_except
  | |- steady (for_each _ _ _) => apply steady_for_each; intros ? ?
  | |- steady (query _ _) => apply steady_query
  | |- steady (action _ _) => apply steady_action
  | |- steady (fallible _ _) => apply steady_fallible
  | |- steady (read _ _ _) => apply steady_read
  | |- steady (act _ _ _) => apply steady_act
  | |- steady (emit _) => apply steady_emit
  | |- steady (file_op _ _) => apply steady_file_op
  | |- steady current_url => apply steady_current_url
  | |- steady load_checkpoint => apply steady_load_checkpoint
  | |- steady (if ?b then _ else _) => destruct b
  | |- steady (match ?x with _ => _ end) => destruct x
  end.

Ltac total_step :=
  lazymatch goal with
  | |- total (fun fuel => bind _ _) => apply total_bind; [|intros ?]
  | |- total (fun fuel => if ?b then _ else _) => destruct b
  | |- total (fun fuel => match ?x with _ => _ end) => destruct x
  | |- total (fun _ => _) => apply total_steady; repeat steady_step
  end.

Section Termination.

Context {W : Type} `{Browser W}.
Variable urljoin : string -> string -> string.

Lemma safe_goto_from_mono fuel fuel' u retries attempt (st : State W) :
  (fuel <= fuel')%nat ->
  fst (_safe_goto_from fuel u retries attempt st) <> OutOfFuel ->
  _safe_goto_from fuel' u retries attempt st
  = _safe_goto_from fuel u retries attempt st.
Proof.
  revert fuel' attempt st. induction fuel as [|fuel IH]; intros fuel' attempt st Hle;
    [simpl; contradiction|].
  destruct fuel' as [|fuel']; [lia|]. simpl. unfold try_except.
  destruct (goto u st) as [[[]| |] st1]; try reflexivity.
  destruct (attempt + 1 >? retries); [reflexivity|].
  apply IH. lia.
Qed.

Lemma total_safe_goto u retries :
  total (W:=W) (fun fuel => _safe_goto fuel u retries).
Proof.
  intros st. exists (S (Z.to_nat retries)).
  assert (Hr : fst (_safe_goto (S (Z.to_nat retries)) u retries st) <> OutOfFuel).
  { pose proof (safe_goto_from_outcome (S (Z.to_nat retries)) u retries 0 st) as Ho.
    unfold wp in Ho. unfold _safe_goto.
    destruct (_safe_goto_from (S (Z.to_nat retries)) u retries 0 st) as [r st'].
    simpl in *. destruct Ho as (_ & failures & Hcase).
    destruct r; [discriminate..|]. rewrite Z.sub_0_r in Hcase. lia. }
  split; [exact Hr|]. intros fuel Hle. now apply safe_goto_from_mono.
Qed.

Lemma exhibitor_loop_mono fuel fuel' rs category subcategory n v (st : State W) :
  (fuel <= fuel')%nat ->
  fst (exhibitor_loop fuel rs category subcategory n v st) <> OutOfFuel ->
  exhibitor_loop fuel' rs category subcategory n v st
  = exhibitor_loop fuel rs category subcategory n v st.
Proof.
  revert fuel' v st. induction fuel as [|fuel IH]; intros fuel' v st Hle.
  - destruct fuel'; simpl; destruct (exhibitor_index v <? Z.of_nat n);
      simpl; try contradiction; reflexivity.
  - destruct fuel' as [|fuel']; [lia|]. simpl.
    destruct (exhibitor_index v <? Z.of_nat n); [|reflexivity].
    unfold bind.
    destruct (exhibitor_body rs category subcategory v st) as [[[v'|]| |] st1];
      try reflexivity.
    apply IH. lia.
Qed.

Lemma total_exhibitor_loop rs category subcategory n v :
  total (W:=W) (fun fuel => exhibitor_loop fuel rs category subcategory n v).
Proof.
  intros st. exists (Z.to_nat (Z.of_nat n - exhibitor_index v)).
  assert (Hr : fst (exhibitor_loop (Z.to_nat (Z.of_nat n - exhibitor_index v))
                      rs category subcategory n v st) <> OutOfFuel).
  { exact (exhibitor_loop_ends rs category subcategory
             (Z.to_nat (Z.of_nat n - exhibitor_index v)) n v st (Nat.le_refl _)). }
  split; [exact Hr|]. intros fuel Hle. now apply exhibitor_loop_mono.
Qed.

Lemma steady_extract_link_text_pairs selector :
  steady (W:=W) (_extract_link_text_pairs urljoin selector).
Proof. unfold _extract_link_text_pairs. repeat steady_step. Qed.

Lemma total_visit_subcategory rs category subcategory found :
  total (W:=W) (fun fuel => visit_subcategory fuel rs category subcategory found).
Proof.
  unfold visit_subcategory, _count_exhibitor_cards.
  repeat first [apply total_safe_goto | apply total_exhibitor_loop | total_step].
Qed.

Lemma total_subcategory_loop rs category started found subcategories :
  total (W:=W)
    (fun fuel => subcategory_loop fuel rs category started found subcategories).
Proof.
  revert started found.
  induction subcategories as [|subcategory rest IH]; intros started found; simpl.
  - total_step.
  - destruct (resume_mode rs && name_is (name category) (resume_category rs)
              && negb started); [apply IH|].
    apply (total_bind
             (fun fuel => visit_subcategory fuel rs category subcategory found)
             (fun fuel found0 => subcategory_loop fuel rs category started found0 rest));
      [apply total_visit_subcategory | intros a; apply IH].
Qed.

Lemma total_visit_category rs category found :
  total (W:=W) (fun fuel => visit_category urljoin fuel rs category found).
Proof.
  unfold visit_category.
  repeat first [apply total_safe_goto | apply total_subcategory_loop
               | apply total_steady, steady_extract_link_text_pairs | total_step].
Qed.

Lemma total_category_loop rs started found categories :
  total (W:=W) (fun fuel => category_loop urljoin fuel rs started found categories).
Proof.
  revert started found.
  induction categories as [|category rest IH]; intros started found; simpl.
  - total_step.
  - destruct (negb started);
      [destruct (name_is (name category) (resume_category rs)); [|apply IH]|];
      (apply (total_bind
                (fun fuel => visit_category urljoin fuel rs category found)
                (fun fuel found0 => category_loop urljoin fuel rs _ found0 rest));
       [apply total_visit_category | intros a; apply IH]).
Qed.

Lemma total_list_subcategories_of category :
  total (W:=W) (fun fuel => list_subcategories_of urljoin fuel category).
Proof.
  unfold list_subcategories_of.
  repeat first [apply total_safe_goto
               | apply total_steady, steady_extract_link_text_pairs | total_step].
Qed.

(** X15. [run] terminates.  In every mode, with every browser and from
    every state of the page and of the files, the run ends: it returns or
    raises the time-out.  In the model, some amount of fuel is enough, and
    with more fuel the run is the same, call for call. *)
Theorem run_terminates (target : string)
    (list_categories list_subcategories fresh : bool) (st : State W) :
  exists fuel0,
    fst (run urljoin target fuel0 list_categories list_subcategories fresh st)
    <> OutOfFuel
    /\ forall fuel, (fuel0 <= fuel)%nat ->
         run urljoin target fuel list_categories list_subcategories fresh st
         = run urljoin target fuel0 list_categories list_subcategories fresh st.
Proof.
  revert st.
  change (total (fun fuel =>
            run urljoin target fuel list_categories list_subcategories fresh)).
  unfold run.
  repeat first [apply total_safe_goto | apply total_category_loop
               | apply total_steady, steady_extract_link_text_pairs
               | apply (total_for_each _ (fun fuel category _ =>
                          list_subcategories_of urljoin fuel category));
                 intros ? ?; apply total_list_subcategories_of
               | total_step].
Qed.

End Termination.
